(** * OroShine: the slot-booking and notification core

    A shallow embedding of the booking view, the cancellation view, the
    slot-availability view, the cache-invalidation signal handlers, the
    staff actions and the Celery jobs of [oroshine_webapp], followed by
    the properties the design document states about them.

    Conventions.
    - The relational table of appointments is a finite map from the
      [ulid] of a row to the row.
    - The Redis cache is a finite map from the key to the stored value
      and the instant at which the entry expires; every cache operation
      is given the current instant.
    - A date is the ISO text that [str(date)] and
      [date.strftime('%Y-%m-%d')] both print; a time slot is the text of
      the choice ("10:00").
    - Values drawn from outside a handler (the ULID used as lock token,
      the ULID given to a new row, whether the database, the broker, the
      mail server or the calendar fails) are inputs of the handler.
    - The cache answers every call: a Redis that is down is not part of
      the model.
    - Logging and Prometheus counters leave no trace in the state and
      are left out.
    - The system of requests served side by side is given twice.
      [step] is the system in which every request is served while its
      lock lasts: the clock advances only as far as [locks_outlive]
      allows, and only the booking view and the cancellation view
      move.  The code enforces neither.  [free_step] is the system as
      the code leaves it: any time may pass between two moves of a
      request, and staff run their bulk actions ([mark_as]) in
      between.  What is stated over [step] holds under its assumption
      only; what the code does without it is stated over [free_step].
    - What the database accepts of a row is decided in models.py, which
      is not among the sources; the table refuses a second row under a
      ulid and nothing else.
    - The last part of the file covers more of the application: the
      rate-limiting decorator of views.py and the rate limiter of
      middleware.py, the suggestion of user names, the welcome mail and
      the cancellation mail, the edit form, the resend action and a
      display column of the staff console; and it states what the views
      and the jobs do when they are run one after the other.  There the
      clock is moved by hand ([after]), without the guard of [step]. *)

From Stdlib Require Import Ascii.
From stdpp Require Import gmap strings list fin_maps pretty.

Set Warnings "-clear-no-such-hyp".

Open Scope string_scope.
Open Scope list_scope.
Open Scope Z_scope.

(** ** Data model *)

(** [STATUS_CHOICES]. *)
Inductive Status := pending | confirmed | completed | cancelled | rescheduled.

#[export] Instance Status_eq_dec : EqDecision Status.
Proof. solve_decision. Defined.

(** The text stored in the [status] column. *)
Definition status_str (s : Status) : string :=
  match s with
  | pending => "pending"
  | confirmed => "confirmed"
  | completed => "completed"
  | cancelled => "cancelled"
  | rescheduled => "rescheduled"
  end.

Record Doctor := mkDoctor {
  d_id : N;
  d_email : string;
}.

(** Modelled from the spec: the [Appointment] model is declared in
    models.py, which is not among the sources.  The fields are the ones
    the views, the signal handlers and the jobs read or write.  The
    [ulid] of a row is its identity: it is the key under which the table
    holds the row, not a field of this record.  [user] is the id of the
    owning user. *)
Record Appointment := mkAppointment {
  user : N;
  doctor : option Doctor;
  date : string;
  time : string;
  service : string;
  name : string;
  email : string;
  phone : string;
  message : string;
  status : Status;
  calendar_event_id : option string;
}.

Definition with_status (s : Status) (a : Appointment) : Appointment :=
  mkAppointment (user a) (doctor a) (date a) (time a) (service a)
    (name a) (email a) (phone a) (message a) s (calendar_event_id a).

Definition with_calendar_event_id (e : string) (a : Appointment) : Appointment :=
  mkAppointment (user a) (doctor a) (date a) (time a) (service a)
    (name a) (email a) (phone a) (message a) (status a) (Some e).

(** [appt.doctor_id]: the key of the doctor, [None] for a row without. *)
Definition doctor_id (a : Appointment) : option N := d_id <$> doctor a.

(** How an f-string prints an optional key. *)
Definition str_opt_id (o : option N) : string :=
  match o with
  | Some n => pretty n
  | None => "None"
  end.

(** [status__in=['pending', 'confirmed']]. *)
Definition active (s : Status) : bool :=
  match s with
  | pending | confirmed => true
  | _ => false
  end.

(** A slot: doctor, date, time of day. *)
Definition Slot : Type := N * string * string.

Definition in_slot (k : Slot) (a : Appointment) : Prop :=
  doctor_id a = Some k.1.1 ∧ date a = k.1.2 ∧ time a = k.2.

#[export] Instance in_slot_dec k a : Decision (in_slot k a).
Proof. unfold in_slot. apply _. Defined.

(** The rows a booking of slot [k] conflicts with. *)
Definition occupies (k : Slot) (a : Appointment) : Prop :=
  in_slot k a ∧ active (status a) = true.

#[export] Instance occupies_dec k a : Decision (occupies k a).
Proof. unfold occupies. apply _. Defined.

(** ** The cache (django.core.cache over Redis) *)

Module Cache.

(** The values the application stores. *)
Inductive value :=
| VStr (s : string)
| VBool (b : bool)
| VInt (n : Z)
| VSet (s : gset string).

Record entry := mkEntry {
  stored : value;
  expires : Z;
}.

Definition live (t : Z) (e : entry) : bool := bool_decide (t < expires e).

(** [cache.get(key)]: the value of an entry that has not expired. *)
Definition get (t : Z) (key : string) (c : gmap string entry) : option value :=
  match c !! key with
  | Some e => if live t e then Some (stored e) else None
  | None => None
  end.

(** [cache.set(key, value, timeout)]. *)
Definition set (t : Z) (key : string) (v : value) (timeout : Z)
    (c : gmap string entry) : gmap string entry :=
  <[key := mkEntry v (t + timeout)]> c.

(** [cache.add(key, value, timeout)]: Redis SET NX EX, one operation.
    Stores and answers [true] only when no live entry holds the key. *)
Definition add (t : Z) (key : string) (v : value) (timeout : Z)
    (c : gmap string entry) : bool * gmap string entry :=
  match get t key c with
  | Some _ => (false, c)
  | None => (true, set t key v timeout c)
  end.

(** [cache.delete(key)]. *)
Definition delete (key : string) (c : gmap string entry) : gmap string entry :=
  base.delete key c.

(** Python truth of what [cache.get] returned. *)
Definition truthy (o : option value) : bool :=
  match o with
  | None => false
  | Some (VStr s) => negb (String.eqb s "")
  | Some (VBool b) => b
  | Some (VInt n) => negb (n =? 0)
  | Some (VSet s) => negb (bool_decide (s = ∅))
  end.

End Cache.

#[export] Instance value_eq_dec : EqDecision Cache.value.
Proof. solve_decision. Defined.

(** ** Mail, calendar, broker *)

(** What [send_html_email] hands to the mail server: the rendered body
    is determined by the template and the appointment and is left out. *)
Record Email := mkEmail {
  subject : string;
  template_name : string;
  recipient_list : list string;
  ical_attachment : option string;
}.

(** The body of [events().insert].  The two instants are kept as the
    date, the time of day and the length in minutes they are built from. *)
Record CalendarEvent := mkCalendarEvent {
  summary : string;
  description : string;
  start_date : string;
  start_time : string;
  minutes : Z;
  location : string;
}.

(** A [task.delay(...)] message on the broker. *)
Inductive Job :=
| send_appointment_email (appointment_ulid : string)
| create_calendar_event (appointment_ulid : string)
| send_appointment_cancel_email (appointment_ulid : string)
| send_appointment_status_update_email_job
    (appointment_ulid : string) (old_status new_status : Status).

#[export] Instance Job_eq_dec : EqDecision Job.
Proof. solve_decision. Defined.

Definition job_ulid (j : Job) : string :=
  match j with
  | send_appointment_email u
  | create_calendar_event u
  | send_appointment_cancel_email u
  | send_appointment_status_update_email_job u _ _ => u
  end.

(** ** The shared state *)

Record World := mkWorld {
  db : gmap string Appointment;        (* committed rows, by ulid *)
  cache : gmap string Cache.entry;     (* Redis *)
  broker : list Job;                   (* jobs enqueued, oldest first *)
  outbox : list Email;                 (* mails handed to the server *)
  calendar : list CalendarEvent;       (* calls made to the calendar API *)
  now : Z;                             (* the clock, in seconds *)
}.

Definition with_db (d : gmap string Appointment) (w : World) : World :=
  mkWorld d (cache w) (broker w) (outbox w) (calendar w) (now w).
Definition with_cache (c : gmap string Cache.entry) (w : World) : World :=
  mkWorld (db w) c (broker w) (outbox w) (calendar w) (now w).
Definition with_broker (b : list Job) (w : World) : World :=
  mkWorld (db w) (cache w) b (outbox w) (calendar w) (now w).
Definition with_outbox (o : list Email) (w : World) : World :=
  mkWorld (db w) (cache w) (broker w) o (calendar w) (now w).
Definition with_calendar (l : list CalendarEvent) (w : World) : World :=
  mkWorld (db w) (cache w) (broker w) (outbox w) l (now w).
Definition with_now (t : Z) (w : World) : World :=
  mkWorld (db w) (cache w) (broker w) (outbox w) (calendar w) t.

Arguments with_db _ _ /.
Arguments with_cache _ _ /.
Arguments with_broker _ _ /.
Arguments with_outbox _ _ /.
Arguments with_calendar _ _ /.
Arguments with_now _ _ /.

(** ** signals.py *)

(** [post_save] receiver of [Appointment]. *)
Definition invalidate_appointment_cache (instance : Appointment)
    (c : gmap string Cache.entry) : gmap string Cache.entry :=
  let c := Cache.delete ("upcoming_appointments:" +:+ pretty (user instance)) c in
  let c := Cache.delete ("user_appointment_stats:" +:+ pretty (user instance)) c in
  let cache_key :=
    "available_slots:" +:+ date instance +:+ ":" +:+ str_opt_id (doctor_id instance) in
  let c := Cache.delete cache_key c in
  Cache.delete "homepage_stats" c.

(** [post_delete] receiver of [Appointment]. *)
Definition invalidate_appointment_cache_on_delete (instance : Appointment)
    (c : gmap string Cache.entry) : gmap string Cache.entry :=
  let c := Cache.delete ("upcoming_appointments:" +:+ pretty (user instance)) c in
  let c := Cache.delete ("user_appointment_stats:" +:+ pretty (user instance)) c in
  let cache_key :=
    "available_slots:" +:+ date instance +:+ ":" +:+ str_opt_id (doctor_id instance) in
  Cache.delete cache_key c.

(** ** The ORM calls the code makes *)

(** [instance.save()] outside a transaction: the row is written under
    its ulid and the [post_save] receiver runs before [save] returns. *)
Definition save (u : string) (instance : Appointment) (w : World) : World :=
  with_cache (invalidate_appointment_cache instance (cache w))
    (with_db (<[u := instance]> (db w)) w).

(** [instance.delete()]: the row goes and the [post_delete] receiver runs. *)
Definition delete_instance (u : string) (w : World) : World :=
  match db w !! u with
  | Some instance =>
      with_cache (invalidate_appointment_cache_on_delete instance (cache w))
        (with_db (delete u (db w)) w)
  | None => w
  end.

(** [filter(doctor=..., date=..., time=..., status__in=[...]).exists()]. *)
Definition conflict_exists (k : Slot) (d : gmap string Appointment) : bool :=
  bool_decide (map_Exists (λ _ a, occupies k a) d).

(** ** views.py *)

#[warnings="-register-all"] Inductive json :=
| JStr (s : string)
| JBool (b : bool)
| JArr (l : list json)
| JObj (l : list (string * json)).

Inductive Response :=
| JsonResponse (data : list (string * json)) (status_code : Z)
| render (template : string)
| Raised (exception : string).   (* an exception no handler of the view catches *)

Definition LOCK_TTL : Z := 30.

Definition invalidate_user_cache (user_id : N)
    (c : gmap string Cache.entry) : gmap string Cache.entry :=
  let keys := [ "user_profile:" +:+ pretty user_id;
                "sidebar_appt:" +:+ pretty user_id;
                "user_appointment_stats:" +:+ pretty user_id ] in
  foldl (λ c key, Cache.delete key c) c keys.

(** *** check_slots_ajax *)

(** The POST fields; [None] and the empty text are what [not x] rejects.
    The doctor is given by the number the booking page posts. *)
Record SlotsRequest := mkSlotsRequest {
  sr_doctor_id : option N;
  sr_date : string;
}.

(** The set of booked times the view computes on a cache miss. *)
Definition booked_times (did : N) (date_ : string)
    (d : gmap string Appointment) : gset string :=
  list_to_set
    (time <$> filter (λ a, doctor_id a = Some did ∧ date a = date_
                           ∧ active (status a) = true)
                     (map_to_list d).*2).

(** [t not in booked] on what the cache returned: a set is searched, a
    text is searched for the substring, anything else raises TypeError. *)
Definition not_in (t : string) (booked : Cache.value) : option bool :=
  match booked with
  | Cache.VSet s => Some (bool_decide (t ∉ s))
  | Cache.VStr s => Some (bool_decide (String.index 0 t s = None))
  | _ => None
  end.

Definition slot_entry (t display : string) (is_available : bool) : json :=
  JObj [("time", JStr t); ("display", JStr display);
        ("is_available", JBool is_available)].

(** [TIME_SLOTS] is declared in models.py; the view takes it as given. *)
Definition check_slots_ajax (TIME_SLOTS : list (string * string))
    (request : SlotsRequest) (w : World) : Response * World :=
  match sr_doctor_id request with
  | None => (JsonResponse [("status", JStr "error")] 400, w)
  | Some did =>
    if bool_decide (sr_date request = "")
    then (JsonResponse [("status", JStr "error")] 400, w)
    else
      let cache_key := "slots:" +:+ pretty did +:+ ":" +:+ sr_date request in
      let '(booked, w) :=
        match Cache.get (now w) cache_key (cache w) with
        | Some booked => (booked, w)
        | None =>
            let booked := Cache.VSet (booked_times did (sr_date request) (db w)) in
            (booked, with_cache (Cache.set (now w) cache_key booked 300 (cache w)) w)
        end in
      match mapM (λ td, slot_entry td.1 td.2 <$> not_in td.1 booked) TIME_SLOTS with
      | Some slots =>
          (JsonResponse [("status", JStr "success"); ("slots", JArr slots)] 200, w)
      | None => (Raised "TypeError", w)
      end
  end.

(** *** appointment: the booking view *)

(** [form.cleaned_data]. *)
Record CleanedData := mkCleanedData {
  cd_doctor : Doctor;
  cd_date : string;
  cd_time : string;
  cd_service : string;
  cd_name : string;
  cd_email : string;
  cd_phone : string;
  cd_message : string;
}.

(** [AppointmentForm] is declared in forms.py; the view only asks
    whether it is valid and reads its cleaned data or its errors. *)
Inductive Form :=
| form_invalid (errors : json)
| form_valid (cleaned_data : CleanedData).

(** Where a collaborator of the view may raise. *)
Inductive Fault :=
| fault_query             (* the SELECT ... FOR UPDATE *)
| fault_insert            (* the INSERT *)
| fault_commit            (* the COMMIT *)
| fault_enqueue_email     (* the first on_commit callback *)
| fault_enqueue_calendar. (* the second on_commit callback *)

#[export] Instance Fault_eq_dec : EqDecision Fault.
Proof. solve_decision. Defined.

Record BookingRequest := mkBookingRequest {
  rq_user : N;                 (* request.user.id; the view is login_required *)
  rq_ajax_post : bool;         (* POST with X-Requested-With: XMLHttpRequest *)
  rq_form : Form;
  rq_lock_value : string;      (* str(ULID()) drawn for the lock *)
  rq_ulid : string;            (* the ulid the new row is given *)
  rq_fault : option Fault;
}.

Definition slot_of (data : CleanedData) : Slot :=
  (d_id (cd_doctor data), cd_date data, cd_time data).

Definition lock_key_of (data : CleanedData) : string :=
  "lock:slot:" +:+ pretty (d_id (cd_doctor data)) +:+ ":" +:+ cd_date data
    +:+ ":" +:+ cd_time data.

Definition slots_key_of (data : CleanedData) : string :=
  "slots:" +:+ pretty (d_id (cd_doctor data)) +:+ ":" +:+ cd_date data.

(** The row [Appointment.objects.create(...)] builds. *)
Definition new_appointment (request : BookingRequest) (data : CleanedData)
    : Appointment :=
  {| user := rq_user request;
     doctor := Some (cd_doctor data);
     date := cd_date data;
     time := cd_time data;
     service := cd_service data;
     name := cd_name data;
     email := cd_email data;
     phone := cd_phone data;
     message := cd_message data;
     status := pending;
     calendar_event_id := None |}.

Definition response_invalid (errors : json) : Response :=
  JsonResponse [("status", JStr "error"); ("message", JStr "Invalid input");
                ("errors", errors)] 400.

Definition response_lock_failed : Response :=
  JsonResponse
    [("status", JStr "error");
     ("message", JStr "Slot just booked by someone else. Please select another.")]
    409.

Definition response_conflict : Response :=
  JsonResponse
    [("status", JStr "error");
     ("message", JStr "This time slot is no longer available.")]
    409.

Definition response_booked (appt_ulid : string) : Response :=
  JsonResponse
    [("status", JStr "success"); ("appointment_id", JStr appt_ulid);
     ("redirect_url", JStr "/appointment")]
    200.

Definition response_failed : Response :=
  JsonResponse
    [("status", JStr "error");
     ("message", JStr "Failed to book appointment. Please try again.")]
    500.

(** The point a booking request has reached.  [at_query], [at_create]
    and [at_commit] are inside [transaction.atomic()]; the row and the
    callbacks of [at_commit] are those of the open transaction.  The
    [finally] block makes two calls to the cache: [at_finally] is before
    the [cache.get], [at_release] is between the comparison that found
    the token of the request and the [cache.delete]. *)
Inductive Point :=
| at_start
| at_query (data : CleanedData)
| at_create (data : CleanedData)
| at_commit (data : CleanedData) (appt : Appointment) (on_commit : list Job)
| at_finally (data : CleanedData) (r : Response)
| at_release (data : CleanedData) (r : Response)
| returned (r : Response).

(** [cache.add(lock_key, lock_value, LOCK_TTL)] and the guard on it. *)
Definition acquire_lock (request : BookingRequest) (w : World) : Point * World :=
  if negb (rq_ajax_post request) then (returned (render "appointment.html"), w)
  else
    match rq_form request with
    | form_invalid errors => (returned (response_invalid errors), w)
    | form_valid data =>
        let '(added, c) :=
          Cache.add (now w) (lock_key_of data) (Cache.VStr (rq_lock_value request))
            LOCK_TTL (cache w) in
        if added then (at_query data, with_cache c w)
        else (returned response_lock_failed, w)
    end.

(** The conflict query under [select_for_update]. *)
Definition query_conflict (request : BookingRequest) (data : CleanedData)
    (w : World) : Point * World :=
  if bool_decide (rq_fault request = Some fault_query)
  then (at_finally data response_failed, w)
  else if conflict_exists (slot_of data) (db w)
  then (at_finally data response_conflict, w)
  else (at_create data, w).

(** [Appointment.objects.create], the [post_save] receiver it fires,
    [cache.delete] of the slot set and the two [transaction.on_commit]
    registrations.  The row stays in the open transaction; the cache is
    not transactional and changes at once. *)
Definition create_appointment (request : BookingRequest) (data : CleanedData)
    (w : World) : Point * World :=
  if bool_decide (rq_fault request = Some fault_insert)
     || bool_decide (is_Some (db w !! rq_ulid request))
  then (at_finally data response_failed, w)
  else
    let appt := new_appointment request data in
    let c := invalidate_appointment_cache appt (cache w) in
    let c := Cache.delete (slots_key_of data) c in
    let on_commit := [send_appointment_email (rq_ulid request);
                      create_calendar_event (rq_ulid request)] in
    (at_commit data appt on_commit, with_cache c w).

(** Leaving [with transaction.atomic()]: the commit, then the callbacks
    in the order they were registered; a callback that raises stops the
    rest and the exception reaches [except Exception].  A commit that
    fails rolls the transaction back: the row and the callbacks are
    dropped.  (A row that by then bears the ulid is a clash of primary
    keys, which the database refuses.) *)
Definition commit (request : BookingRequest) (data : CleanedData)
    (appt : Appointment) (on_commit : list Job) (w : World) : Point * World :=
  if bool_decide (rq_fault request = Some fault_commit)
     || bool_decide (is_Some (db w !! rq_ulid request))
  then (at_finally data response_failed, w)
  else
    let w := with_db (<[rq_ulid request := appt]> (db w)) w in
    match rq_fault request with
    | Some fault_enqueue_email => (at_finally data response_failed, w)
    | Some fault_enqueue_calendar =>
        (at_finally data response_failed,
         with_broker (broker w ++ take 1 on_commit) w)
    | _ =>
        (at_finally data (response_booked (rq_ulid request)),
         with_broker (broker w ++ on_commit) w)
    end.

(** The [finally] block, first call:
    [if cache.get(lock_key) == lock_value]. *)
Definition check_lock (request : BookingRequest) (data : CleanedData)
    (r : Response) (w : World) : Point * World :=
  if bool_decide (Cache.get (now w) (lock_key_of data) (cache w)
                  = Some (Cache.VStr (rq_lock_value request)))
  then (at_release data r, w)
  else (returned r, w).

(** The [finally] block, second call: [cache.delete(lock_key)]. *)
Definition release_lock (data : CleanedData) (w : World) : World :=
  with_cache (Cache.delete (lock_key_of data) (cache w)) w.

(** One move of a booking request. *)
Definition booking_step (request : BookingRequest) (p : Point) (w : World)
    : Point * World :=
  match p with
  | at_start => acquire_lock request w
  | at_query data => query_conflict request data w
  | at_create data => create_appointment request data w
  | at_commit data appt on_commit => commit request data appt on_commit w
  | at_finally data r => check_lock request data r w
  | at_release data r => (returned r, release_lock data w)
  | returned r => (returned r, w)
  end.

Fixpoint booking_run (fuel : nat) (request : BookingRequest) (p : Point)
    (w : World) : Point * World :=
  match fuel with
  | O => (p, w)
  | S fuel =>
      let '(p, w) := booking_step request p w in
      booking_run fuel request p w
  end.

(** The view: the request runs from its start until it returns.  Six
    moves are the longest path (lock, query, create, commit and the two
    calls of the [finally] block). *)
Definition appointment (request : BookingRequest) (w : World) : Response * World :=
  match booking_run 6 request at_start w with
  | (returned r, w) => (r, w)
  | (_, w) => (Raised "unfinished", w)
  end.

(** *** cancel_appointment *)

Record CancelRequest := mkCancelRequest {
  cr_user : N;                  (* request.user.id; the view is login_required *)
  cr_appointment_id : string;
}.

Definition response_not_found : Response :=
  JsonResponse [("status", JStr "error"); ("message", JStr "Appointment not found")]
    404.

Definition response_cannot_cancel (s : Status) : Response :=
  JsonResponse
    [("status", JStr "error");
     ("message", JStr ("Cannot cancel " +:+ status_str s +:+ " appointment"))]
    400.

Definition response_cancelled : Response :=
  JsonResponse
    [("status", JStr "success");
     ("message", JStr "Appointment cancelled successfully")]
    200.

(** [Appointment.objects.select_for_update().get(ulid=..., user=...)]. *)
Definition get_owned (appointment_id : string) (user_id : N)
    (d : gmap string Appointment) : option Appointment :=
  match d !! appointment_id with
  | Some appt => if bool_decide (user appt = user_id) then Some appt else None
  | None => None
  end.

(** The whole view is one transaction on one locked row. *)
Definition cancel_appointment (request : CancelRequest) (w : World)
    : Response * World :=
  match get_owned (cr_appointment_id request) (cr_user request) (db w) with
  | None => (* except Appointment.DoesNotExist *) (response_not_found, w)
  | Some appt =>
      if bool_decide (status appt ∈ [cancelled; completed; confirmed])
      then (response_cannot_cancel (status appt), w)
      else
        let appt := with_status cancelled appt in
        let w := save (cr_appointment_id request) appt w in
        let slots_key :=
          "slots:" +:+ str_opt_id (doctor_id appt) +:+ ":" +:+ date appt in
        let w := with_cache (Cache.delete slots_key (cache w)) w in
        (* commit, then the on_commit callback *)
        let w := with_broker
                   (broker w ++ [send_appointment_cancel_email (cr_appointment_id request)])
                   w in
        let w := with_cache (invalidate_user_cache (cr_user request) (cache w)) w in
        (response_cancelled, w)
  end.

(** ** Requests in flight *)

(** Web workers serve requests side by side.  A booking request moves
    one [booking_step] at a time; what it has written inside its
    transaction is seen by the others from its commit on.  A cancellation
    holds the row lock of its appointment from its [get] to its commit
    and is one move. *)
Inductive Thread :=
| booking (request : BookingRequest) (p : Point)
| cancelling (request : CancelRequest) (r : option Response).

Definition thread_step (t : Thread) (w : World) : Thread * World :=
  match t with
  | booking request p =>
      let '(p, w) := booking_step request p w in (booking request p, w)
  | cancelling request None =>
      let '(r, w) := cancel_appointment request w in (cancelling request (Some r), w)
  | cancelling request (Some r) => (t, w)
  end.


(** The points at which a booking of [data] relies on its lock: inside
    the transaction, and between the two cache calls of [finally]. *)
Definition relies_on_lock (p : Point) (data : CleanedData) : Prop :=
  match p with
  | at_query d | at_create d | at_commit d _ _ | at_release d _ => d = data
  | _ => False
  end.

(** Every request that relies on its lock still holds it [d] seconds
    from now.  This is an assumption on how fast requests are served:
    the view takes the lock for [LOCK_TTL] seconds and does not look at
    it again before [finally]. *)
Definition locks_outlive (d : Z) (w : World) (pool : list Thread) : Prop :=
  ∀ request p data,
    booking request p ∈ pool → relies_on_lock p data →
    Cache.get (now w + d) (lock_key_of data) (cache w)
    = Some (Cache.VStr (rq_lock_value request)).

(** A move of the system in which requests are served while their
    locks last: one request moves, or time passes, and the clock
    advances only as far as [locks_outlive] allows.  The code gives no
    such bound and staff are left out, so the states [step] reaches
    are some of the states of the program, not all; [free_step] below
    drops the bound and lets staff in. *)
Inductive step : World * list Thread → World * list Thread → Prop :=
| step_thread w (pre post : list Thread) t t' w' :
    thread_step t w = (t', w') →
    step (w, pre ++ t :: post) (w', pre ++ t' :: post)
| step_tick w pool d :
    0 ≤ d → locks_outlive d w pool →
    step (w, pool) (with_now (now w + d) w, pool).

Definition lock_values (pool : list Thread) : list string :=
  omap (λ t, match t with
             | booking request _ => Some (rq_lock_value request)
             | cancelling _ _ => None
             end) pool.

Definition idle (t : Thread) : Prop :=
  match t with
  | booking _ p => p = at_start
  | cancelling _ r => r = None
  end.

(** The invariant of the slot table: at most one pending-or-confirmed
    row per (doctor, date, time). *)
Definition slot_unique (d : gmap string Appointment) : Prop :=
  ∀ k u1 u2 a1 a2,
    d !! u1 = Some a1 → d !! u2 = Some a2 →
    occupies k a1 → occupies k a2 → u1 = u2.

(** Every job on the broker names a committed row. *)
Definition jobs_committed (w : World) : Prop :=
  ∀ j, j ∈ broker w → is_Some (db w !! job_ulid j).

(** The states the system starts from. *)
Definition initial (s : World * list Thread) : Prop :=
  slot_unique (db s.1) ∧ jobs_committed s.1 ∧
  Forall idle s.2 ∧ NoDup (lock_values s.2).

Definition reachable (s : World * list Thread) : Prop :=
  ∃ s0, initial s0 ∧ rtc step s0 s.

(** ** emails.py and tasks.py *)

(** What the jobs meet outside the application. *)
Record Env := mkEnv {
  delivers : Email → bool;
    (* [msg.send()] hands the mail over; [false]: it raises *)
  create_ical_event : Appointment → option string;
    (* the bytes of the invite; [None] when building it failed *)
  strptime_ok : string → bool;
    (* [datetime.strptime(text, "%H:%M:%S")] parses the text *)
  events_insert : CalendarEvent → option (string * option string);
    (* [events().insert(...).execute()]: the id and the htmlLink of the
       event created; [None]: the call raises *)
  ADMIN_EMAIL : string;
}.

(** [send_html_email]: the mail is sent or the exception is raised again. *)
Definition send_html_email (env : Env) (m : Email) (sent : list Email)
    : bool * list Email :=
  if delivers env m then (true, sent ++ [m]) else (false, sent).

(** Mails sent one after the other; the first failure stops the rest. *)
Fixpoint send_each (env : Env) (ms : list Email) (sent : list Email)
    : bool * list Email :=
  match ms with
  | [] => (true, sent)
  | m :: ms =>
      let '(ok, sent) := send_html_email env m sent in
      if ok then send_each env ms sent else (false, sent)
  end.

(** [if ical_attachment:] attaches bytes that are not empty. *)
Definition attachment (ical : option string) : option string :=
  match ical with
  | Some s => if String.eqb s "" then None else Some s
  | None => None
  end.

Definition has_doctor_email (a : Appointment) : option string :=
  match doctor a with
  | Some d => if String.eqb (d_email d) "" then None else Some (d_email d)
  | None => None
  end.

(** The mails of [send_appointment_emails], in the order they are sent. *)
Definition appointment_emails (env : Env) (appointment : Appointment) : list Email :=
  let ical_content := attachment (create_ical_event env appointment) in
  [ mkEmail ("Appointment Confirmed! ✅ - " +:+ service appointment)
      "emails/appointment_user.html" [email appointment] ical_content;
    mkEmail ("🔔 New Booking: " +:+ name appointment +:+ " - " +:+ service appointment)
      "emails/appointment_admin.html" [ADMIN_EMAIL env] None ]
  ++ match has_doctor_email appointment with
     | Some doctor_email =>
         [ mkEmail ("New Patient: " +:+ name appointment +:+ " - "
                    +:+ service appointment)
             "emails/appointment_doctor.html" [doctor_email] ical_content ]
     | None => []
     end.

Definition send_appointment_emails (env : Env) (appointment : Appointment)
    (sent : list Email) : bool * list Email :=
  send_each env (appointment_emails env appointment) sent.

(** [status_messages.get(new_status)]: subject and template. *)
Definition status_messages (appointment : Appointment) (new_status : Status)
    : option (string * string) :=
  match new_status with
  | confirmed => Some ("✅ Appointment Confirmed - " +:+ service appointment,
                       "emails/appointment_confirmed.html")
  | completed => Some ("✅ Appointment Completed - " +:+ service appointment,
                       "emails/appointment_completed.html")
  | cancelled => Some ("❌ Appointment Cancelled - " +:+ service appointment,
                       "emails/appointment_cancelled.html")
  | rescheduled => Some ("🔄 Appointment Rescheduled - " +:+ service appointment,
                         "emails/appointment_rescheduled.html")
  | pending => None
  end.

(** [new_status.title()]. *)
Definition status_title (s : Status) : string :=
  match s with
  | pending => "Pending"
  | confirmed => "Confirmed"
  | completed => "Completed"
  | cancelled => "Cancelled"
  | rescheduled => "Rescheduled"
  end.

(** The mails of [send_appointment_status_update_email]. *)
Definition status_update_emails (appointment : Appointment)
    (old_status new_status : Status) : list Email :=
  if bool_decide (old_status = new_status) then []
  else
    match status_messages appointment new_status with
    | None => []
    | Some (subject_, template) =>
        mkEmail subject_ template [email appointment] None ::
        match has_doctor_email appointment with
        | Some doctor_email =>
            if bool_decide (new_status ∈ [confirmed; cancelled])
            then [ mkEmail ("Patient Update: " +:+ name appointment +:+ " - "
                            +:+ status_title new_status)
                     template [doctor_email] None ]
            else []
        | None => []
        end
    end.

Definition send_appointment_status_update_email (env : Env)
    (appointment : Appointment) (old_status new_status : Status)
    (sent : list Email) : bool * list Email :=
  send_each env (status_update_emails appointment old_status new_status) sent.

(** How a run of a job ends. *)
Inductive TaskResult :=
| task_returns (v : json)
| task_retry (countdown : option Z)   (* [self.retry] re-queued the job *)
| task_raises.                        (* retries exhausted: the error is raised *)

(** [raise self.retry(exc=e, countdown=...)] in a run that is the
    [retries]-th retry of the job. *)
Definition self_retry (max_retries retries : nat) (countdown : option Z)
    : TaskResult :=
  if bool_decide (retries < max_retries)%nat then task_retry countdown
  else task_raises.

Definition email_sent_key (appointment_ulid : string) : string :=
  "appointment_email_sent:" +:+ appointment_ulid.

Definition send_appointment_email_task (env : Env) (appointment_ulid : string)
    (retries : nat) (w : World) : TaskResult * World :=
  let cache_key := email_sent_key appointment_ulid in
  if Cache.truthy (Cache.get (now w) cache_key (cache w))
  then (task_returns (JStr "skipped"), w)
  else
    match db w !! appointment_ulid with
    | None => (task_returns (JStr "not_found"), w)
    | Some appointment =>
        let '(ok, sent) := send_appointment_emails env appointment (outbox w) in
        let w := with_outbox sent w in
        if ok then
          let w := with_cache
                     (Cache.set (now w) cache_key (Cache.VBool true) (60 * 60 * 24)
                        (cache w)) w in
          (task_returns (JStr "sent"), w)
        else (self_retry 3 retries (Some 10), w)
    end.

Definition send_appointment_status_update_email_task (env : Env)
    (appointment_ulid : string) (old_status new_status : Status)
    (retries : nat) (w : World) : TaskResult * World :=
  match db w !! appointment_ulid with
  | None => (task_returns (JStr "not_found"), w)
  | Some appointment =>
      let '(ok, sent) :=
        send_appointment_status_update_email env appointment old_status new_status
          (outbox w) in
      let w := with_outbox sent w in
      if ok then (task_returns (JStr "sent"), w)
      else (self_retry 3 retries (Some 10), w)
  end.

(** Python truth of [appt.calendar_event_id]. *)
Definition has_event_id (a : Appointment) : bool :=
  match calendar_event_id a with
  | Some s => negb (String.eqb s "")
  | None => false
  end.

Fixpoint count_colons (s : string) : nat :=
  match s with
  | EmptyString => 0%nat
  | String c s => ((if Ascii.eqb c ":"%char then 1 else 0) + count_colons s)%nat
  end.

(** [appt_time += ":00"] when [appt_time.split(":")] has two parts. *)
Definition with_seconds (appt_time : string) : string :=
  if bool_decide (count_colons appt_time = 1%nat) then appt_time +:+ ":00"
  else appt_time.

Definition clinic_location : string :=
  "Sai Dental Clinic, 203, 2nd Floor, Chandrangan Residency Tower, "
  +:+ "Above GP Parshik Bank, Diva East, Navi Mumbai".

Definition or_NA (s : string) : string := if String.eqb s "" then "N/A" else s.

Definition calendar_event_of (appt : Appointment) (doctor_email : string)
    : CalendarEvent :=
  {| summary := "Dental Appointment – " +:+ service appt +:+ " | " +:+ name appt;
     description :=
       "Patient: " +:+ name appt +:+ "
Patient Email: " +:+ email appt +:+ "
Doctor Email: " +:+ doctor_email +:+ "

Message:
" +:+ or_NA (message appt) +:+ "

Note: Email invitations sent separately via email system.";
     start_date := date appt;
     start_time := with_seconds (time appt);
     minutes := 30;
     location := clinic_location |}.

Definition skipped (reason : string) : json :=
  JObj [("status", JStr "skipped"); ("reason", JStr reason)].

Definition link_json (l : option string) : json :=
  match l with
  | Some s => JStr s
  | None => JObj []      (* null *)
  end.

Definition create_calendar_event_task (env : Env) (appointment_ulid : string)
    (retries : nat) (w : World) : TaskResult * World :=
  match db w !! appointment_ulid with
  | None => (task_returns (JObj [("status", JStr "not_found")]), w)
  | Some appt =>
      if has_event_id appt
      then (task_returns (skipped "already_exists"), w)
      else if negb (bool_decide (status appt ∈ [confirmed; pending]))
      then (task_returns (skipped (status_str (status appt))), w)
      else
        match has_doctor_email appt with
        | None => (task_returns (JObj [("status", JStr "invalid_doctor")]), w)
        | Some doctor_email =>
            if negb (strptime_ok env (with_seconds (time appt)))
            then (self_retry 3 retries None, w)
            else
              let event := calendar_event_of appt doctor_email in
              let w := with_calendar (calendar w ++ [event]) w in
              match events_insert env event with
              | None => (self_retry 3 retries None, w)
              | Some (event_id, html_link) =>
                  let w := with_db
                             (alter (with_calendar_event_id event_id)
                                appointment_ulid (db w)) w in
                  (task_returns
                     (JObj [("status", JStr "success");
                            ("event_id", JStr event_id);
                            ("event_link", link_json html_link)]), w)
              end
        end
  end.

(** ** admin.py: the bulk actions on appointments *)

(** [mark_as_confirmed], [mark_as_completed] and [mark_as_cancelled]
    differ in the status they set.  The rows of the queryset are read
    when the loop starts; each row whose status differs is saved in
    full and the notification is queued. *)
Definition mark_as (target : Status) (queryset : list string) (w : World) : World :=
  let rows := omap (λ u, (u,.) <$> db w !! u) queryset in
  foldl (λ w row,
           let '(u, appointment) := row in
           let old_status := status appointment in
           if bool_decide (old_status ≠ target) then
             let w := save u (with_status target appointment) w in
             with_broker
               (broker w ++
                [send_appointment_status_update_email_job u old_status target]) w
           else w)
        w rows.

Definition mark_as_confirmed := mark_as confirmed.
Definition mark_as_completed := mark_as completed.
Definition mark_as_cancelled := mark_as cancelled.

(** ** views.py: the rate-limiting decorator *)

(** What the decorator and the middleware read of a request. *)
Record HttpRequest := mkHttpRequest {
  path : string;
  REMOTE_ADDR : option string;            (* request.META *)
  HTTP_X_FORWARDED_FOR : option string;   (* request.META *)
  x_requested_with : option string;       (* request.headers *)
  session_user : option N;   (* [request.user.id] of an authenticated user *)
  is_staff : bool;           (* [request.user.is_staff] *)
}.

(** What a view hands back: a response of the booking core, or a
    redirect to a named URL. *)
Inductive HttpResponse :=
| Page (r : Response)
| redirect (to : string).

(** A response together with the texts the view passed to
    [messages.error] on the way. *)
Record Reply := mkReply {
  flashed : list string;
  response : HttpResponse;
}.

(** [data.get(key)] on the dict a [JsonResponse] was built from; of two
    entries under one key a dict keeps the later. *)
Definition dict_get (key : string) (data : list (string * json)) : option json :=
  (λ found, found.2.2) <$> list_find (λ kv, kv.1 = key) (reverse data).

(** [is_failure], as the wrapper computes it: a JSON body whose
    ['status'] is ['error'], or another response whose status code is
    400 or more.  A rendered page has code 200 and a redirect 302. *)
Definition is_failure (r : HttpResponse) : bool :=
  match r with
  | Page (JsonResponse data _) =>
      match dict_get "status" data with
      | Some (JStr s) => String.eqb s "error"
      | _ => false
      end
  | Page (render _) => bool_decide (400 ≤ 200)
  | Page (Raised _) => false
  | redirect _ => bool_decide (400 ≤ 302)
  end.

(** The number [cache.get(key, 0)] yields for the comparison and the
    sum that follow: [True] and [False] count as 1 and 0, a text or a
    set raises TypeError. *)
Definition counter (o : option Cache.value) : option Z :=
  match o with
  | None => Some 0
  | Some (Cache.VInt n) => Some n
  | Some (Cache.VBool b) => Some (if b then 1 else 0)
  | Some _ => None
  end.

Definition ratelimit_key (key_prefix : string) (request : HttpRequest) : string :=
  let identifier :=
    match session_user request with
    | Some id => "user_" +:+ pretty id
    | None => default "unknown" (REMOTE_ADDR request)
    end in
  "ratelimit:" +:+ key_prefix +:+ ":" +:+ identifier.

Definition too_many_attempts (window : Z) : string :=
  "Too many attempts. Please try again in " +:+ pretty (window `div` 60)
  +:+ " minutes.".

(** [rate_limit(key_prefix, limit, window)(view_func)].  An exception of
    the view passes through the wrapper before the counter is touched. *)
Definition rate_limit (key_prefix : string) (limit window : Z)
    (view_func : HttpRequest → World → Reply * World)
    (request : HttpRequest) (w : World) : Reply * World :=
  let cache_key := ratelimit_key key_prefix request in
  match counter (Cache.get (now w) cache_key (cache w)) with
  | None => (mkReply [] (Page (Raised "TypeError")), w)
  | Some attempts =>
      if bool_decide (limit ≤ attempts) then
        let msg := too_many_attempts window in
        if bool_decide (x_requested_with request = Some "XMLHttpRequest")
        then (mkReply []
                (Page (JsonResponse [("status", JStr "error"); ("message", JStr msg)]
                         429)), w)
        else (mkReply [msg] (redirect "custom_login"), w)
      else
        let '(reply, w) := view_func request w in
        if is_failure (response reply)
        then (reply,
              with_cache
                (Cache.set (now w) cache_key (Cache.VInt (attempts + 1)) window
                   (cache w)) w)
        else (reply, w)
  end.

(** *** generate_username_suggestion *)

(** [slugify] is Django's; [taken suggestion] is
    [User.objects.filter(username__iexact=suggestion).exists()];
    [randint] is the number [random.randint(100, 9999)] draws. *)
Definition generate_username_suggestion (slugify : string → string)
    (taken : string → bool) (randint : Z) (base_username : string) : string :=
  let base := if String.eqb (slugify base_username) "" then "user"
              else slugify base_username in
  match list_find (λ suggestion, taken suggestion = false)
          ((λ i, base +:+ pretty i) <$> seqZ 1 99) with
  | Some (_, suggestion) => suggestion
  | None => base +:+ pretty randint
  end.

(** ** middleware.py *)

(** [text.split(',')[0]]: the text before the first comma. *)
Fixpoint before_comma (text : string) : string :=
  match text with
  | EmptyString => EmptyString
  | String c rest =>
      if Ascii.eqb c ","%char then EmptyString else String c (before_comma rest)
  end.

(** [get_client_ip], the static method of the middleware and the
    function of the module: the same code. *)
Definition get_client_ip (request : HttpRequest) : option string :=
  match HTTP_X_FORWARDED_FOR request with
  | Some x_forwarded_for =>
      if String.eqb x_forwarded_for "" then REMOTE_ADDR request
      else Some (before_comma x_forwarded_for)
  | None => REMOTE_ADDR request
  end.

(** How an f-string prints an address that may be [None]. *)
Definition str_opt (o : option string) : string := default "None" o.

Definition rate_limit_key (request : HttpRequest) (suffix : string) : string :=
  "rate_limit:" +:+ str_opt (get_client_ip request) +:+ ":" +:+ suffix.

Definition response_rate_limit_exceeded : Response :=
  JsonResponse
    [("status", JStr "error");
     ("message", JStr "Rate limit exceeded. Please try again later.")]
    429.

(** [RateLimitMiddleware.process_request]: [None] lets the request on to
    the view, a response answers it at once. *)
Definition process_request (request : HttpRequest) (w : World)
    : option Response * World :=
  if negb (String.prefix "/api/" (path request)) then (None, w)
  else if bool_decide (is_Some (session_user request)) && is_staff request
  then (None, w)
  else
    let cache_key := rate_limit_key request (path request) in
    match counter (Cache.get (now w) cache_key (cache w)) with
    | None => (Some (Raised "TypeError"), w)
    | Some requests =>
        if bool_decide (100 ≤ requests)
        then (Some response_rate_limit_exceeded, w)
        else (None,
              with_cache
                (Cache.set (now w) cache_key (Cache.VInt (requests + 1)) 60
                   (cache w)) w)
    end.

(** [check_rate_limit]: (is_limited, attempts_remaining); [None] when
    the comparison raises TypeError.  The function has a fourth
    argument, [timeout], which it does not read. *)
Definition check_rate_limit (request : HttpRequest) (key_suffix : string)
    (max_attempts : Z) (w : World) : option (bool * Z) :=
  match counter (Cache.get (now w) (rate_limit_key request key_suffix) (cache w)) with
  | None => None
  | Some attempts =>
      if bool_decide (max_attempts ≤ attempts) then Some (true, 0)
      else Some (false, max_attempts - attempts)
  end.

(** [increment_rate_limit]; [None] when the sum raises TypeError. *)
Definition increment_rate_limit (request : HttpRequest) (key_suffix : string)
    (timeout : Z) (w : World) : option World :=
  let rate_limit_key := rate_limit_key request key_suffix in
  match counter (Cache.get (now w) rate_limit_key (cache w)) with
  | None => None
  | Some attempts =>
      Some (with_cache
              (Cache.set (now w) rate_limit_key (Cache.VInt (attempts + 1)) timeout
                 (cache w)) w)
  end.

Definition clear_rate_limit (request : HttpRequest) (key_suffix : string)
    (w : World) : World :=
  with_cache (Cache.delete (rate_limit_key request key_suffix) (cache w)) w.

(** ** emails.py and tasks.py: the welcome mail and the cancellation mail *)

Definition welcome_sent_key (user_id : N) : string :=
  "welcome_email_sent:" +:+ pretty user_id.

Definition welcome_email (address : string) : Email :=
  mkEmail "Welcome to OroShine Dental Care! 🦷" "emails/welcome_email.html"
    [address] None.

(** [username] and [is_social] go into the rendered body only. *)
Definition send_welcome_email_task (env : Env) (user_id : N)
    (username address : string) (is_social : bool)
    (retries : nat) (w : World) : TaskResult * World :=
  let cache_key := welcome_sent_key user_id in
  if Cache.truthy (Cache.get (now w) cache_key (cache w))
  then (task_returns (JStr "skipped"), w)
  else
    let '(ok, sent) := send_html_email env (welcome_email address) (outbox w) in
    let w := with_outbox sent w in
    if ok then
      let w := with_cache
                 (Cache.set (now w) cache_key (Cache.VBool true) (60 * 60 * 24)
                    (cache w)) w in
      (task_returns (JStr "sent"), w)
    else (self_retry 3 retries (Some 10), w).

(** The mails of [send_appointment_cancellation_email].
    [get_service_display] is a method of the model, declared in
    models.py; [label] is the text it returns. *)
Definition cancellation_emails (label : string) (appointment : Appointment)
    : list Email :=
  mkEmail ("❌ Appointment Cancelled - " +:+ label)
    "emails/appointment_cancelled_user.html" [email appointment] None ::
  match has_doctor_email appointment with
  | Some doctor_email =>
      [ mkEmail ("Patient Cancelled: " +:+ name appointment)
          "emails/appointment_cancelled_user.html" [doctor_email] None ]
  | None => []
  end.

(** [get_service_display appointment = None]: the call raises, before
    any mail is made. *)
Definition send_appointment_cancellation_email (env : Env)
    (get_service_display : Appointment → option string)
    (appointment : Appointment) (sent : list Email) : bool * list Email :=
  match get_service_display appointment with
  | Some label => send_each env (cancellation_emails label appointment) sent
  | None => (false, sent)
  end.

Definition cancel_email_sent_key (appointment_ulid : string) : string :=
  "appointment_cancel_email_sent:" +:+ appointment_ulid.

Definition send_appointment_cancel_email_task (env : Env)
    (get_service_display : Appointment → option string)
    (appointment_ulid : string) (retries : nat) (w : World)
    : TaskResult * World :=
  let cache_key := cancel_email_sent_key appointment_ulid in
  if Cache.truthy (Cache.get (now w) cache_key (cache w))
  then (task_returns (JStr "skipped"), w)
  else
    match db w !! appointment_ulid with
    | None => (task_returns (JStr "not_found"), w)
    | Some appt =>
        let '(ok, sent) :=
          send_appointment_cancellation_email env get_service_display appt
            (outbox w) in
        let w := with_outbox sent w in
        if ok then
          let w := with_cache
                     (Cache.set (now w) cache_key (Cache.VBool true) 86400
                        (cache w)) w in
          (task_returns (JStr "sent"), w)
        else (self_retry 3 retries None, w)
    end.

(** ** admin.py: saving one appointment, resending, display columns *)

Inductive Level := SUCCESS | WARNING | INFO.

(** [AppointmentAdmin.save_model].  [obj] is the row as the form left
    it, [u] its key; [change] tells an edit from an addition.
    [enqueue_error job] is the text of the exception [delay] raises for
    the job, [None] when the broker takes it.  The answer is the list
    of [message_user] notes, or [None] when
    [Appointment.objects.get(pk=obj.pk)] raises DoesNotExist. *)
Definition save_model (enqueue_error : Job → option string) (change : bool)
    (u : string) (obj : Appointment) (w : World)
    : option (list (Level * string)) * World :=
  if change then
    match db w !! u with
    | None => (None, w)
    | Some original =>
        let old_status := status original in
        let send_email := bool_decide (old_status ≠ status obj) in
        let w := save u obj w in
        if send_email then
          let job :=
            send_appointment_status_update_email_job u old_status (status obj) in
          match enqueue_error job with
          | None =>
              (Some [(SUCCESS,
                      "Status updated and notification email queued for "
                      +:+ email obj)],
               with_broker (broker w ++ [job]) w)
          | Some e =>
              (Some [(WARNING,
                      "Status updated but failed to queue email notification: "
                      +:+ e)], w)
          end
        else (Some [], w)
    end
  else (Some [], save u obj w).

(** [AppointmentAdmin.resend_confirmation_email]: one job for each row
    of the queryset that the broker takes, and the note that counts
    them. *)
Definition resend_confirmation_email (enqueue_error : Job → option string)
    (queryset : list string) (w : World) : string * World :=
  let rows := omap (λ u, (u,.) <$> db w !! u) queryset in
  let '(queued_count, w) :=
    foldl (λ '(queued_count, w) row,
             let job := send_appointment_email row.1 in
             match enqueue_error job with
             | None => (queued_count + 1, with_broker (broker w ++ [job]) w)
             | Some _ => (queued_count, w)
             end)
          (0, w) rows in
  (pretty queued_count +:+ " confirmation email(s) queued for sending.", w).

(** [ServiceAdmin.duration_display]. *)
Definition duration_display (duration_minutes : Z) : string :=
  let hours := duration_minutes `div` 60 in
  let minutes := duration_minutes `mod` 60 in
  if bool_decide (0 < hours) then
    if bool_decide (0 < minutes)
    then pretty hours +:+ "h " +:+ pretty minutes +:+ "m"
    else pretty hours +:+ "h"
  else pretty minutes +:+ "m".

(** ** Runs of one booking request *)

(** How many moves a point is away from having returned, at most. *)
Definition rank (p : Point) : nat :=
  match p with
  | at_start => 6
  | at_query _ => 5
  | at_create _ => 4
  | at_commit _ _ _ => 3
  | at_finally _ _ => 2
  | at_release _ _ => 1
  | returned _ => 0
  end.


(** ** Cancellation *)

(** The statuses the cancellation view lets through its guard. *)
Definition cancellable (s : Status) : Prop := s = pending ∨ s = rescheduled.

(** ** Sample data *)

Definition rescheduled_row : Appointment :=
  {| user := 7; doctor := Some (mkDoctor 1 "d1@clinic.test");
     date := "2025-06-01"; time := "10:00"; service := "cleaning";
     name := "Ann"; email := "ann@example.test"; phone := ""; message := "";
     status := rescheduled; calendar_event_id := None |}.


(** ** The calendar job *)

(** One of the guards of the calendar job holds for the row. *)
Definition guarded (appt : Appointment) : Prop :=
  has_event_id appt = true
  ∨ status appt ∉ [confirmed; pending]
  ∨ has_doctor_email appt = None.

Definition pending_row : Appointment :=
  {| user := 7; doctor := Some (mkDoctor 1 "d1@clinic.test");
     date := "2025-06-01"; time := "10:00"; service := "cleaning";
     name := "Ann"; email := "ann@example.test"; phone := ""; message := "";
     status := pending; calendar_event_id := None |}.

Definition sample_slots : list (string * string) :=
  [("09:00", "09:00 AM"); ("10:00", "10:00 AM")].

(** One pending appointment for doctor 1 on 2025-06-01 at 10:00, the
    home page statistics in the cache, and the availability of that
    doctor and day queried once, so that its slot set is cached. *)
Definition booked_and_queried : World :=
  let w := mkWorld {[ "A1" := pending_row ]}
             {[ "homepage_stats" := Cache.mkEntry (Cache.VInt 1) 1800 ]}
             [] [] [] 0 in
  (check_slots_ajax sample_slots (mkSlotsRequest (Some 1%N) "2025-06-01") w).2.

Definition sample_doctor : Doctor := mkDoctor 1 "d1@clinic.test".

Definition sample_slot : Slot := (1%N, "2025-06-01", "10:00").

Definition data_a : CleanedData :=
  mkCleanedData sample_doctor "2025-06-01" "10:00" "cleaning"
    "Ann" "ann@example.test" "+911234567890" "".

Definition data_b : CleanedData :=
  mkCleanedData sample_doctor "2025-06-01" "10:00" "whitening"
    "Bob" "bob@example.test" "+919876543210" "first visit".

Definition request_a : BookingRequest :=
  mkBookingRequest 7 true (form_valid data_a) "01LOCKA" "01APPTA" None.

Definition request_b : BookingRequest :=
  mkBookingRequest 8 true (form_valid data_b) "01LOCKB" "01APPTB" None.

Definition empty_world : World := mkWorld ∅ ∅ [] [] [] 0.

(** Two users ask for the same slot at the same moment. *)
Definition race_start : World * list Thread :=
  (empty_world, [booking request_a at_start; booking request_b at_start]).

Definition one_row_world : World :=
  mkWorld {[ "A1" := pending_row ]} ∅ [] [] [] 0.

Definition sample_env : Env :=
  mkEnv (λ _, true) (λ _, Some "BEGIN:VCALENDAR") (λ _, true)
    (λ _, Some ("evt1", None)) "admin@clinic.test".

(** ** The invariant of the system *)

(** No row occupies the slot. *)
Definition free (k : Slot) (d : gmap string Appointment) : Prop :=
  ∀ u a, d !! u = Some a → ¬ occupies k a.

(** The lock of the slot of [data] is live and holds the token of the
    request. *)
Definition holds_lock (request : BookingRequest) (data : CleanedData)
    (w : World) : Prop :=
  Cache.get (now w) (lock_key_of data) (cache w)
  = Some (Cache.VStr (rq_lock_value request)).

(** A request that answers success has its row committed and both its
    jobs on the broker. *)
Definition booked_ok (request : BookingRequest) (r : Response) (w : World) : Prop :=
  ∀ u, r = response_booked u →
    u = rq_ulid request ∧ is_Some (db w !! u) ∧
    send_appointment_email u ∈ broker w ∧ create_calendar_event u ∈ broker w.

Definition thread_inv (w : World) (t : Thread) : Prop :=
  match t with
  | cancelling _ _ => True
  | booking request p =>
      match p with
      | at_start => True
      | at_query data => holds_lock request data w
      | at_create data => holds_lock request data w ∧ free (slot_of data) (db w)
      | at_commit data appt on_commit =>
          holds_lock request data w ∧ free (slot_of data) (db w)
          ∧ appt = new_appointment request data
          ∧ on_commit = [send_appointment_email (rq_ulid request);
                         create_calendar_event (rq_ulid request)]
      | at_finally _ r | returned r => booked_ok request r w
      | at_release data r => holds_lock request data w ∧ booked_ok request r w
      end
  end.

Definition system_inv (s : World * list Thread) : Prop :=
  slot_unique (db s.1) ∧ jobs_committed s.1
  ∧ Forall (thread_inv s.1) s.2 ∧ NoDup (lock_values s.2).

(** What a move of one request leaves to the others: the locks held
    under tokens that satisfy [P], the free slots of those who hold their
    lock, the committed rows, the jobs on the broker. *)
Definition frame (P : string → Prop) (w w' : World) : Prop :=
  (∀ request data, P (rq_lock_value request) →
     holds_lock request data w → holds_lock request data w')
  ∧ (∀ request data, P (rq_lock_value request) →
       holds_lock request data w →
       free (slot_of data) (db w) → free (slot_of data) (db w'))
  ∧ (∀ u, is_Some (db w !! u) → is_Some (db w' !! u))
  ∧ (∀ j, j ∈ broker w → j ∈ broker w').

(** ** Interleavings that can be run *)

(** The thread at position [i] makes its move. *)
Definition run_thread (i : nat) (s : World * list Thread) : World * list Thread :=
  match s.2 !! i with
  | Some t => let '(t', w') := thread_step t s.1 in (w', <[i := t']> s.2)
  | None => s
  end.

(** The threads move in the order the schedule lists them. *)
Definition schedule (l : list nat) (s : World * list Thread) : World * list Thread :=
  foldl (λ s i, run_thread i s) s l.

(** ** Requests racing for one slot *)

Definition lock_key (k : Slot) : string :=
  "lock:slot:" +:+ pretty k.1.1 +:+ ":" +:+ k.1.2 +:+ ":" +:+ k.2.

(** A well-formed booking request for slot [k] that meets no fault. *)
Definition contends (k : Slot) (request : BookingRequest) (data : CleanedData)
    : Prop :=
  rq_ajax_post request = true ∧ rq_fault request = None
  ∧ rq_form request = form_valid data ∧ slot_of data = k.

Definition ulids (pool : list Thread) : list string :=
  omap (λ t, match t with
             | booking request _ => Some (rq_ulid request)
             | cancelling _ _ => None
             end) pool.

(** The start of a race: some requests, all for the free slot [k], none
    served yet, each with a ulid of its own that no row bears, and the
    lock of the slot not held. *)
Definition race (k : Slot) (s : World * list Thread) : Prop :=
  s.2 ≠ []
  ∧ Forall (λ t, ∃ request data,
                t = booking request at_start ∧ contends k request data) s.2
  ∧ NoDup (ulids s.2)
  ∧ (∀ u, u ∈ ulids s.2 → db s.1 !! u = None)
  ∧ free k (db s.1)
  ∧ Cache.get (now s.1) (lock_key k) (cache s.1) = None.









(** ** What a booking leaves behind *)

(** A request that answers success has committed the row built from its
    form, and the cached slot set of the doctor and the day is gone. *)
Definition booked_row (request : BookingRequest) (data : CleanedData)
    (r : Response) (w : World) : Prop :=
  ∀ u, r = response_booked u →
    u = rq_ulid request
    ∧ db w !! u = Some (new_appointment request data)
    ∧ cache w !! slots_key_of data = None.

Definition booked_trace (request : BookingRequest) (data : CleanedData)
    (p : Point) (w : World) : Prop :=
  match p with
  | at_start => True
  | at_query d | at_create d => d = data
  | at_commit d appt _ =>
      d = data ∧ appt = new_appointment request data
      ∧ cache w !! slots_key_of data = None
  | at_finally d r | at_release d r => d = data ∧ booked_row request data r w
  | returned r => booked_row request data r w
  end.

(** The query of the availability view for the doctor and the day of a
    booking. *)
Definition slots_query (data : CleanedData) : SlotsRequest :=
  mkSlotsRequest (Some (d_id (cd_doctor data))) (cd_date data).

Definition slots_answer (slots : list json) : Response :=
  JsonResponse [("status", JStr "success"); ("slots", JArr slots)] 200.

(** What a booking request may change of the world [w] it started in:
    no mail, no calendar call, no tick of the clock, no row but its own,
    which it may add and never replaces, and jobs for that row only. *)
Definition own_effects (request : BookingRequest) (w w' : World) : Prop :=
  outbox w' = outbox w ∧ calendar w' = calendar w ∧ now w' = now w
  ∧ (∀ u, u ≠ rq_ulid request → db w' !! u = db w !! u)
  ∧ (∀ a, db w !! rq_ulid request = Some a → db w' !! rq_ulid request = Some a)
  ∧ ∃ js, broker w' = broker w ++ js
          ∧ ∀ j, j ∈ js → job_ulid j = rq_ulid request.

Definition own_trace (request : BookingRequest) (w : World) (p : Point)
    (w' : World) : Prop :=
  own_effects request w w'
  ∧ match p with
    | at_commit _ _ on_commit =>
        on_commit = [send_appointment_email (rq_ulid request);
                     create_calendar_event (rq_ulid request)]
    | _ => True
    end.

(** ** More sample data *)

(** The outside of [sample_env] at a moment when the mail server turns
    away the mail to the administrator. *)
Definition admin_mail_refused : Env :=
  mkEnv (λ m, negb (bool_decide (recipient_list m = ["admin@clinic.test"])))
    (λ _, Some "BEGIN:VCALENDAR") (λ _, true)
    (λ _, Some ("evt1", None)) "admin@clinic.test".

(** ** The staff actions *)

(** A notification of a status that did change. *)
Definition status_changed (j : Job) : Prop :=
  match j with
  | send_appointment_status_update_email_job _ old_status new_status =>
      old_status ≠ new_status
  | _ => False
  end.

(** The rows of a queryset, as the loop of a bulk action meets them. *)
Definition rows_of (queryset : list string) (d : gmap string Appointment)
    : list (string * Appointment) :=
  omap (λ u, (u,.) <$> d !! u) queryset.

(** ** Counting attempts *)

(** The counter under [key] stands at [k], written at the present
    instant to last [window] seconds; at 0 there is no entry. *)
Definition counted (key : string) (window k : Z) (w : World) : Prop :=
  (k = 0 ∧ cache w !! key = None)
  ∨ (0 < k ∧ cache w !! key
             = Some (Cache.mkEntry (Cache.VInt k) (now w + window))).

(** The world [gap] seconds later. *)
Definition after (gap : Z) (w : World) : World := with_now (now w + gap) w.

(** A handler called once after each of the gaps, on the world the
    previous call left. *)
Definition calls {A} (handler : World → A * World) (gaps : list Z) (w : World)
    : World :=
  foldl (λ w gap, (handler (after gap w)).2) w gaps.

(** A view that leaves the counter of the decorator alone. *)
Definition keeps_counter (key : string)
    (view_func : HttpRequest → World → Reply * World) : Prop :=
  ∀ request w, cache (view_func request w).2 !! key = cache w !! key.

(** What the decorator answers in place of the view. *)
Definition too_many (request : HttpRequest) (window : Z) : Reply :=
  if bool_decide (x_requested_with request = Some "XMLHttpRequest")
  then mkReply []
         (Page (JsonResponse
                  [("status", JStr "error");
                   ("message", JStr (too_many_attempts window))] 429))
  else mkReply [too_many_attempts window] (redirect "custom_login").

(** The availability view called without its parameters, as a view
    under the decorator. *)
Definition slots_without_parameters (request : HttpRequest) (w : World)
    : Reply * World :=
  let '(r, w) := check_slots_ajax [] (mkSlotsRequest None "") w in
  (mkReply [] (Page r), w).

(** A view that answers a failed attempt the way [login_request] does:
    a note for the user and the page rendered again. *)
Definition renders_again (request : HttpRequest) (w : World) : Reply * World :=
  (mkReply ["Invalid username or password."] (Page (render "login.html")), w).

Definition anonymous (remote_addr : string) : HttpRequest :=
  mkHttpRequest "/custom-login/" (Some remote_addr) None None None false.

Definition api_request (remote_addr : string) (forwarded : option string)
    : HttpRequest :=
  mkHttpRequest "/api/slots/" (Some remote_addr) forwarded None None false.

(** The request with the header X-Forwarded-For set by the client. *)
Definition with_forwarded (header : string) (request : HttpRequest) : HttpRequest :=
  mkHttpRequest (path request) (REMOTE_ADDR request) (Some header)
    (x_requested_with request) (session_user request) (is_staff request).

(** A request that the middleware counts: to the API, not by staff. *)
Definition limited (request : HttpRequest) : Prop :=
  String.prefix "/api/" (path request) = true
  ∧ (session_user request = None ∨ is_staff request = false).

(** [increment_rate_limit] called once after each of the gaps. *)
Definition increments (request : HttpRequest) (key_suffix : string)
    (timeout : Z) (gaps : list Z) (w : World) : option World :=
  foldl (λ ow gap,
           ow ≫= λ w, increment_rate_limit request key_suffix timeout (after gap w))
        (Some w) gaps.

(** ** Texts of numbers *)

Definition digit (c : ascii) : bool :=
  bool_decide (c ∈ ["0"; "1"; "2"; "3"; "4"; "5"; "6"; "7"; "8"; "9"]%char).

Fixpoint digits (s : string) : bool :=
  match s with
  | EmptyString => true
  | String c s => digit c && digits s
  end.

(** ** The availability view *)

(** The slots as the table [d] has them: a time is available when the
    conflict query of the booking view finds no row for it. *)
Definition slots_of_table (TIME_SLOTS : list (string * string)) (did : N)
    (date_ : string) (d : gmap string Appointment) : list json :=
  (λ td, slot_entry td.1 td.2 (negb (conflict_exists (did, date_, td.1) d)))
  <$> TIME_SLOTS.

(** ** The system with nothing to bound a request *)

(** [step] lets the clock advance only as far as [locks_outlive]
    allows.  Nothing in views.py or settings.py gives that bound: the
    lock lasts [LOCK_TTL] seconds from the moment it is taken, however
    long the request that took it goes on, and staff change rows in the
    admin console at any time.  [free_step] is the system without the
    bound: a request moves, any time passes, or staff run a bulk
    action. *)
Inductive free_step : World * list Thread → World * list Thread → Prop :=
| free_thread w (pre post : list Thread) t t' w' :
    thread_step t w = (t', w') →
    free_step (w, pre ++ t :: post) (w', pre ++ t' :: post)
| free_tick w pool d :
    0 ≤ d → free_step (w, pool) (after d w, pool)
| free_staff w pool target queryset :
    free_step (w, pool) (mark_as target queryset w, pool).

(** What happens next: the request at a position of the pool moves,
    some seconds pass, or staff run a bulk action. *)
Inductive Move :=
| move (i : nat)
| wait (d : Z)
| staff (target : Status) (queryset : list string).

Definition play_move (m : Move) (s : World * list Thread) : World * list Thread :=
  match m with
  | move i => run_thread i s
  | wait d => (after d s.1, s.2)
  | staff target queryset => (mark_as target queryset s.1, s.2)
  end.

Definition play (l : list Move) (s : World * list Thread) : World * list Thread :=
  foldl (λ s m, play_move m s) s l.

(** No wait of the list goes back in time. *)
Definition forward (m : Move) : Prop :=
  match m with
  | wait d => 0 ≤ d
  | _ => True
  end.



(** ** A request that outlasts its lock *)

(** The first request takes the lock, finds the slot free and inserts
    its row; 30 seconds go by before its commit.  The second request
    then takes the lock, finds the slot free and inserts its row.  Both
    commit and leave. *)
Definition slow_commit : list Move :=
  [move 0; move 0; move 0; wait 30; move 1; move 1; move 1;
   move 0; move 1; move 0; move 1; move 1]%nat.

(** A third request for the slot of [request_a] and [request_b]. *)
Definition data_c : CleanedData :=
  mkCleanedData sample_doctor "2025-06-01" "10:00" "checkup"
    "Cy" "cy@example.test" "+911122334455" "".

Definition request_c : BookingRequest :=
  mkBookingRequest 9 true (form_valid data_c) "01LOCKC" "01APPTC" None.

Definition three_requests : World * list Thread :=
  (empty_world,
   [booking request_a at_start; booking request_b at_start;
    booking request_c at_start]).

(** The first request books the slot and, 29 seconds after it took the
    lock, reads its own token in [finally]. *)
Definition slow_release_read : list Move :=
  [move 0; move 0; move 0; move 0; wait 29; move 0]%nat.

(** One second later the second request takes the lock. *)
Definition slow_release_taken : list Move := [wait 1; move 1%nat].

(** The first request goes on to its delete. *)
Definition slow_release_deleted : list Move := [move 0%nat].

(** The third request asks for the lock. *)
Definition slow_release_retaken : list Move := [move 2%nat].

(** ** Staff and the slot table *)



(** * Properties *)

(** ** The cache *)

Section cache_facts.
Implicit Types (c : gmap string Cache.entry) (k key : string) (t : Z).

Lemma get_delete_ne t k key c :
  k ≠ key → Cache.get t k (Cache.delete key c) = Cache.get t k c.
Proof.
  intros Hne. unfold Cache.get, Cache.delete. by rewrite lookup_delete_ne.
Qed.

Lemma get_delete_eq t k c : Cache.get t k (Cache.delete k c) = None.
Proof. unfold Cache.get, Cache.delete. by rewrite lookup_delete_eq. Qed.

Lemma get_set_eq t k v timeout c :
  0 < timeout → Cache.get t k (Cache.set t k v timeout c) = Some v.
Proof.
  intros Hpos. unfold Cache.get, Cache.set, Cache.live.
  rewrite lookup_insert_eq. simpl. rewrite bool_decide_true; [done | lia].
Qed.

Lemma get_set_ne t t' k key v timeout c :
  k ≠ key → Cache.get t k (Cache.set t' key v timeout c) = Cache.get t k c.
Proof.
  intros Hne. unfold Cache.get, Cache.set. by rewrite lookup_insert_ne.
Qed.


Lemma add_refused t k v timeout c v0 :
  Cache.get t k c = Some v0 → Cache.add t k v timeout c = (false, c).
Proof. intros H. unfold Cache.add. by rewrite H. Qed.

Lemma add_stored t k v timeout c :
  Cache.get t k c = None →
  Cache.add t k v timeout c = (true, <[k := Cache.mkEntry v (t + timeout)]> c).
Proof. intros H. unfold Cache.add. by rewrite H. Qed.

End cache_facts.

Lemma invalidate_appointment_cache_lock t data a c :
  Cache.get t (lock_key_of data) (invalidate_appointment_cache a c)
  = Cache.get t (lock_key_of data) c.
Proof. unfold invalidate_appointment_cache. by rewrite !get_delete_ne. Qed.

Lemma invalidate_user_cache_lock t data u c :
  Cache.get t (lock_key_of data) (invalidate_user_cache u c)
  = Cache.get t (lock_key_of data) c.
Proof. unfold invalidate_user_cache. simpl. by rewrite !get_delete_ne. Qed.

(** ** Runs of one booking request *)

Lemma booking_step_rank request p w :
  (rank (booking_step request p w).1 ≤ pred (rank p))%nat.
Proof.
  destruct p; simpl;
    unfold acquire_lock, query_conflict, create_appointment, commit, check_lock;
    repeat case_match; simpl; lia.
Qed.

Lemma booking_run_rank n request p w :
  (rank (booking_run n request p w).1 ≤ rank p - n)%nat.
Proof.
  revert p w. induction n as [|n IH]; intros p w; simpl; [lia|].
  pose proof (booking_step_rank request p w) as Hstep.
  destruct (booking_step request p w) as [p' w'].
  specialize (IH p' w'). simpl in *. lia.
Qed.

(** The view always returns. *)
Lemma booking_run_returns request w :
  ∃ r w', booking_run 6 request at_start w = (returned r, w').
Proof.
  pose proof (booking_run_rank 6 request at_start w) as Hrank.
  destruct (booking_run 6 request at_start w) as [p w'].
  destruct p; simpl in Hrank; try lia. eauto.
Qed.

Lemma appointment_run request w r w' :
  appointment request w = (r, w') ↔
  booking_run 6 request at_start w = (returned r, w').
Proof.
  unfold appointment.
  destruct (booking_run_returns request w) as (r0 & w0 & ->).
  split; intros; simplify_eq; done.
Qed.

(** What every move of a run keeps, the whole run keeps. *)
Lemma booking_run_invariant (P : Point → World → Prop) request :
  (∀ p w, P p w →
     P (booking_step request p w).1 (booking_step request p w).2) →
  ∀ n p w, P p w →
    P (booking_run n request p w).1 (booking_run n request p w).2.
Proof.
  intros Hstep n. induction n as [|n IH]; intros p w HP; simpl; [done|].
  specialize (Hstep p w HP).
  destruct (booking_step request p w) as [p' w']. by apply IH.
Qed.

(** C2.  The slot lock is taken by one [cache.add] with [LOCK_TTL]: when
    no live entry holds the key, the first move of the request stores its
    token there, to expire 30 seconds later, and changes nothing else.
    When a live entry holds the key, the first move is also the last: the
    view answers 409 at once, and the table, the cache and the broker
    are as they were, so no appointment row is created. *)
Theorem lock_refused_conflict request data w :
  rq_ajax_post request = true →
  rq_form request = form_valid data →
  (∀ v, Cache.get (now w) (lock_key_of data) (cache w) = Some v →
     booking_step request at_start w = (returned response_lock_failed, w)
     ∧ appointment request w
       = (JsonResponse
            [("status", JStr "error");
             ("message",
              JStr "Slot just booked by someone else. Please select another.")]
            409, w))
  ∧ (Cache.get (now w) (lock_key_of data) (cache w) = None →
     booking_step request at_start w
     = (at_query data,
        with_cache
          (<[lock_key_of data :=
               Cache.mkEntry (Cache.VStr (rq_lock_value request)) (now w + 30)]>
             (cache w)) w)).
Proof.
  intros Hajax Hform. split.
  - intros v Hv.
    assert (booking_step request at_start w = (returned response_lock_failed, w))
      as Hstep.
    { simpl. unfold acquire_lock. rewrite Hajax, Hform. simpl.
      by rewrite (add_refused _ _ _ _ _ v). }
    split; [done|]. unfold appointment, booking_run.
    rewrite Hstep. done.
  - intros Hnone. simpl. unfold acquire_lock. rewrite Hajax, Hform. simpl.
    by rewrite add_stored.
Qed.

Lemma lock_refused_conflict_witness :
  let held := (booking_step request_a at_start empty_world).2 in
  rq_ajax_post request_b = true
  ∧ rq_form request_b = form_valid data_b
  ∧ Cache.get (now held) (lock_key_of data_b) (cache held)
    = Some (Cache.VStr "01LOCKA")
  ∧ booking_step request_b at_start held = (returned response_lock_failed, held)
  ∧ appointment request_b held
    = (JsonResponse
         [("status", JStr "error");
          ("message",
           JStr "Slot just booked by someone else. Please select another.")]
         409, held).
Proof.
  intros held.
  assert (Cache.get (now held) (lock_key_of data_b) (cache held)
          = Some (Cache.VStr "01LOCKA")) as Hheld by (by vm_compute).
  split_and!; [done|done|done|..];
    apply (lock_refused_conflict request_b data_b held eq_refl eq_refl) in Hheld;
    by destruct Hheld.
Defined.



(** The two calls of the [finally] block. *)
Lemma check_lock_own request data r w :
  Cache.get (now w) (lock_key_of data) (cache w)
  = Some (Cache.VStr (rq_lock_value request)) →
  booking_step request (at_finally data r) w = (at_release data r, w).
Proof. intros H. simpl. unfold check_lock. by rewrite bool_decide_true. Qed.


(** ** The availability view *)

Lemma elem_of_booked_times t did date_ (d : gmap string Appointment) :
  t ∈ booked_times did date_ d ↔
  ∃ u a, d !! u = Some a ∧ occupies (did, date_, t) a.
Proof.
  unfold booked_times, occupies, in_slot. simpl.
  rewrite elem_of_list_to_set, list_elem_of_fmap. split.
  - intros (a & -> & Hin). apply list_elem_of_filter in Hin as [HP Hin].
    apply list_elem_of_fmap in Hin as ([u a'] & -> & Hin).
    apply elem_of_map_to_list in Hin. exists u, a'. simpl in *. naive_solver.
  - intros (u & a & Hlook & (Hd & Hdate & Htime) & Hact).
    exists a. split; [done|]. apply list_elem_of_filter. split; [done|].
    apply list_elem_of_fmap. exists (u, a). split; [done|].
    by apply elem_of_map_to_list.
Qed.

Lemma mapM_slot_entries (s : gset string) (TIME_SLOTS : list (string * string)) :
  mapM (λ td, slot_entry td.1 td.2 <$> not_in td.1 (Cache.VSet s)) TIME_SLOTS
  = Some ((λ td, slot_entry td.1 td.2 (bool_decide (td.1 ∉ s))) <$> TIME_SLOTS).
Proof.
  induction TIME_SLOTS as [|td l IH]; [done|].
  simpl in *. by rewrite IH.
Qed.

(** A query that misses the cache answers from the table. *)
Lemma check_slots_ajax_miss TIME_SLOTS did date_ w :
  date_ ≠ "" →
  Cache.get (now w) ("slots:" +:+ pretty did +:+ ":" +:+ date_) (cache w) = None →
  (check_slots_ajax TIME_SLOTS (mkSlotsRequest (Some did) date_) w).1
  = JsonResponse
      [("status", JStr "success");
       ("slots",
        JArr ((λ td, slot_entry td.1 td.2
                       (bool_decide (td.1 ∉ booked_times did date_ (db w))))
              <$> TIME_SLOTS))]
      200.
Proof.
  intros Hdate Hmiss. unfold check_slots_ajax. simpl.
  rewrite bool_decide_false by done. rewrite Hmiss.
  by rewrite mapM_slot_entries.
Qed.

(** ** Cancellation *)

Lemma get_owned_Some id u d appt :
  get_owned id u d = Some appt ↔ d !! id = Some appt ∧ user appt = u.
Proof.
  unfold get_owned. destruct (d !! id) as [a|]; [|naive_solver].
  case_bool_decide; naive_solver.
Qed.

Lemma get_owned_None id u d :
  get_owned id u d = None ↔
  d !! id = None ∨ ∃ appt, d !! id = Some appt ∧ user appt ≠ u.
Proof.
  unfold get_owned. destruct (d !! id) as [a|]; [|naive_solver].
  case_bool_decide; naive_solver.
Qed.

(** C10.  Cancelling an appointment that belongs to another user gets the
    answer cancelling an appointment that does not exist gets: 404 with
    the message "Appointment not found"; in both cases nothing changes,
    neither in the table nor in the cache nor on the broker. *)
Theorem cancel_hides_foreign request w :
  (db w !! cr_appointment_id request = None
   ∨ ∃ appt, db w !! cr_appointment_id request = Some appt
             ∧ user appt ≠ cr_user request) →
  cancel_appointment request w
  = (JsonResponse
       [("status", JStr "error"); ("message", JStr "Appointment not found")]
       404, w).
Proof.
  intros H. apply get_owned_None in H. unfold cancel_appointment. by rewrite H.
Qed.


Lemma cancel_guard s :
  bool_decide (s ∈ [cancelled; completed; confirmed]) = false ↔ cancellable s.
Proof.
  unfold cancellable. rewrite bool_decide_eq_false.
  destruct s; set_solver.
Qed.

Lemma cancel_appointment_accepts request w appt :
  get_owned (cr_appointment_id request) (cr_user request) (db w) = Some appt →
  cancellable (status appt) →
  let w' := (cancel_appointment request w).2 in
  (cancel_appointment request w).1 = response_cancelled
  ∧ db w' = <[cr_appointment_id request := with_status cancelled appt]> (db w)
  ∧ broker w' = broker w ++ [send_appointment_cancel_email (cr_appointment_id request)]
  ∧ now w' = now w
  ∧ ∀ t, Cache.get t ("slots:" +:+ str_opt_id (doctor_id appt) +:+ ":" +:+ date appt)
           (cache w') = None.
Proof.
  intros Hget Hs. apply cancel_guard in Hs.
  unfold cancel_appointment. rewrite Hget. simpl. rewrite Hs. simpl.
  repeat split; try done.
  intros t. unfold invalidate_user_cache. simpl.
  rewrite !get_delete_ne by done. apply get_delete_eq.
Qed.

Lemma cancel_appointment_rejects request w appt :
  get_owned (cr_appointment_id request) (cr_user request) (db w) = Some appt →
  ¬ cancellable (status appt) →
  cancel_appointment request w = (response_cannot_cancel (status appt), w).
Proof.
  intros Hget Hs. unfold cancel_appointment. rewrite Hget.
  destruct (bool_decide (status appt ∈ [cancelled; completed; confirmed])) eqn:E;
    [done|]. by apply cancel_guard in E.
Qed.

(** C5, as the view has it.  For an appointment and its owner, the
    cancellation succeeds exactly when the status is pending or
    rescheduled: the guard of the view turns away cancelled, completed
    and confirmed.  On success the row is cancelled.  When the row was
    pending and the slot table has at most one pending-or-confirmed row
    per slot, the next availability query for the doctor and the day
    lists the time as available.  A confirmed, completed or cancelled
    appointment is answered 400 and nothing changes. *)
Theorem cancel_appointment_guard request w appt :
  get_owned (cr_appointment_id request) (cr_user request) (db w) = Some appt →
  let r := (cancel_appointment request w).1 in
  let w' := (cancel_appointment request w).2 in
  (r = response_cancelled ↔ status appt = pending ∨ status appt = rescheduled)
  ∧ (r = response_cancelled →
       db w' !! cr_appointment_id request = Some (with_status cancelled appt))
  ∧ (status appt = pending → slot_unique (db w) →
     ∀ TIME_SLOTS d display,
       doctor appt = Some d → date appt ≠ "" →
       (time appt, display) ∈ TIME_SLOTS →
       ∃ slots,
         (check_slots_ajax TIME_SLOTS (mkSlotsRequest (Some (d_id d)) (date appt)) w').1
         = JsonResponse [("status", JStr "success"); ("slots", JArr slots)] 200
         ∧ slot_entry (time appt) display true ∈ slots)
  ∧ (status appt ∈ [confirmed; completed; cancelled] →
       cancel_appointment request w
       = (JsonResponse
            [("status", JStr "error");
             ("message",
              JStr ("Cannot cancel " +:+ status_str (status appt) +:+ " appointment"))]
            400, w)).
Proof.
  intros Hget r w'.
  assert (r = response_cancelled ↔ cancellable (status appt)) as Hiff.
  { split.
    - intros Hr. destruct (decide (cancellable (status appt))) as [|Hn]; [done|].
      subst r. rewrite (cancel_appointment_rejects _ _ _ Hget Hn) in Hr.
      discriminate.
    - intros Hs. by destruct (cancel_appointment_accepts _ _ _ Hget Hs). }
  split; [done|]. split; [|split].
  - intros Hr. apply Hiff in Hr.
    destruct (cancel_appointment_accepts _ _ _ Hget Hr) as (_ & Hdb & _).
    subst w'. rewrite Hdb. apply lookup_insert_eq.
  - intros Hpending Huniq TIME_SLOTS d display Hdoc Hdate Hin.
    destruct (cancel_appointment_accepts request w appt Hget) as
      (_ & Hdb & _ & Hnow & Hcache); [by left|].
    fold w' in Hdb, Hnow, Hcache.
    eexists. split.
    + apply check_slots_ajax_miss; [done|].
      specialize (Hcache (now w')). unfold doctor_id in Hcache.
      rewrite Hdoc in Hcache. done.
    + apply list_elem_of_fmap. exists (time appt, display). split; [|done].
      simpl. f_equal. symmetry. apply bool_decide_eq_true.
      rewrite elem_of_booked_times. intros (u & a & Hlook & Hocc).
      rewrite Hdb in Hlook. apply get_owned_Some in Hget as [Hrow _].
      destruct (decide (u = cr_appointment_id request)) as [->|Hne].
      * rewrite lookup_insert_eq in Hlook. simplify_eq.
        destruct Hocc as [_ Hact]. done.
      * rewrite lookup_insert_ne in Hlook by done.
        apply Hne. apply (Huniq (d_id d, date appt, time appt) _ _ a appt);
          [done|done|done|].
        split; [|by rewrite Hpending].
        unfold in_slot, doctor_id. rewrite Hdoc. done.
  - intros Hs. apply cancel_appointment_rejects; [done|].
    unfold cancellable. intros [E|E]; rewrite E in Hs; set_solver.
Qed.

(** C5 as stated fails: the owner of a rescheduled appointment, which is
    not pending, cancels it. *)
Lemma cancel_accepts_rescheduled :
  let w := mkWorld {[ "A1" := rescheduled_row ]} ∅ [] [] [] 0 in
  let request := mkCancelRequest 7 "A1" in
  get_owned "A1" 7 (db w) = Some rescheduled_row
  ∧ status rescheduled_row ≠ pending
  ∧ (cancel_appointment request w).1
    = JsonResponse
        [("status", JStr "success");
         ("message", JStr "Appointment cancelled successfully")] 200
  ∧ status <$> db (cancel_appointment request w).2 !! "A1" = Some cancelled.
Proof. vm_compute. done. Qed.

Lemma cancel_hides_foreign_witness :
  let stranger := mkCancelRequest 8 "A1" in
  let nobody := mkCancelRequest 8 "A2" in
  (∃ appt, db one_row_world !! "A1" = Some appt ∧ user appt ≠ 8%N)
  ∧ db one_row_world !! "A2" = None
  ∧ cancel_appointment stranger one_row_world
    = cancel_appointment nobody one_row_world
  ∧ cancel_appointment stranger one_row_world
    = (JsonResponse
         [("status", JStr "error"); ("message", JStr "Appointment not found")]
         404, one_row_world).
Proof.
  intros stranger nobody.
  assert (∃ appt, db one_row_world !! "A1" = Some appt ∧ user appt ≠ 8%N) as Hrow.
  { exists pending_row. by vm_compute. }
  assert (db one_row_world !! "A2" = None) as Hnone by (by vm_compute).
  split_and!; [done|done| |].
  - rewrite (cancel_hides_foreign stranger one_row_world (or_intror Hrow)).
    by rewrite (cancel_hides_foreign nobody one_row_world (or_introl Hnone)).
  - exact (cancel_hides_foreign stranger one_row_world (or_intror Hrow)).
Defined.

Lemma cancel_appointment_guard_witness :
  let request := mkCancelRequest 7 "A1" in
  let w' := (cancel_appointment request one_row_world).2 in
  get_owned "A1" 7 (db one_row_world) = Some pending_row
  ∧ (cancel_appointment request one_row_world).1 = response_cancelled
  ∧ db w' !! "A1" = Some (with_status cancelled pending_row)
  ∧ ∃ slots,
      (check_slots_ajax sample_slots (mkSlotsRequest (Some 1%N) "2025-06-01") w').1
      = JsonResponse [("status", JStr "success"); ("slots", JArr slots)] 200
      ∧ slot_entry "10:00" "10:00 AM" true ∈ slots.
Proof.
  intros request w'.
  assert (get_owned "A1" 7 (db one_row_world) = Some pending_row) as Hget
    by (by vm_compute).
  destruct (cancel_appointment_guard request one_row_world pending_row Hget)
    as (Hiff & Hrow & Hslot & _).
  assert ((cancel_appointment request one_row_world).1 = response_cancelled) as Hr.
  { apply Hiff. by left. }
  split_and!; [done|done|by apply Hrow|].
  apply (Hslot eq_refl) with (d := sample_doctor) (display := "10:00 AM").
  - intros k u1 u2 a1 a2 H1 H2 _ _. simpl in H1, H2.
    apply lookup_singleton_Some in H1 as [<- _].
    by apply lookup_singleton_Some in H2 as [<- _].
  - done.
  - done.
  - compute_done.
Defined.

(** ** The jobs *)

Section jobs.
Context (env : Env).

Lemma send_each_delivered ms sent :
  Forall (λ m, delivers env m = true) ms →
  send_each env ms sent = (true, sent ++ ms).
Proof.
  revert sent. induction ms as [|m ms IH]; intros sent Hall; simpl.
  - by rewrite app_nil_r.
  - inversion Hall as [|?? Hm Hms]; subst. unfold send_html_email.
    rewrite Hm. rewrite IH by done. by rewrite <- app_assoc.
Qed.

(** C6.  The confirmation job run twice for one appointment, the second
    run less than 24 hours after the first, sends its mails once.  With
    the appointment in the table, no marker in the cache and a mail
    server that accepts the mails, the first run hands over the mails of
    [send_appointment_emails], stores the marker
    [appointment_email_sent:<ulid>] to expire 24 hours later and answers
    "sent"; the second run finds the marker, answers "skipped" and
    changes nothing.  Neither run retries or raises. *)
Theorem confirmation_email_once u retries1 retries2 w appt d :
  db w !! u = Some appt →
  Cache.truthy (Cache.get (now w) (email_sent_key u) (cache w)) = false →
  Forall (λ m, delivers env m = true) (appointment_emails env appt) →
  0 ≤ d < 60 * 60 * 24 →
  let run1 := send_appointment_email_task env u retries1 w in
  let later := with_now (now w + d) run1.2 in
  let run2 := send_appointment_email_task env u retries2 later in
  run1.1 = task_returns (JStr "sent")
  ∧ outbox run1.2 = outbox w ++ appointment_emails env appt
  ∧ cache run1.2 !! ("appointment_email_sent:" +:+ u)
    = Some (Cache.mkEntry (Cache.VBool true) (now w + 86400))
  ∧ run2.1 = task_returns (JStr "skipped")
  ∧ run2.2 = later.
Proof.
  intros Hrow Hfresh Hmail Hd run1 later run2.
  assert (run1 = (task_returns (JStr "sent"),
                  with_cache
                    (Cache.set (now w) (email_sent_key u) (Cache.VBool true) 86400
                       (cache w))
                    (with_outbox (outbox w ++ appointment_emails env appt) w)))
    as Hrun1.
  { subst run1. unfold send_appointment_email_task.
    rewrite Hfresh, Hrow. unfold send_appointment_emails.
    by rewrite send_each_delivered. }
  assert (run2 = (task_returns (JStr "skipped"), later)) as Hrun2.
  { subst run2. unfold send_appointment_email_task.
    assert (Cache.get (now later) (email_sent_key u) (cache later)
            = Some (Cache.VBool true)) as ->; [|done].
    subst later. rewrite Hrun1. simpl.
    unfold Cache.get, Cache.set, Cache.live. rewrite lookup_insert_eq. simpl.
    rewrite bool_decide_true; [done | lia]. }
  rewrite Hrun2, Hrun1. simpl. repeat split.
  unfold Cache.set. apply lookup_insert_eq.
Qed.

Lemma status_update_emails_same appt s : status_update_emails appt s s = [].
Proof. unfold status_update_emails. by rewrite bool_decide_true. Qed.

(** C7, as the job has it.  Run with the old status equal to the new
    one, the status-change job sends no mail and leaves the table, the
    cache and the broker as they were.  Its answer is the one it gives
    after a send: "sent" when the appointment exists, "not_found" when it
    does not; it has no answer of its own for a run that sent nothing. *)
Theorem status_update_same_status u s retries w :
  outbox (send_appointment_status_update_email_task env u s s retries w).2
  = outbox w
  ∧ send_appointment_status_update_email_task env u s s retries w
    = (task_returns
         (JStr match db w !! u with Some _ => "sent" | None => "not_found" end),
       w).
Proof.
  unfold send_appointment_status_update_email_task,
    send_appointment_status_update_email.
  destruct (db w !! u) as [appt|]; [|done].
  rewrite status_update_emails_same. simpl. split; [done|].
  by destruct w.
Qed.

Lemma has_doctor_email_None appt :
  has_doctor_email appt = None ↔
  doctor appt = None ∨ ∃ d, doctor appt = Some d ∧ d_email d = "".
Proof.
  unfold has_doctor_email. destruct (doctor appt) as [d|]; [|naive_solver].
  destruct (String.eqb_spec (d_email d) ""); naive_solver.
Qed.

(** C8.  The guards of the calendar job, in the order the job tests
    them.  A row that carries an event id: skipped, already_exists.  A
    row without one whose status is neither confirmed nor pending:
    skipped, with the status as reason.  A row that passes both and has
    no doctor, or a doctor without an email: invalid_doctor.  Whenever
    one of the three holds the job returns an answer (it neither retries
    nor raises) and the world is as it was: no event was sent to the
    calendar.  A second run after a run that created an event (with a
    non-empty id) is skipped as already_exists and sends nothing. *)
Theorem calendar_guards u retries w appt :
  db w !! u = Some appt →
  (has_event_id appt = true →
     create_calendar_event_task env u retries w
     = (task_returns
          (JObj [("status", JStr "skipped"); ("reason", JStr "already_exists")]),
        w))
  ∧ (has_event_id appt = false → status appt ∉ [confirmed; pending] →
     create_calendar_event_task env u retries w
     = (task_returns
          (JObj [("status", JStr "skipped");
                 ("reason", JStr (status_str (status appt)))]),
        w))
  ∧ (has_event_id appt = false → status appt ∈ [confirmed; pending] →
     (doctor appt = None ∨ ∃ d, doctor appt = Some d ∧ d_email d = "") →
     create_calendar_event_task env u retries w
     = (task_returns (JObj [("status", JStr "invalid_doctor")]), w))
  ∧ (guarded appt →
     ∃ answer,
       create_calendar_event_task env u retries w = (task_returns answer, w))
  ∧ (∀ event_id link w1 retries',
       create_calendar_event_task env u retries w
       = (task_returns (JObj [("status", JStr "success");
                              ("event_id", JStr event_id);
                              ("event_link", link)]), w1) →
       event_id ≠ "" →
       create_calendar_event_task env u retries' w1
       = (task_returns (skipped "already_exists"), w1)).
Proof.
  intros Hrow.
  assert (has_event_id appt = true →
          create_calendar_event_task env u retries w
          = (task_returns (skipped "already_exists"), w)) as Hid.
  { intros He. unfold create_calendar_event_task. by rewrite Hrow, He. }
  assert (has_event_id appt = false → status appt ∉ [confirmed; pending] →
          create_calendar_event_task env u retries w
          = (task_returns (skipped (status_str (status appt))), w)) as Hstatus.
  { intros He Hst. unfold create_calendar_event_task. rewrite Hrow, He.
    by rewrite bool_decide_false. }
  assert (has_event_id appt = false → status appt ∈ [confirmed; pending] →
          has_doctor_email appt = None →
          create_calendar_event_task env u retries w
          = (task_returns (JObj [("status", JStr "invalid_doctor")]), w)) as Hdoctor.
  { intros He Hst Hdoc. unfold create_calendar_event_task. rewrite Hrow, He.
    rewrite bool_decide_true by done. simpl. by rewrite Hdoc. }
  split; [done|]. split; [done|]. split; [|split].
  - intros He Hst Hdoc. apply Hdoctor; [done|done|].
    by apply has_doctor_email_None.
  - intros Hguard. destruct (has_event_id appt) eqn:He; [eauto|].
    destruct (decide (status appt ∈ [confirmed; pending])) as [Hst|Hst]; [|eauto].
    destruct Hguard as [?|[?|Hdoc]]; [congruence|contradiction|eauto].
  - intros event_id link w1 retries' Hrun Hne.
    unfold create_calendar_event_task in Hrun. rewrite Hrow in Hrun.
    destruct (has_event_id appt) eqn:He; [done|].
    case_bool_decide as Hst; simpl in Hrun; [|done].
    destruct (has_doctor_email appt) as [doctor_email|]; [|done].
    destruct (strptime_ok env (with_seconds (time appt))); simpl in Hrun;
      [|by unfold self_retry in Hrun; case_bool_decide].
    destruct (events_insert env _) as [[event_id' html_link]|];
      [|by unfold self_retry in Hrun; case_bool_decide].
    simplify_eq/=.
    unfold create_calendar_event_task. simpl.
    rewrite lookup_alter_eq, Hrow. simpl.
    unfold has_event_id. simpl.
    by destruct (String.eqb_spec event_id "").
Qed.

End jobs.

Lemma confirmation_email_once_witness :
  let w := one_row_world in
  let run1 := send_appointment_email_task sample_env "A1" 0 w in
  let an_hour_later := with_now (now w + 3600) run1.2 in
  let run2 := send_appointment_email_task sample_env "A1" 0 an_hour_later in
  db w !! "A1" = Some pending_row
  ∧ run1.1 = task_returns (JStr "sent")
  ∧ outbox run1.2 = outbox w ++ appointment_emails sample_env pending_row
  ∧ cache run1.2 !! "appointment_email_sent:A1"
    = Some (Cache.mkEntry (Cache.VBool true) 86400)
  ∧ run2.1 = task_returns (JStr "skipped")
  ∧ run2.2 = an_hour_later.
Proof.
  intros w run1 an_hour_later run2.
  assert (db w !! "A1" = Some pending_row) as Hrow by (by vm_compute).
  split; [done|].
  apply (confirmation_email_once sample_env "A1" 0 0 w pending_row 3600 Hrow).
  - by vm_compute.
  - repeat constructor.
  - lia.
Defined.

(** C7 as stated fails: the run sends nothing, and its answer is "sent",
    not the "skipped" of a job that did nothing. *)
Lemma same_status_answers_sent :
  let w := mkWorld {[ "A1" := rescheduled_row ]} ∅ [] [] [] 0 in
  let env := mkEnv (λ _, true) (λ _, None) (λ _, true) (λ _, None) "admin@clinic.test" in
  let run := send_appointment_status_update_email_task env "A1" confirmed confirmed 0 w in
  run.1 = task_returns (JStr "sent")
  ∧ run.1 ≠ task_returns (JStr "skipped")
  ∧ outbox run.2 = [].
Proof. vm_compute. done. Qed.

Lemma calendar_guards_witness :
  let row := with_calendar_event_id "evt0" (with_status cancelled pending_row) in
  let w := mkWorld {[ "A1" := row ]} ∅ [] [] [] 0 in
  db w !! "A1" = Some row
  ∧ has_event_id row = true
  ∧ create_calendar_event_task sample_env "A1" 0 w
    = (task_returns
         (JObj [("status", JStr "skipped"); ("reason", JStr "already_exists")]),
       w).
Proof.
  intros row w.
  assert (db w !! "A1" = Some row) as Hrow by (by vm_compute).
  split_and!; [done|done|].
  by apply (calendar_guards sample_env "A1" 0 w row Hrow).
Defined.

(** ** Cache invalidation on writes *)

(** Neither receiver touches a key of the availability view. *)
Lemma save_keeps_slots u instance w s :
  cache (save u instance w) !! ("slots:" +:+ s) = cache w !! ("slots:" +:+ s).
Proof.
  unfold save, invalidate_appointment_cache, Cache.delete. simpl.
  by rewrite !lookup_delete_ne.
Qed.

Lemma delete_instance_keeps_slots u w s :
  cache (delete_instance u w) !! ("slots:" +:+ s) = cache w !! ("slots:" +:+ s).
Proof.
  unfold delete_instance. destruct (db w !! u); [|done].
  unfold invalidate_appointment_cache_on_delete, Cache.delete. simpl.
  by rewrite !lookup_delete_ne.
Qed.

Lemma delete_instance_keeps_homepage u w :
  cache (delete_instance u w) !! "homepage_stats" = cache w !! "homepage_stats".
Proof.
  unfold delete_instance. destruct (db w !! u); [|done].
  unfold invalidate_appointment_cache_on_delete, Cache.delete. simpl.
  by rewrite !lookup_delete_ne.
Qed.

(** C9 fails on the code.  The receivers of [post_save] and
    [post_delete] delete [available_slots:<date>:<doctor>], a key no view
    reads; the availability view reads [slots:<doctor>:<date>], which
    only the booking view and the cancellation view delete.  After a
    staff action has cancelled the one appointment of a slot, the cached
    slot set still lists the time and the availability view still
    reports it as taken.  After a row is deleted the slot set and the
    home page statistics are still cached. *)
Lemma staff_change_leaves_slots_stale :
  let w := booked_and_queried in
  let query := mkSlotsRequest (Some 1%N) "2025-06-01" in
  let cancelled_by_staff := mark_as_cancelled ["A1"] w in
  let deleted := delete_instance "A1" w in
  (* the staff action cancels the appointment: the slot is free *)
  status <$> db cancelled_by_staff !! "A1" = Some cancelled
  ∧ conflict_exists (1%N, "2025-06-01", "10:00") (db cancelled_by_staff) = false
  (* the slot set the availability view reads is still cached *)
  ∧ Cache.get 0 "slots:1:2025-06-01" (cache cancelled_by_staff)
    = Some (Cache.VSet {[ "10:00" ]})
  ∧ (check_slots_ajax sample_slots query cancelled_by_staff).1
    = JsonResponse
        [("status", JStr "success");
         ("slots", JArr [slot_entry "09:00" "09:00 AM" true;
                         slot_entry "10:00" "10:00 AM" false])] 200
  (* deleting the row leaves the slot set and the home page statistics *)
  ∧ db deleted !! "A1" = None
  ∧ Cache.get 0 "slots:1:2025-06-01" (cache deleted)
    = Some (Cache.VSet {[ "10:00" ]})
  ∧ Cache.get 0 "homepage_stats" (cache deleted) = Some (Cache.VInt 1).
Proof. vm_compute. done. Qed.

(** ** The invariant of the system *)

Lemma conflict_exists_false k d : conflict_exists k d = false ↔ free k d.
Proof.
  unfold conflict_exists, free. rewrite bool_decide_eq_false, map_not_Exists.
  done.
Qed.

Lemma occupies_new_appointment k request data :
  occupies k (new_appointment request data) ↔ k = slot_of data.
Proof.
  unfold occupies, in_slot, slot_of, doctor_id. simpl.
  destruct k as [[d dt] tm]. simpl. naive_solver.
Qed.

Lemma lock_key_of_slot d1 d2 :
  slot_of d1 = slot_of d2 → lock_key_of d1 = lock_key_of d2.
Proof. unfold slot_of, lock_key_of. intros [= -> -> ->]. done. Qed.

Lemma not_occupies_cancelled k appt : ¬ occupies k (with_status cancelled appt).
Proof. intros [_ Hact]. done. Qed.

Lemma thread_inv_frame P w w' t :
  frame P w w' →
  (∀ request p, t = booking request p → P (rq_lock_value request)) →
  thread_inv w t → thread_inv w' t.
Proof.
  intros (Hlock & Hfree & Hrows & Hjobs) HP Hinv.
  destruct t as [request p|]; [|done].
  specialize (HP request p eq_refl).
  destruct p; simpl in *; try done.
  - by apply Hlock.
  - destruct Hinv as [Hl Hf]. split; [by apply Hlock | by eapply Hfree].
  - destruct Hinv as (Hl & Hf & ? & ?).
    repeat split; [by apply Hlock | by eapply Hfree | done | done].
  - intros u Hr. destruct (Hinv u Hr) as (? & ? & ? & ?). auto.
  - destruct Hinv as [Hl Hinv]. split; [by apply Hlock|].
    intros u Hr. destruct (Hinv u Hr) as (? & ? & ? & ?). auto.
  - intros u Hr. destruct (Hinv u Hr) as (? & ? & ? & ?). auto.
Qed.

Lemma frame_refl P w : frame P w w.
Proof. unfold frame. auto. Qed.

(** *** The moves of a booking request *)

Lemma acquire_lock_spec request w p' w' :
  acquire_lock request w = (p', w') →
  (w' = w ∧ ∃ r, p' = returned r ∧ ∀ u, r ≠ response_booked u)
  ∨ (∃ data,
       p' = at_query data
       ∧ Cache.get (now w) (lock_key_of data) (cache w) = None
       ∧ w' = with_cache
                (Cache.set (now w) (lock_key_of data)
                   (Cache.VStr (rq_lock_value request)) LOCK_TTL (cache w)) w).
Proof.
  unfold acquire_lock. intros H.
  destruct (rq_ajax_post request); simpl in H; [|left; naive_solver].
  destruct (rq_form request) as [errors|data]; [left; naive_solver|].
  unfold Cache.add in H.
  destruct (Cache.get (now w) (lock_key_of data) (cache w)) eqn:Hget;
    simplify_eq/=; [left; naive_solver|].
  right. eauto.
Qed.

Lemma create_appointment_spec request data w p' w' :
  create_appointment request data w = (p', w') →
  (w' = w ∧ p' = at_finally data response_failed)
  ∨ (db w !! rq_ulid request = None
     ∧ p' = at_commit data (new_appointment request data)
              [send_appointment_email (rq_ulid request);
               create_calendar_event (rq_ulid request)]
     ∧ w' = with_cache
              (Cache.delete (slots_key_of data)
                 (invalidate_appointment_cache (new_appointment request data)
                    (cache w))) w).
Proof.
  unfold create_appointment. intros H.
  destruct (bool_decide (rq_fault request = Some fault_insert)); simpl in H;
    [left; naive_solver|].
  case_bool_decide as Hrow; simplify_eq/=; [left; naive_solver|].
  right. split; [|done]. by apply eq_None_not_Some.
Qed.

Lemma commit_spec request data appt on_commit w p' w' :
  on_commit = [send_appointment_email (rq_ulid request);
               create_calendar_event (rq_ulid request)] →
  commit request data appt on_commit w = (p', w') →
  (w' = w ∧ p' = at_finally data response_failed)
  ∨ (db w !! rq_ulid request = None
     ∧ ∃ js r,
         w' = with_broker (broker w ++ js)
                (with_db (<[rq_ulid request := appt]> (db w)) w)
         ∧ p' = at_finally data r
         ∧ (∀ j, j ∈ js → job_ulid j = rq_ulid request)
         ∧ (∀ u, r = response_booked u → u = rq_ulid request ∧ js = on_commit)).
Proof.
  intros -> H. unfold commit in H.
  destruct (bool_decide (rq_fault request = Some fault_commit)); simpl in H;
    [left; naive_solver|].
  case_bool_decide as Hrow; simpl in H; [left; naive_solver|].
  right. split; [by apply eq_None_not_Some|].
  destruct (rq_fault request) as [[]|]; simplify_eq/=;
    try (eexists _, _; split; [reflexivity|]; split; [done|];
         split; [set_solver | naive_solver]).
  exists [], response_failed. rewrite app_nil_r.
  repeat split; [set_solver | done | done].
Qed.

Lemma holds_lock_deletes request data (w : World) c' :
  (∀ t, Cache.get t (lock_key_of data) c' = Cache.get t (lock_key_of data) (cache w)) →
  holds_lock request data w → holds_lock request data (with_cache c' w).
Proof. unfold holds_lock. simpl. intros ->. done. Qed.

Lemma booking_step_inv request p w p' w' :
  booking_step request p w = (p', w') →
  slot_unique (db w) → jobs_committed w → thread_inv w (booking request p) →
  slot_unique (db w') ∧ jobs_committed w' ∧ thread_inv w' (booking request p')
  ∧ frame (λ token, token ≠ rq_lock_value request) w w'.
Proof.
  intros Hstep Huniq Hjobs Hinv.
  assert (∀ data r, (∀ u, r ≠ response_booked u) →
            thread_inv w (booking request (at_finally data r))) as Hfinally.
  { intros data r Hr u Hu. by destruct (Hr u). }
  destruct p; simpl in Hstep.
  - (* the lock *)
    apply acquire_lock_spec in Hstep
      as [(-> & r & -> & Hr)|(data & -> & Hnone & ->)].
    + split_and!; [done|done| |apply frame_refl].
      intros u Hu. by destruct (Hr u).
    + split_and!; [done|done| |].
      * unfold thread_inv, holds_lock. simpl. by apply get_set_eq.
      * unfold frame. split_and!; try done.
        intros rq2 data2 _ Hheld. unfold holds_lock in *. simpl.
        rewrite get_set_ne; [done|]. intros Heq. rewrite Heq in Hheld. congruence.
  - (* the conflict query *)
    unfold query_conflict in Hstep.
    case_bool_decide; simplify_eq.
    { split_and!; [done|done|by apply Hfinally|apply frame_refl]. }
    destruct (conflict_exists (slot_of data) (db w)) eqn:Hconf; simplify_eq.
    { split_and!; [done|done|by apply Hfinally|apply frame_refl]. }
    apply conflict_exists_false in Hconf.
    split_and!; [done|done|done|apply frame_refl].
  - (* the insert *)
    destruct Hinv as [Hheld Hfree].
    apply create_appointment_spec in Hstep as [[-> ->]|(Hfresh & -> & ->)].
    { split_and!; [done|done|by apply Hfinally|apply frame_refl]. }
    assert (∀ rq2 data2, holds_lock rq2 data2 w →
              holds_lock rq2 data2
                (with_cache
                   (Cache.delete (slots_key_of data)
                      (invalidate_appointment_cache (new_appointment request data)
                         (cache w))) w)) as Hkeep.
    { intros rq2 data2. apply holds_lock_deletes. intros t.
      rewrite get_delete_ne by done. apply invalidate_appointment_cache_lock. }
    split_and!; [done|done| |].
    + split_and!; try done. by apply Hkeep.
    + unfold frame. split_and!; try done.
      intros rq2 data2 _ Hh. by apply Hkeep.
  - (* the commit *)
    destruct Hinv as (Hheld & Hfree & -> & ->).
    apply commit_spec in Hstep
      as [[-> ->]|(Hfresh & js & r & -> & -> & Hjs & Hr)]; [| |done].
    { split_and!; [done|done|by apply Hfinally|apply frame_refl]. }
    simpl. split_and!.
    + intros k u1 u2 a1 a2 H1 H2 Ho1 Ho2.
      destruct (decide (u1 = rq_ulid request)) as [->|Hne1];
        destruct (decide (u2 = rq_ulid request)) as [->|Hne2]; [done| | |].
      * rewrite lookup_insert_eq in H1. rewrite lookup_insert_ne in H2 by done.
        simplify_eq. apply occupies_new_appointment in Ho1 as ->.
        by destruct (Hfree _ _ H2).
      * rewrite lookup_insert_eq in H2. rewrite lookup_insert_ne in H1 by done.
        simplify_eq. apply occupies_new_appointment in Ho2 as ->.
        by destruct (Hfree _ _ H1).
      * rewrite lookup_insert_ne in H1, H2 by done. by eapply Huniq.
    + intros j Hj. simpl in *. rewrite lookup_insert_is_Some.
      apply elem_of_app in Hj as [Hj|Hj].
      * destruct (decide (rq_ulid request = job_ulid j)); [by left|].
        right. split; [done|]. by apply Hjobs.
      * left. symmetry. by apply Hjs.
    + intros u Hu. destruct (Hr u Hu) as [-> ->]. simpl.
      rewrite lookup_insert_eq. split_and!; [done|by eexists|set_solver|set_solver].
    + unfold frame. split_and!; simpl.
      * done.
      * intros rq2 data2 Hne Hheld2 Hfree2 u a Hrow Hocc.
        destruct (decide (u = rq_ulid request)) as [->|Hneu].
        -- rewrite lookup_insert_eq in Hrow. simplify_eq.
           apply occupies_new_appointment in Hocc.
           apply lock_key_of_slot in Hocc.
           unfold holds_lock in Hheld, Hheld2. rewrite Hocc in Hheld2. congruence.
        -- rewrite lookup_insert_ne in Hrow by done. by eapply Hfree2.
      * intros u Hu. rewrite lookup_insert_is_Some.
        destruct (decide (rq_ulid request = u)); [by left|by right].
      * intros j Hj. set_solver.
  - (* the finally block: the comparison *)
    unfold check_lock in Hstep.
    case_bool_decide as Hown; simplify_eq;
      split_and!; [done|done|done|apply frame_refl|done|done|done|apply frame_refl].
  - (* the finally block: the delete *)
    destruct Hinv as [Hheld Hbooked]. simplify_eq. unfold release_lock.
    split_and!; [done|done|done|]. unfold frame. split_and!; try done.
    intros rq2 data2 Hne Hheld2. unfold holds_lock in *. simpl.
    rewrite get_delete_ne; [done|]. intros Heq. rewrite Heq in Hheld2. congruence.
  - simplify_eq. split_and!; [done|done|done|apply frame_refl].
Qed.

Lemma cancel_appointment_inv request w r w' :
  cancel_appointment request w = (r, w') →
  slot_unique (db w) → jobs_committed w →
  slot_unique (db w') ∧ jobs_committed w' ∧ frame (λ _, True) w w'.
Proof.
  intros Hstep Huniq Hjobs. unfold cancel_appointment in Hstep.
  destruct (get_owned _ _ _) as [appt|] eqn:Hget;
    [|simplify_eq; split_and!; try done; try apply frame_refl].
  case_bool_decide; simplify_eq;
    [split_and!; try done; try apply frame_refl|].
  apply get_owned_Some in Hget as [Hrow _]. simpl.
  set (id := cr_appointment_id request) in *.
  split; [|split].
  - intros k u1 u2 a1 a2 H1 H2 Ho1 Ho2.
    destruct (decide (u1 = id)) as [->|Hne1].
    { rewrite lookup_insert_eq in H1. simplify_eq.
      by destruct (not_occupies_cancelled k appt). }
    destruct (decide (u2 = id)) as [->|Hne2].
    { rewrite lookup_insert_eq in H2. simplify_eq.
      by destruct (not_occupies_cancelled k appt). }
    rewrite lookup_insert_ne in H1, H2 by done. by eapply Huniq.
  - intros j Hj. simpl in *. rewrite lookup_insert_is_Some.
    apply elem_of_app in Hj as [Hj|Hj].
    + destruct (decide (id = job_ulid j)); [by left|].
      right. split; [done|]. by apply Hjobs.
    + left. apply list_elem_of_singleton in Hj. by subst j.
  - split_and!; simpl.
    + intros rq2 data2 _ Hheld. unfold holds_lock in *. simpl.
      rewrite invalidate_user_cache_lock. rewrite get_delete_ne by done.
      by rewrite invalidate_appointment_cache_lock.
    + intros rq2 data2 _ _ Hfree u a Hlook Hocc.
      destruct (decide (u = id)) as [->|Hne].
      * rewrite lookup_insert_eq in Hlook. simplify_eq.
        by destruct (not_occupies_cancelled (slot_of data2) appt).
      * rewrite lookup_insert_ne in Hlook by done. by eapply Hfree.
    + intros u Hu. rewrite lookup_insert_is_Some.
      destruct (decide (id = u)); [by left|by right].
    + intros j Hj. set_solver.
Qed.

(** *** The pool *)

Lemma lock_values_app pre post :
  lock_values (pre ++ post) = lock_values pre ++ lock_values post.
Proof. unfold lock_values. apply omap_app. Qed.

Lemma thread_step_lock_values t w t' w' :
  thread_step t w = (t', w') → lock_values [t'] = lock_values [t].
Proof.
  destruct t as [request p|request [r|]]; simpl; intros H.
  - destruct (booking_step request p w). by simplify_eq.
  - by simplify_eq.
  - destruct (cancel_appointment request w). by simplify_eq.
Qed.

Lemma lock_values_step pre post t w t' w' :
  thread_step t w = (t', w') →
  lock_values (pre ++ t' :: post) = lock_values (pre ++ t :: post).
Proof.
  intros H. rewrite !lock_values_app.
  change (t' :: post) with ([t'] ++ post). change (t :: post) with ([t] ++ post).
  rewrite !lock_values_app.
  by rewrite (thread_step_lock_values _ _ _ _ H).
Qed.

Lemma elem_of_lock_values request p pool :
  booking request p ∈ pool → rq_lock_value request ∈ lock_values pool.
Proof.
  intros Hin. unfold lock_values. apply list_elem_of_omap.
  by exists (booking request p).
Qed.

(** The tokens of the other requests differ from the token of the one
    that moves. *)
Lemma other_lock_values pre post request p t2 rq2 p2 :
  NoDup (lock_values (pre ++ booking request p :: post)) →
  t2 ∈ pre ++ post → t2 = booking rq2 p2 →
  rq_lock_value rq2 ≠ rq_lock_value request.
Proof.
  rewrite lock_values_app. simpl. fold (lock_values post).
  intros Hnd Hin -> Heq.
  apply NoDup_app in Hnd as (_ & Hpre & Hpost).
  apply NoDup_cons in Hpost as [Hpost _].
  apply elem_of_app in Hin as [Hin|Hin]; apply elem_of_lock_values in Hin.
  - apply (Hpre _ Hin). rewrite Heq. by left.
  - apply Hpost. by rewrite <- Heq.
Qed.

Lemma step_inv s s' : system_inv s → step s s' → system_inv s'.
Proof.
  intros (Huniq & Hjobs & Hall & Hnd) Hstep.
  destruct Hstep as [w pre post t t' w' Hstep|w pool d Hd Hlive];
    cbn [fst snd] in *.
  - apply Forall_app in Hall as [Hpre Hpost].
    apply Forall_cons in Hpost as [Ht Hpost].
    assert (slot_unique (db w') ∧ jobs_committed w' ∧ thread_inv w' t'
            ∧ ∀ t2, t2 ∈ pre ++ post → thread_inv w t2 → thread_inv w' t2)
      as (Huniq' & Hjobs' & Ht' & Hothers).
    { destruct t as [request p|request [r|]]; simpl in Hstep.
      - destruct (booking_step request p w) as [p' w''] eqn:Hb. simplify_eq.
        destruct (booking_step_inv _ _ _ _ _ Hb Huniq Hjobs Ht)
          as (? & ? & ? & Hframe).
        split_and!; try done.
        intros t2 Hin. apply (thread_inv_frame _ _ _ _ Hframe).
        intros rq2 p2 ->. by eapply other_lock_values.
      - simplify_eq. done.
      - destruct (cancel_appointment request w) as [r w''] eqn:Hc. simplify_eq.
        destruct (cancel_appointment_inv _ _ _ _ Hc Huniq Hjobs)
          as (? & ? & Hframe).
        split_and!; try done.
        intros t2 Hin. by apply (thread_inv_frame _ _ _ _ Hframe). }
    split_and!; try done.
    + apply Forall_app. split; [|apply Forall_cons; split; [done|]].
      * apply Forall_forall. intros t2 Hin. rewrite Forall_forall in Hpre.
        apply Hothers; [set_solver|by apply Hpre].
      * apply Forall_forall. intros t2 Hin. rewrite Forall_forall in Hpost.
        apply Hothers; [set_solver|by apply Hpost].
    + cbn [snd]. by rewrite (lock_values_step _ _ _ _ _ _ Hstep).
  - split_and!; try done.
    apply Forall_forall. intros t Hin.
    rewrite Forall_forall in Hall. specialize (Hall t Hin).
    destruct t as [request p|]; [|done].
    destruct p; simpl in *; try done.
    + by apply (Hlive request (at_query data) data).
    + destruct Hall as [_ Hfree]. split; [|done].
      by apply (Hlive request (at_create data) data).
    + destruct Hall as (_ & Hfree & ? & ?). split_and!; try done.
      by apply (Hlive request (at_commit data appt on_commit) data).
    + destruct Hall as [_ Hbooked]. split; [|done].
      by apply (Hlive request (at_release data r) data).
Qed.

Lemma initial_inv s : initial s → system_inv s.
Proof.
  intros (Huniq & Hjobs & Hidle & Hnd). split_and!; try done.
  eapply Forall_impl; [exact Hidle|].
  intros [request p|request r]; simpl; [|done]. by intros ->.
Qed.

Lemma reachable_inv s : reachable s → system_inv s.
Proof.
  intros (s0 & Hinit & Hsteps). apply initial_inv in Hinit.
  induction Hsteps as [|s1 s2 s3 Hstep _ IH]; [done|].
  apply IH. by eapply step_inv.
Qed.


(** ** Interleavings that can be run *)

Lemma run_thread_step i s : step s (run_thread i s) ∨ run_thread i s = s.
Proof.
  destruct s as [w pool]. unfold run_thread. simpl.
  destruct (pool !! i) as [t|] eqn:Hi; [|by right].
  destruct (thread_step t w) as [t' w'] eqn:Hstep. left.
  rewrite <- (take_drop_middle pool i t Hi) at 1.
  rewrite insert_take_drop by (by eapply lookup_lt_Some).
  by constructor.
Qed.

Lemma schedule_steps l s : rtc step s (schedule l s).
Proof.
  revert s. induction l as [|i l IH]; intros s; simpl; [done|].
  destruct (run_thread_step i s) as [Hstep| ->]; [|apply IH].
  eapply rtc_l; [exact Hstep|apply IH].
Qed.

Lemma initial_race_start : initial race_start.
Proof.
  unfold initial, race_start. simpl. split_and!.
  - intros k u1 u2 a1 a2 H1. by rewrite lookup_empty in H1.
  - intros j Hj. simpl in Hj. by apply elem_of_nil in Hj.
  - repeat constructor.
  - compute_done.
Qed.

Lemma race_race_start : race sample_slot race_start.
Proof.
  unfold race, race_start. simpl. split_and!.
  - done.
  - repeat constructor; eexists _, _; (split; [reflexivity|]); by repeat split.
  - compute_done.
  - intros u _. apply lookup_empty.
  - intros u a H. by rewrite lookup_empty in H.
  - done.
Qed.

(** ** Requests racing for one slot *)


Lemma not_free_insert k u a (d : gmap string Appointment) :
  d !! u = None → ¬ free k d → ¬ free k (<[u := a]> d).
Proof.
  intros Hfresh Hn Hfree. apply Hn. intros u' a' Hrow.
  apply (Hfree u' a'). rewrite lookup_insert_ne; [done|]. by intros ->; congruence.
Qed.





Section race.
Context (k : Slot).















End race.



(** The moves that change the broker. *)
Lemma enqueue_only_at_commit request p w p' w' :
  booking_step request p w = (p', w') →
  broker w' ≠ broker w →
  ∃ data appt on_commit,
    p = at_commit data appt on_commit
    ∧ db w !! rq_ulid request = None
    ∧ db w' = <[rq_ulid request := appt]> (db w).
Proof.
  intros Hstep Hne. destruct p; simpl in Hstep.
  - apply acquire_lock_spec in Hstep as [(-> & _)|(? & _ & _ & ->)]; done.
  - unfold query_conflict in Hstep. repeat case_match; by simplify_eq.
  - apply create_appointment_spec in Hstep as [[-> _]|(_ & _ & ->)]; done.
  - exists data, appt, on_commit. split; [done|].
    unfold commit in Hstep.
    destruct (bool_decide (rq_fault request = Some fault_commit));
      simpl in Hstep; [by simplify_eq|].
    case_bool_decide as Hrow; simpl in Hstep; [by simplify_eq|].
    split; [by apply eq_None_not_Some|].
    repeat case_match; by simplify_eq.
  - unfold check_lock in Hstep. case_match; by simplify_eq.
  - by simplify_eq.
  - by simplify_eq.
Qed.

(** C4.  The two jobs of a booking are handed to the broker by the move
    that commits its transaction, after the row is written: a move of a
    booking request that changes the broker is the commit of a row that
    was not in the table and now is, and a move that leaves the table as
    it was (a transaction rolled back among them) leaves the broker as
    it was.  So in every state the system reaches, every job on the
    broker names a committed row, and a request that answers success has
    its row committed and both its jobs on the broker. *)
Theorem enqueue_after_commit s0 s :
  initial s0 → rtc step s0 s →
  (∀ request p w p' w',
     booking_step request p w = (p', w') → broker w' ≠ broker w →
     ∃ data appt on_commit,
       p = at_commit data appt on_commit
       ∧ db w !! rq_ulid request = None
       ∧ db w' = <[rq_ulid request := appt]> (db w))
  ∧ (∀ request p w p' w',
       booking_step request p w = (p', w') → db w' = db w →
       broker w' = broker w)
  ∧ (∀ j, j ∈ broker s.1 → is_Some (db s.1 !! job_ulid j))
  ∧ (∀ request p u,
       booking request p ∈ s.2 →
       (p = returned (response_booked u)
        ∨ ∃ data, p = at_finally data (response_booked u)
                  ∨ p = at_release data (response_booked u)) →
       u = rq_ulid request ∧ is_Some (db s.1 !! u)
       ∧ send_appointment_email u ∈ broker s.1
       ∧ create_calendar_event u ∈ broker s.1).
Proof.
  intros Hinit Hsteps.
  assert (reachable s) as Hreach by (by exists s0).
  destruct (reachable_inv _ Hreach) as (_ & Hjobs & Hall & _).
  rewrite Forall_forall in Hall. split_and!.
  - apply enqueue_only_at_commit.
  - intros request p w p' w' Hstep Hdb.
    destruct (decide (broker w' = broker w)) as [|Hne]; [done|].
    destruct (enqueue_only_at_commit _ _ _ _ _ Hstep Hne)
      as (data & appt & on_commit & _ & Hfresh & Hdb').
    rewrite Hdb in Hdb'. rewrite Hdb' in Hfresh.
    by rewrite lookup_insert_eq in Hfresh.
  - done.
  - intros request p u Hin Hp. specialize (Hall _ Hin).
    destruct Hp as [->|[data [->| ->]]]; by apply Hall.
Qed.

Lemma enqueue_after_commit_witness :
  (* the first request has committed; the second has not moved yet *)
  let s := schedule [0; 0; 0; 0]%nat race_start in
  initial race_start
  ∧ rtc step race_start s
  ∧ booking request_a (at_finally data_a (response_booked "01APPTA")) ∈ s.2
  ∧ is_Some (db s.1 !! "01APPTA")
  ∧ send_appointment_email "01APPTA" ∈ broker s.1
  ∧ create_calendar_event "01APPTA" ∈ broker s.1
  ∧ ∀ j, j ∈ broker s.1 → is_Some (db s.1 !! job_ulid j).
Proof.
  intros s.
  pose proof initial_race_start as Hinit.
  pose proof (schedule_steps [0; 0; 0; 0]%nat race_start) as Hsteps.
  fold s in Hsteps.
  destruct (enqueue_after_commit race_start s Hinit Hsteps)
    as (_ & _ & Hjobs & Hbooked).
  assert (booking request_a (at_finally data_a (response_booked "01APPTA")) ∈ s.2)
    as Hin.
  { vm_compute. by left. }
  destruct (Hbooked request_a _ "01APPTA" Hin) as (_ & ? & ? & ?).
  { right. exists data_a. by left. }
  split_and!; done.
Defined.

(** ** Runs of the system with a free clock *)

Lemma step_free_step s s' : step s s' → free_step s s'.
Proof.
  intros [w pre post t t' w' Hstep|w pool d Hd _].
  - by constructor.
  - by apply free_tick.
Qed.

Lemma run_thread_free_step i s :
  free_step s (run_thread i s) ∨ run_thread i s = s.
Proof.
  destruct (run_thread_step i s) as [Hstep|Hsame]; [left|by right].
  by apply step_free_step.
Qed.

Lemma play_steps l s : Forall forward l → rtc free_step s (play l s).
Proof.
  intros Hl. revert s.
  induction Hl as [|m l Hm _ IH]; intros s; simpl; [done|].
  destruct m as [i|d|target queryset]; simpl.
  - destruct (run_thread_free_step i s) as [Hstep| ->]; [|apply IH].
    eapply rtc_l; [exact Hstep|apply IH].
  - eapply rtc_l; [|apply IH]. destruct s as [w pool]. by apply free_tick.
  - eapply rtc_l; [|apply IH]. destruct s as [w pool]. apply free_staff.
Qed.

Lemma play_app l1 l2 s : play (l1 ++ l2) s = play l2 (play l1 s).
Proof. apply foldl_app. Qed.

Lemma initial_three_requests : initial three_requests.
Proof.
  unfold initial, three_requests. simpl. split_and!.
  - intros k u1 u2 a1 a2 H1. by rewrite lookup_empty in H1.
  - intros j Hj. simpl in Hj. by apply elem_of_nil in Hj.
  - repeat constructor.
  - compute_done.
Qed.

(** C1.  The table does not keep to one pending-or-confirmed row per
    slot in every state the system reaches.  Two requests book the same
    free slot.  The first takes the lock, finds the slot free and
    inserts its row; its commit comes 30 seconds after it took the lock,
    when the lock has expired.  In between the second takes the lock,
    and its conflict query sees no committed row.  Both commit, both are
    answered success, and the table holds two pending rows for the slot.
    With 29 seconds in place of the 30 the second request is refused
    the lock. *)
Theorem slow_request_double_books :
  let s := play slow_commit race_start in
  let sooner :=
    play [move 0; move 0; move 0; wait 29; move 1]%nat race_start in
  initial race_start
  ∧ race sample_slot race_start
  ∧ rtc free_step race_start s
  ∧ s.2 = [booking request_a (returned (response_booked "01APPTA"));
           booking request_b (returned (response_booked "01APPTB"))]
  ∧ db s.1 !! "01APPTA" = Some (new_appointment request_a data_a)
  ∧ db s.1 !! "01APPTB" = Some (new_appointment request_b data_b)
  ∧ occupies sample_slot (new_appointment request_a data_a)
  ∧ occupies sample_slot (new_appointment request_b data_b)
  ∧ ¬ slot_unique (db s.1)
  ∧ sooner.2 !! 1%nat = Some (booking request_b (returned response_lock_failed)).
Proof.
  intros s sooner.
  assert (db s.1 !! "01APPTA" = Some (new_appointment request_a data_a)) as Ha
    by (vm_compute; reflexivity).
  assert (db s.1 !! "01APPTB" = Some (new_appointment request_b data_b)) as Hb
    by (vm_compute; reflexivity).
  assert (occupies sample_slot (new_appointment request_a data_a)) as Hoa
    by (by apply occupies_new_appointment).
  assert (occupies sample_slot (new_appointment request_b data_b)) as Hob
    by (by apply occupies_new_appointment).
  split_and!.
  - apply initial_race_start.
  - apply race_race_start.
  - apply play_steps. unfold slow_commit. repeat constructor; simpl; lia.
  - vm_compute. reflexivity.
  - exact Ha.
  - exact Hb.
  - exact Hoa.
  - exact Hob.
  - intros Huniq.
    specialize (Huniq sample_slot "01APPTA" "01APPTB" _ _ Ha Hb Hoa Hob).
    discriminate Huniq.
  - vm_compute. reflexivity.
Qed.

(** C3.  The release in [finally] is not a compare-and-delete: it reads
    the key, compares, and deletes in a second call.  The first of
    three requests for one slot books it and, 29 seconds after it took
    the lock, reads its own token.  One second later the entry has
    expired and the second request takes the lock.  The delete of the
    first request then removes the lock that holds the token of the
    second, which is inside its transaction; the third request is given
    the lock at once. *)
Theorem stale_release_deletes_foreign_lock :
  let read := play slow_release_read three_requests in
  let taken := play slow_release_taken read in
  let deleted := play slow_release_deleted taken in
  let retaken := play slow_release_retaken deleted in
  let key := lock_key sample_slot in
  initial three_requests
  ∧ rtc free_step three_requests retaken
  ∧ lock_key_of data_a = key ∧ lock_key_of data_b = key
  ∧ lock_key_of data_c = key
  ∧ read.2 !! 0%nat
    = Some (booking request_a (at_release data_a (response_booked "01APPTA")))
  ∧ Cache.get (now read.1) key (cache read.1) = Some (Cache.VStr "01LOCKA")
  ∧ taken.2 !! 1%nat = Some (booking request_b (at_query data_b))
  ∧ Cache.get (now taken.1) key (cache taken.1) = Some (Cache.VStr "01LOCKB")
  ∧ deleted.2 !! 0%nat
    = Some (booking request_a (returned (response_booked "01APPTA")))
  ∧ deleted.2 !! 1%nat = Some (booking request_b (at_query data_b))
  ∧ Cache.get (now deleted.1) key (cache deleted.1) = None
  ∧ retaken.2 !! 2%nat = Some (booking request_c (at_query data_c))
  ∧ Cache.get (now retaken.1) key (cache retaken.1)
    = Some (Cache.VStr "01LOCKC").
Proof.
  intros read taken deleted retaken key.
  split_and!; [apply initial_three_requests| |vm_compute; reflexivity..].
  subst retaken deleted taken read.
  rewrite <- !play_app. apply play_steps.
  unfold slow_release_read, slow_release_taken, slow_release_deleted,
    slow_release_retaken.
  repeat constructor; simpl; lia.
Qed.

(** ** What does not depend on the clock *)














(** ** More on the booking view *)

(** The run of a well-formed request that meets a free slot, a free
    lock and no fault. *)
Lemma appointment_books request data w :
  rq_ajax_post request = true →
  rq_form request = form_valid data →
  rq_fault request = None →
  Cache.get (now w) (lock_key_of data) (cache w) = None →
  free (slot_of data) (db w) →
  db w !! rq_ulid request = None →
  appointment request w
  = (response_booked (rq_ulid request),
     mkWorld (<[rq_ulid request := new_appointment request data]> (db w))
       (Cache.delete (lock_key_of data)
          (Cache.delete (slots_key_of data)
             (invalidate_appointment_cache (new_appointment request data)
                (Cache.set (now w) (lock_key_of data)
                   (Cache.VStr (rq_lock_value request)) LOCK_TTL (cache w)))))
       (broker w ++ [send_appointment_email (rq_ulid request);
                     create_calendar_event (rq_ulid request)])
       (outbox w) (calendar w) (now w)).
Proof.
  intros Hajax Hform Hfault Hlock Hfree Hfresh.
  apply conflict_exists_false in Hfree.
  set (w1 := with_cache
               (Cache.set (now w) (lock_key_of data)
                  (Cache.VStr (rq_lock_value request)) LOCK_TTL (cache w)) w).
  set (appt := new_appointment request data).
  set (w2 := with_cache
               (Cache.delete (slots_key_of data)
                  (invalidate_appointment_cache appt (cache w1))) w1).
  set (jobs := [send_appointment_email (rq_ulid request);
                create_calendar_event (rq_ulid request)]).
  set (w3 := with_broker (broker w2 ++ jobs)
               (with_db (<[rq_ulid request := appt]> (db w2)) w2)).
  set (r := response_booked (rq_ulid request)).
  assert (booking_step request at_start w = (at_query data, w1)) as H1.
  { simpl. unfold acquire_lock. rewrite Hajax, Hform. simpl.
    by rewrite add_stored. }
  assert (booking_step request (at_query data) w1 = (at_create data, w1)) as H2.
  { simpl. unfold query_conflict. rewrite Hfault. simpl. by rewrite Hfree. }
  assert (booking_step request (at_create data) w1 = (at_commit data appt jobs, w2))
    as H3.
  { simpl. unfold create_appointment. rewrite Hfault. simpl. rewrite Hfresh.
    by rewrite (bool_decide_false (is_Some None)) by (by intros [? ?]). }
  assert (booking_step request (at_commit data appt jobs) w2 = (at_finally data r, w3))
    as H4.
  { simpl. unfold commit. rewrite Hfault. simpl. rewrite Hfresh.
    by rewrite (bool_decide_false (is_Some None)) by (by intros [? ?]). }
  assert (booking_step request (at_finally data r) w3 = (at_release data r, w3)) as H5.
  { apply check_lock_own. simpl.
    rewrite get_delete_ne by done. rewrite invalidate_appointment_cache_lock.
    apply get_set_eq. unfold LOCK_TTL. lia. }
  unfold appointment. cbn [booking_run].
  rewrite H1, H2, H3, H4, H5. reflexivity.
Qed.

Lemma booked_trace_step request data p w :
  rq_form request = form_valid data →
  booked_trace request data p w →
  booked_trace request data (booking_step request p w).1 (booking_step request p w).2.
Proof.
  intros Hform Hp. destruct p; simpl in *.
  - unfold acquire_lock. rewrite Hform.
    destruct (rq_ajax_post request); simpl; [|by intros u ?].
    destruct (Cache.add _ _ _ _ _) as [[] c]; simpl; [done|by intros u ?].
  - subst. unfold query_conflict.
    repeat case_match; simpl; try done; split; try done; by intros u ?.
  - subst. unfold create_appointment.
    case_match; simpl; [split; [done|by intros u ?]|].
    split_and!; [done|done|]. apply lookup_delete_eq.
  - destruct Hp as (-> & -> & Hkey). unfold commit.
    case_match; simpl; [split; [done|by intros u ?]|].
    destruct (rq_fault request) as [[]|]; simpl;
      (split; [done|]); intros u Hu; try done;
      injection Hu as <-; simpl; by rewrite lookup_insert_eq.
  - destruct Hp as (-> & Hrow). unfold check_lock. case_match; simpl; done.
  - destruct Hp as (-> & Hrow). intros u Hu.
    destruct (Hrow u Hu) as (? & ? & Hkey). split_and!; [done|done|].
    unfold release_lock, Cache.delete. simpl.
    rewrite lookup_delete_ne by done. done.
  - done.
Qed.

(** What the answer "success" tells about the world the view leaves. *)
Lemma appointment_booked request data w u w' :
  rq_form request = form_valid data →
  appointment request w = (response_booked u, w') →
  booked_row request data (response_booked u) w'.
Proof.
  intros Hform Hrun. apply appointment_run in Hrun.
  pose proof (booking_run_invariant _ request
                (λ p w, booked_trace_step request data p w Hform) 6 at_start w I)
    as Hinv.
  by rewrite Hrun in Hinv.
Qed.

Lemma slot_entry_listed (TIME_SLOTS : list (string * string)) t display
    (s : gset string) b :
  (t, display) ∈ TIME_SLOTS →
  bool_decide (t ∉ s) = b →
  slot_entry t display b
  ∈ (λ td, slot_entry td.1 td.2 (bool_decide (td.1 ∉ s))) <$> TIME_SLOTS.
Proof.
  intros Hin <-. apply list_elem_of_fmap. by exists (t, display).
Qed.

(** X1.  After a booking that the view answered with success, the next
    availability query for the doctor and the day lists the booked time
    as taken, whatever the cache held before the booking: the view
    removed the cached slot set, and the query answers from the table,
    which holds the new row. *)
Theorem booked_slot_shown_taken TIME_SLOTS request data w u w1 display :
  rq_form request = form_valid data →
  cd_date data ≠ "" →
  (cd_time data, display) ∈ TIME_SLOTS →
  appointment request w = (response_booked u, w1) →
  ∃ slots,
    (check_slots_ajax TIME_SLOTS (slots_query data) w1).1 = slots_answer slots
    ∧ slot_entry (cd_time data) display false ∈ slots.
Proof.
  intros Hform Hdate Hslot Hrun.
  destruct (appointment_booked request data w u w1 Hform Hrun u eq_refl)
    as (-> & Hrow & Hkey).
  eexists. split.
  - apply check_slots_ajax_miss; [done|].
    unfold Cache.get. fold (slots_key_of data). by rewrite Hkey.
  - apply slot_entry_listed; [done|]. apply bool_decide_eq_false.
    intros Hnot. apply Hnot. apply elem_of_booked_times.
    exists (rq_ulid request), (new_appointment request data).
    split; [done|]. by apply occupies_new_appointment.
Qed.

Lemma booked_slot_shown_taken_witness :
  ∃ slots,
    (check_slots_ajax sample_slots (slots_query data_a)
       (appointment request_a empty_world).2).1 = slots_answer slots
    ∧ slot_entry "10:00" "10:00 AM" false ∈ slots.
Proof.
  apply (booked_slot_shown_taken sample_slots request_a data_a empty_world
           "01APPTA" _ "10:00 AM").
  - reflexivity.
  - discriminate.
  - apply list_elem_of_further, list_elem_of_here.
  - by vm_compute.
Defined.

(** The availability view on a miss and on a hit of the cache. *)
Lemma check_slots_ajax_fills TIME_SLOTS did date_ w :
  date_ ≠ "" →
  Cache.get (now w) ("slots:" +:+ pretty did +:+ ":" +:+ date_) (cache w) = None →
  check_slots_ajax TIME_SLOTS (mkSlotsRequest (Some did) date_) w
  = (slots_answer
       ((λ td, slot_entry td.1 td.2
                 (bool_decide (td.1 ∉ booked_times did date_ (db w))))
        <$> TIME_SLOTS),
     with_cache
       (Cache.set (now w) ("slots:" +:+ pretty did +:+ ":" +:+ date_)
          (Cache.VSet (booked_times did date_ (db w))) 300 (cache w)) w).
Proof.
  intros Hdate Hmiss. unfold check_slots_ajax. simpl.
  rewrite bool_decide_false by done. rewrite Hmiss.
  by rewrite mapM_slot_entries.
Qed.

Lemma check_slots_ajax_hit TIME_SLOTS did date_ w s :
  date_ ≠ "" →
  Cache.get (now w) ("slots:" +:+ pretty did +:+ ":" +:+ date_) (cache w)
  = Some (Cache.VSet s) →
  check_slots_ajax TIME_SLOTS (mkSlotsRequest (Some did) date_) w
  = (slots_answer
       ((λ td, slot_entry td.1 td.2 (bool_decide (td.1 ∉ s))) <$> TIME_SLOTS), w).
Proof.
  intros Hdate Hhit. unfold check_slots_ajax. simpl.
  rewrite bool_decide_false by done. rewrite Hhit.
  by rewrite mapM_slot_entries.
Qed.

Lemma get_set_live t t' k v timeout c :
  t' ≤ t < t' + timeout →
  Cache.get t k (Cache.set t' k v timeout c) = Some v.
Proof.
  intros Ht. unfold Cache.get, Cache.set, Cache.live.
  rewrite lookup_insert_eq. simpl. rewrite bool_decide_true; [done | lia].
Qed.

Lemma get_set_expired t t' k v timeout c :
  t' + timeout ≤ t →
  Cache.get t k (Cache.set t' k v timeout c) = None.
Proof.
  intros Ht. unfold Cache.get, Cache.set, Cache.live.
  rewrite lookup_insert_eq. simpl. rewrite bool_decide_false; [done | lia].
Qed.

(** X2.  The booking view removes the cached slot set inside its
    transaction, before the commit.  An availability query that another
    user makes between the two finds no cached set, reads the table,
    which does not show the uncommitted row, and caches what it read.
    After the commit the row is in the table, yet for the next 300
    seconds the availability view goes on listing the booked time as
    available. *)
Theorem slots_cache_refilled_before_commit TIME_SLOTS request data w display :
  rq_fault request = None →
  db w !! rq_ulid request = None →
  free (slot_of data) (db w) →
  cd_date data ≠ "" →
  (cd_time data, display) ∈ TIME_SLOTS →
  let created := booking_step request (at_create data) w in
  let queried := check_slots_ajax TIME_SLOTS (slots_query data) created.2 in
  let committed := booking_step request created.1 queried.2 in
  committed.1 = at_finally data (response_booked (rq_ulid request))
  ∧ db committed.2 !! rq_ulid request = Some (new_appointment request data)
  ∧ ∀ d, 0 ≤ d < 300 →
      ∃ slots,
        (check_slots_ajax TIME_SLOTS (slots_query data)
           (with_now (now w + d) committed.2)).1 = slots_answer slots
        ∧ slot_entry (cd_time data) display true ∈ slots.
Proof.
  intros Hfault Hfresh Hfree Hdate Hslot created queried committed.
  assert (created
          = (at_commit data (new_appointment request data)
               [send_appointment_email (rq_ulid request);
                create_calendar_event (rq_ulid request)],
             with_cache
               (Cache.delete (slots_key_of data)
                  (invalidate_appointment_cache (new_appointment request data)
                     (cache w))) w)) as Hcreated.
  { unfold created. simpl. unfold create_appointment. rewrite Hfault. simpl.
    rewrite Hfresh.
    by rewrite (bool_decide_false (is_Some None)) by (by intros [? ?]). }
  assert (queried.2
          = with_cache
              (Cache.set (now w) (slots_key_of data)
                 (Cache.VSet (booked_times (d_id (cd_doctor data)) (cd_date data)
                                (db w))) 300 (cache created.2)) created.2)
    as Hqueried.
  { unfold queried, slots_query. rewrite check_slots_ajax_fills; [by rewrite Hcreated|done|].
    rewrite Hcreated. simpl. apply get_delete_eq. }
  assert (committed
          = (at_finally data (response_booked (rq_ulid request)),
             with_broker
               (broker queried.2
                ++ [send_appointment_email (rq_ulid request);
                    create_calendar_event (rq_ulid request)])
               (with_db (<[rq_ulid request := new_appointment request data]>
                           (db queried.2)) queried.2))) as Hcommitted.
  { unfold committed. rewrite Hcreated at 1. simpl. unfold commit.
    rewrite Hfault. simpl. rewrite Hqueried, Hcreated. simpl. rewrite Hfresh.
    by rewrite (bool_decide_false (is_Some None)) by (by intros [? ?]). }
  rewrite Hcommitted. simpl. split; [done|].
  split; [by rewrite lookup_insert_eq|].
  intros d Hd. eexists. split.
  - unfold slots_query.
    rewrite (check_slots_ajax_hit _ _ _ _
               (booked_times (d_id (cd_doctor data)) (cd_date data) (db w)));
      [done|done|].
    simpl. rewrite Hqueried. simpl. rewrite Hcreated. simpl.
    apply get_set_live. lia.
  - apply slot_entry_listed; [done|]. apply bool_decide_eq_true.
    intros Hin. apply elem_of_booked_times in Hin as (u & a & Hrow & Hocc).
    by apply (Hfree u a).
Qed.

Lemma free_empty k : free k ∅.
Proof. intros u a Hrow. by rewrite lookup_empty in Hrow. Qed.

Lemma slots_cache_refilled_before_commit_witness :
  let created := booking_step request_a (at_create data_a) empty_world in
  let queried := check_slots_ajax sample_slots (slots_query data_a) created.2 in
  let committed := booking_step request_a created.1 queried.2 in
  committed.1 = at_finally data_a (response_booked "01APPTA")
  ∧ db committed.2 !! "01APPTA" = Some (new_appointment request_a data_a)
  ∧ ∀ d, 0 ≤ d < 300 →
      ∃ slots,
        (check_slots_ajax sample_slots (slots_query data_a)
           (with_now (0 + d) committed.2)).1 = slots_answer slots
        ∧ slot_entry "10:00" "10:00 AM" true ∈ slots.
Proof.
  apply (slots_cache_refilled_before_commit sample_slots request_a data_a
           empty_world "10:00 AM").
  - reflexivity.
  - reflexivity.
  - apply free_empty.
  - discriminate.
  - apply list_elem_of_further, list_elem_of_here.
Defined.

(** The run of a well-formed request that gets the lock and finds the
    slot taken. *)
Lemma appointment_conflict request data w :
  rq_ajax_post request = true →
  rq_form request = form_valid data →
  rq_fault request = None →
  Cache.get (now w) (lock_key_of data) (cache w) = None →
  conflict_exists (slot_of data) (db w) = true →
  appointment request w
  = (response_conflict,
     with_cache
       (Cache.delete (lock_key_of data)
          (Cache.set (now w) (lock_key_of data)
             (Cache.VStr (rq_lock_value request)) LOCK_TTL (cache w))) w).
Proof.
  intros Hajax Hform Hfault Hlock Htaken.
  set (w1 := with_cache
               (Cache.set (now w) (lock_key_of data)
                  (Cache.VStr (rq_lock_value request)) LOCK_TTL (cache w)) w).
  assert (booking_step request at_start w = (at_query data, w1)) as H1.
  { simpl. unfold acquire_lock. rewrite Hajax, Hform. simpl.
    by rewrite add_stored. }
  assert (booking_step request (at_query data) w1
          = (at_finally data response_conflict, w1)) as H2.
  { simpl. unfold query_conflict. rewrite Hfault. simpl. by rewrite Htaken. }
  assert (booking_step request (at_finally data response_conflict) w1
          = (at_release data response_conflict, w1)) as H3.
  { apply check_lock_own. simpl. apply get_set_eq. unfold LOCK_TTL. lia. }
  unfold appointment. cbn [booking_run].
  rewrite H1, H2, H3. reflexivity.
Qed.

(** X3.  When the broker refuses the first job (the [delay] called by
    the first [on_commit] callback raises), the transaction is already
    committed: the view answers 500, "Failed to book appointment", yet
    the appointment is in the table and no job is queued for it.  The
    user who asks for the slot again is answered 409. *)
Theorem booking_kept_when_enqueue_fails request again data w :
  rq_ajax_post request = true →
  rq_form request = form_valid data →
  rq_fault request = Some fault_enqueue_email →
  Cache.get (now w) (lock_key_of data) (cache w) = None →
  free (slot_of data) (db w) →
  db w !! rq_ulid request = None →
  rq_ajax_post again = true →
  rq_form again = form_valid data →
  rq_fault again = None →
  let failed := appointment request w in
  let retried := appointment again failed.2 in
  failed.1
  = JsonResponse
      [("status", JStr "error");
       ("message", JStr "Failed to book appointment. Please try again.")]
      500
  ∧ db failed.2 = <[rq_ulid request := new_appointment request data]> (db w)
  ∧ broker failed.2 = broker w
  ∧ retried.1
    = JsonResponse
        [("status", JStr "error");
         ("message", JStr "This time slot is no longer available.")]
        409
  ∧ db retried.2 = db failed.2.
Proof.
  intros Hajax Hform Hfault Hlock Hfree Hfresh Hajax' Hform' Hfault'.
  apply conflict_exists_false in Hfree.
  set (w1 := with_cache
               (Cache.set (now w) (lock_key_of data)
                  (Cache.VStr (rq_lock_value request)) LOCK_TTL (cache w)) w).
  set (appt := new_appointment request data).
  set (w2 := with_cache
               (Cache.delete (slots_key_of data)
                  (invalidate_appointment_cache appt (cache w1))) w1).
  set (jobs := [send_appointment_email (rq_ulid request);
                create_calendar_event (rq_ulid request)]).
  set (w3 := with_db (<[rq_ulid request := appt]> (db w2)) w2).
  assert (booking_step request at_start w = (at_query data, w1)) as H1.
  { simpl. unfold acquire_lock. rewrite Hajax, Hform. simpl.
    by rewrite add_stored. }
  assert (booking_step request (at_query data) w1 = (at_create data, w1)) as H2.
  { simpl. unfold query_conflict. rewrite Hfault. simpl. by rewrite Hfree. }
  assert (booking_step request (at_create data) w1 = (at_commit data appt jobs, w2))
    as H3.
  { simpl. unfold create_appointment. rewrite Hfault. simpl. rewrite Hfresh.
    by rewrite (bool_decide_false (is_Some None)) by (by intros [? ?]). }
  assert (booking_step request (at_commit data appt jobs) w2
          = (at_finally data response_failed, w3)) as H4.
  { simpl. unfold commit. rewrite Hfault. simpl. rewrite Hfresh.
    by rewrite (bool_decide_false (is_Some None)) by (by intros [? ?]). }
  assert (booking_step request (at_finally data response_failed) w3
          = (at_release data response_failed, w3)) as H5.
  { apply check_lock_own. simpl.
    rewrite get_delete_ne by done. rewrite invalidate_appointment_cache_lock.
    apply get_set_eq. unfold LOCK_TTL. lia. }
  assert (appointment request w = (response_failed, release_lock data w3)) as ->.
  { unfold appointment. cbn [booking_run].
    rewrite H1, H2, H3, H4, H5. reflexivity. }
  cbn [fst snd].
  rewrite (appointment_conflict again data (release_lock data w3)); try done.
  - simpl. apply get_delete_eq.
  - apply bool_decide_eq_true. exists (rq_ulid request), appt. split.
    + simpl. apply lookup_insert_eq.
    + by apply occupies_new_appointment.
Qed.

Lemma booking_kept_when_enqueue_fails_witness :
  let request :=
    mkBookingRequest 7 true (form_valid data_a) "01LOCKA" "01APPTA"
      (Some fault_enqueue_email) in
  let again :=
    mkBookingRequest 7 true (form_valid data_a) "01LOCKC" "01APPTC" None in
  let failed := appointment request empty_world in
  let retried := appointment again failed.2 in
  failed.1
  = JsonResponse
      [("status", JStr "error");
       ("message", JStr "Failed to book appointment. Please try again.")]
      500
  ∧ db failed.2 = <["01APPTA" := new_appointment request data_a]> ∅
  ∧ broker failed.2 = []
  ∧ retried.1
    = JsonResponse
        [("status", JStr "error");
         ("message", JStr "This time slot is no longer available.")]
        409
  ∧ db retried.2 = db failed.2.
Proof.
  intros request again.
  apply (booking_kept_when_enqueue_fails request again data_a empty_world).
  - reflexivity.
  - reflexivity.
  - reflexivity.
  - reflexivity.
  - apply free_empty.
  - reflexivity.
  - reflexivity.
  - reflexivity.
  - reflexivity.
Defined.

Lemma own_trace_step request w p w1 :
  own_trace request w p w1 →
  own_trace request w (booking_step request p w1).1 (booking_step request p w1).2.
Proof.
  intros [(Hout & Hcal & Hnow & Hothers & Hown & js & Hjobs & Hjs) Hp].
  assert (∀ c, own_effects request w (with_cache c w1)) as Hcache.
  { intros c. unfold own_effects. simpl. split_and!; try done. by exists js. }
  assert (own_effects request w w1) as Hsame.
  { unfold own_effects. split_and!; try done. by exists js. }
  destruct p; simpl.
  - destruct (acquire_lock request w1) as [p' w'] eqn:Hstep.
    apply acquire_lock_spec in Hstep as [(-> & r & -> & _)|(data & -> & _ & ->)];
      (split; [done || apply Hcache|done]).
  - unfold query_conflict. by repeat case_match.
  - destruct (create_appointment request data w1) as [p' w'] eqn:Hstep.
    apply create_appointment_spec in Hstep as [(-> & ->)|(_ & -> & ->)];
      (split; [done || apply Hcache|done]).
  - destruct (commit request data appt on_commit w1) as [p' w'] eqn:Hstep.
    apply (commit_spec _ _ _ _ _ _ _ Hp) in Hstep
      as [(-> & ->)|(Hrow & js' & r & -> & -> & Hjs' & _)]; [done|].
    split; [|done]. unfold own_effects. simpl. split_and!; try done.
    + intros u Hu. rewrite lookup_insert_ne by done. by apply Hothers.
    + intros a Ha. apply Hown in Ha. congruence.
    + exists (js ++ js'). rewrite Hjobs, <- (assoc_L (++)). split; [done|].
      intros j [?|?]%elem_of_app; auto.
  - unfold check_lock. by case_match.
  - split; [apply Hcache|done].
  - done.
Qed.

(** X4.  The booking view sends no mail and calls no calendar itself,
    and leaves the clock alone; it never alters or removes a row that
    was in the table, adds at most the row under the ulid drawn for the
    request, and queues jobs for that row only.  This holds for every
    request and every fault. *)
Theorem appointment_touches_only_its_own request w :
  let w' := (appointment request w).2 in
  outbox w' = outbox w ∧ calendar w' = calendar w ∧ now w' = now w
  ∧ (∀ u, u ≠ rq_ulid request → db w' !! u = db w !! u)
  ∧ (∀ a, db w !! rq_ulid request = Some a → db w' !! rq_ulid request = Some a)
  ∧ ∃ js, broker w' = broker w ++ js
          ∧ ∀ j, j ∈ js → job_ulid j = rq_ulid request.
Proof.
  change (own_effects request w (appointment request w).2).
  destruct (booking_run_returns request w) as (r & w' & Hrun).
  pose proof (proj2 (appointment_run request w r w') Hrun) as ->.
  assert (own_trace request w at_start w) as Hstart.
  { split; [|done]. unfold own_effects. split_and!; try done.
    exists []. rewrite app_nil_r. split; [done|]. by intros j ?%elem_of_nil. }
  pose proof (booking_run_invariant (own_trace request w) request
                (own_trace_step request w) 6 at_start w Hstart) as Hinv.
  rewrite Hrun in Hinv. by destruct Hinv.
Qed.

(** X24.  The release of the lock is two calls, a read and a delete,
    and the lock can change hands between them.  Let a request hold the
    lock when the [finally] block reads it, and let the entry expire
    before the delete (the entry lasts 30 seconds from the moment the
    lock was taken, whatever the request has been doing since).  A
    second request for the slot then takes the lock with [cache.add],
    and the delete of the first removes the lock of the second while the
    second is inside its transaction. *)
Theorem release_removes_later_lock first second data data' r w stall :
  slot_of data' = slot_of data →
  rq_ajax_post second = true →
  rq_form second = form_valid data' →
  Cache.get (now w) (lock_key_of data) (cache w)
  = Some (Cache.VStr (rq_lock_value first)) →
  Cache.get (now w + stall) (lock_key_of data) (cache w) = None →
  let read := booking_step first (at_finally data r) w in
  let taken := booking_step second at_start (after stall read.2) in
  let deleted := booking_step first read.1 taken.2 in
  read = (at_release data r, w)
  ∧ taken.1 = at_query data'
  ∧ Cache.get (now taken.2) (lock_key_of data') (cache taken.2)
    = Some (Cache.VStr (rq_lock_value second))
  ∧ deleted.1 = returned r
  ∧ Cache.get (now deleted.2) (lock_key_of data') (cache deleted.2) = None.
Proof.
  intros Hslot Hajax Hform Hheld Hexpired read taken deleted.
  pose proof (lock_key_of_slot _ _ Hslot) as Hkey.
  assert (read = (at_release data r, w)) as Hread.
  { by apply check_lock_own. }
  assert (taken
          = (at_query data',
             with_cache
               (Cache.set (now w + stall) (lock_key_of data')
                  (Cache.VStr (rq_lock_value second)) LOCK_TTL (cache w))
               (after stall w))) as Htaken.
  { subst taken. rewrite Hread. simpl. unfold acquire_lock.
    rewrite Hajax, Hform. simpl. rewrite add_stored; [done|].
    by rewrite Hkey. }
  subst deleted. rewrite Htaken, Hread. simpl.
  split_and!; [done|done| |done|].
  - apply get_set_eq. unfold LOCK_TTL. lia.
  - rewrite Hkey. apply get_delete_eq.
Qed.

Lemma release_removes_later_lock_witness :
  let w := (booking_step request_a at_start empty_world).2 in
  let read :=
    booking_step request_a (at_finally data_a response_conflict) (after 29 w) in
  let taken := booking_step request_b at_start (after 1 read.2) in
  let deleted := booking_step request_a read.1 taken.2 in
  read = (at_release data_a response_conflict, after 29 w)
  ∧ taken.1 = at_query data_b
  ∧ Cache.get (now taken.2) (lock_key_of data_b) (cache taken.2)
    = Some (Cache.VStr (rq_lock_value request_b))
  ∧ deleted.1 = returned response_conflict
  ∧ Cache.get (now deleted.2) (lock_key_of data_b) (cache deleted.2) = None.
Proof.
  intros w.
  apply (release_removes_later_lock request_a request_b data_a data_b
           response_conflict (after 29 w) 1).
  - reflexivity.
  - reflexivity.
  - reflexivity.
  - by vm_compute.
  - by vm_compute.
Defined.

(** ** More on the cancellation view *)

(** What the answer "cancelled" tells about the run. *)
Lemma cancel_appointment_success request w w1 :
  cancel_appointment request w = (response_cancelled, w1) →
  ∃ appt,
    db w !! cr_appointment_id request = Some appt
    ∧ user appt = cr_user request
    ∧ cancellable (status appt)
    ∧ db w1 = <[cr_appointment_id request := with_status cancelled appt]> (db w)
    ∧ broker w1
      = broker w ++ [send_appointment_cancel_email (cr_appointment_id request)]
    ∧ outbox w1 = outbox w ∧ calendar w1 = calendar w ∧ now w1 = now w
    ∧ cache w1
      = invalidate_user_cache (cr_user request)
          (Cache.delete
             ("slots:" +:+ str_opt_id (doctor_id appt) +:+ ":" +:+ date appt)
             (invalidate_appointment_cache (with_status cancelled appt) (cache w))).
Proof.
  unfold cancel_appointment.
  destruct (get_owned _ _ _) as [appt|] eqn:Hget; [|done].
  apply get_owned_Some in Hget as [Hrow Huser].
  destruct (bool_decide (status appt ∈ [cancelled; completed; confirmed])) eqn:Hguard;
    [done|].
  apply cancel_guard in Hguard. intros [= <-]. exists appt. by split_and!.
Qed.

(** X5.  A cancellation takes effect once.  After the view has
    cancelled an appointment, the same request is answered 400, "Cannot
    cancel cancelled appointment", and changes nothing: the cancellation
    mail is queued once, however often the user repeats the request. *)
Theorem cancel_appointment_once request w w1 :
  cancel_appointment request w = (response_cancelled, w1) →
  broker w1 = broker w ++ [send_appointment_cancel_email (cr_appointment_id request)]
  ∧ cancel_appointment request w1
    = (JsonResponse
         [("status", JStr "error");
          ("message", JStr "Cannot cancel cancelled appointment")]
         400, w1).
Proof.
  intros Hrun.
  apply cancel_appointment_success in Hrun
    as (appt & Hrow & Huser & Hs & Hdb & Hbroker & _).
  split; [done|].
  apply (cancel_appointment_rejects request w1 (with_status cancelled appt)).
  - apply get_owned_Some. rewrite Hdb, lookup_insert_eq. done.
  - intros [?|?]; done.
Qed.

Lemma cancel_appointment_once_witness :
  let request := mkCancelRequest 7 "A1" in
  let w1 := (cancel_appointment request one_row_world).2 in
  broker w1 = [] ++ [send_appointment_cancel_email "A1"]
  ∧ cancel_appointment request w1
    = (JsonResponse
         [("status", JStr "error");
          ("message", JStr "Cannot cancel cancelled appointment")]
         400, w1).
Proof.
  intros request w1.
  apply (cancel_appointment_once request one_row_world w1).
  by vm_compute.
Defined.

Lemma cancel_appointment_lock request w w1 t data :
  cancel_appointment request w = (response_cancelled, w1) →
  Cache.get t (lock_key_of data) (cache w1) = Cache.get t (lock_key_of data) (cache w).
Proof.
  intros Hrun.
  apply cancel_appointment_success in Hrun as (appt & _ & _ & _ & _ & _ & _ & _ & _ & ->).
  rewrite invalidate_user_cache_lock, get_delete_ne by done.
  apply invalidate_appointment_cache_lock.
Qed.

(** X6.  A slot that a cancellation has given up can be booked again at
    once.  If the table holds at most one pending-or-confirmed row per
    slot and the owner cancels the row that occupies a slot, then a
    well-formed booking request for that slot that meets no fault is
    answered with success, and afterwards the new row is the only one
    that occupies the slot. *)
Theorem cancelled_slot_can_be_rebooked cancel request data w w1 appt :
  slot_unique (db w) →
  db w !! cr_appointment_id cancel = Some appt →
  occupies (slot_of data) appt →
  cancel_appointment cancel w = (response_cancelled, w1) →
  rq_ajax_post request = true →
  rq_form request = form_valid data →
  rq_fault request = None →
  Cache.get (now w) (lock_key_of data) (cache w) = None →
  db w !! rq_ulid request = None →
  ∃ w2,
    appointment request w1 = (response_booked (rq_ulid request), w2)
    ∧ db w2 !! rq_ulid request = Some (new_appointment request data)
    ∧ ∀ u a, db w2 !! u = Some a → occupies (slot_of data) a → u = rq_ulid request.
Proof.
  intros Huniq Hrow Hocc Hcancel Hajax Hform Hfault Hlock Hfresh.
  pose proof (cancel_appointment_lock cancel w w1 (now w) data Hcancel) as Hlock1.
  apply cancel_appointment_success in Hcancel
    as (appt' & Hrow' & _ & _ & Hdb & _ & _ & _ & Hnow & _).
  assert (appt' = appt) as -> by congruence.
  assert (free (slot_of data) (db w1)) as Hfree.
  { intros u a Hu Ha. rewrite Hdb in Hu.
    destruct (decide (u = cr_appointment_id cancel)) as [->|Hne].
    - rewrite lookup_insert_eq in Hu. injection Hu as <-.
      by apply not_occupies_cancelled in Ha.
    - rewrite lookup_insert_ne in Hu by done.
      by pose proof (Huniq _ _ _ _ _ Hu Hrow Ha Hocc). }
  assert (db w1 !! rq_ulid request = None) as Hfresh1.
  { rewrite Hdb, lookup_insert_ne; [done|]. intros Heq. congruence. }
  eexists. split; [|split].
  - apply appointment_books; try done. by rewrite Hnow, Hlock1.
  - simpl. apply lookup_insert_eq.
  - simpl. intros u a Hu Ha.
    destruct (decide (u = rq_ulid request)) as [->|Hne]; [done|].
    rewrite lookup_insert_ne in Hu by done. by destruct (Hfree u a).
Qed.

Lemma cancelled_slot_can_be_rebooked_witness :
  let cancel := mkCancelRequest 7 "A1" in
  let w1 := (cancel_appointment cancel one_row_world).2 in
  ∃ w2,
    appointment request_b w1 = (response_booked "01APPTB", w2)
    ∧ db w2 !! "01APPTB" = Some (new_appointment request_b data_b)
    ∧ ∀ u a, db w2 !! u = Some a → occupies (slot_of data_b) a → u = "01APPTB".
Proof.
  intros cancel w1.
  apply (cancelled_slot_can_be_rebooked cancel request_b data_b one_row_world w1
           pending_row).
  - intros k u1 u2 a1 a2 H1 H2 _ _. simpl in H1, H2.
    apply lookup_singleton_Some in H1 as [<- _].
    by apply lookup_singleton_Some in H2 as [<- _].
  - reflexivity.
  - by vm_compute.
  - by vm_compute.
  - reflexivity.
  - reflexivity.
  - reflexivity.
  - reflexivity.
  - reflexivity.
Defined.

(** X7.  The cancellation view leaves the calendar alone: it makes no
    call, keeps the event id on the row and queues the cancellation mail
    and nothing else, so an event created before the cancellation stays
    in the calendar.  A calendar job for the appointment that runs after
    the cancellation is skipped and makes no call either. *)
Theorem cancelled_appointment_gets_no_event env request w w1 retries :
  cancel_appointment request w = (response_cancelled, w1) →
  calendar w1 = calendar w
  ∧ (calendar_event_id <$> db w1 !! cr_appointment_id request)
    = (calendar_event_id <$> db w !! cr_appointment_id request)
  ∧ broker w1 = broker w ++ [send_appointment_cancel_email (cr_appointment_id request)]
  ∧ ∃ reason,
      create_calendar_event_task env (cr_appointment_id request) retries w1
      = (task_returns
           (JObj [("status", JStr "skipped"); ("reason", JStr reason)]), w1).
Proof.
  intros Hrun.
  apply cancel_appointment_success in Hrun
    as (appt & Hrow & _ & _ & Hdb & Hbroker & _ & Hcal & _).
  split_and!; [done| |done|].
  - by rewrite Hdb, lookup_insert_eq, Hrow.
  - unfold create_calendar_event_task. rewrite Hdb, lookup_insert_eq.
    destruct (has_event_id (with_status cancelled appt)); [by eexists|].
    simpl. by eexists.
Qed.

Lemma cancelled_appointment_gets_no_event_witness :
  let request := mkCancelRequest 7 "A1" in
  let w1 := (cancel_appointment request one_row_world).2 in
  calendar w1 = []
  ∧ (calendar_event_id <$> db w1 !! "A1")
    = (calendar_event_id <$> db one_row_world !! "A1")
  ∧ broker w1 = [] ++ [send_appointment_cancel_email "A1"]
  ∧ ∃ reason,
      create_calendar_event_task sample_env "A1" 0 w1
      = (task_returns
           (JObj [("status", JStr "skipped"); ("reason", JStr reason)]), w1).
Proof.
  intros request w1.
  apply (cancelled_appointment_gets_no_event sample_env request one_row_world w1 0).
  by vm_compute.
Defined.

(** ** More on the jobs *)

(** The first mail that the server refuses stops the run; the mails
    before it are out. *)
Lemma send_each_refused env ms1 m ms2 sent :
  Forall (λ m, delivers env m = true) ms1 →
  delivers env m = false →
  send_each env (ms1 ++ m :: ms2) sent = (false, sent ++ ms1).
Proof.
  revert sent. induction ms1 as [|m1 ms1 IH]; intros sent Hall Hm; simpl.
  - unfold send_html_email. rewrite Hm. by rewrite app_nil_r.
  - inversion Hall as [|?? Hm1 Hms1]; subst. unfold send_html_email.
    rewrite Hm1. rewrite IH by done. by rewrite <- app_assoc.
Qed.

(** X8.  The confirmation job starts over when it is retried.  If the
    mail server takes the first [n] mails of a confirmation and refuses
    the next, the run asks for a retry after 10 seconds and stores no
    marker; the retry that finds the server willing sends all the mails,
    so the [n] mails that were out already are delivered a second time. *)
Theorem retry_repeats_delivered_mails env1 env2 u appt w retries d n m :
  db w !! u = Some appt →
  cache w !! email_sent_key u = None →
  let mails := appointment_emails env1 appt in
  mails !! n = Some m →
  Forall (λ m, delivers env1 m = true) (take n mails) →
  delivers env1 m = false →
  appointment_emails env2 appt = mails →
  Forall (λ m, delivers env2 m = true) mails →
  (retries < 3)%nat →
  let run1 := send_appointment_email_task env1 u retries w in
  let run2 :=
    send_appointment_email_task env2 u (S retries) (with_now (now w + d) run1.2) in
  run1.1 = task_retry (Some 10)
  ∧ run2.1 = task_returns (JStr "sent")
  ∧ outbox run2.2 = outbox w ++ take n mails ++ mails.
Proof.
  intros Hrow Hmarker mails Hm Htaken Hrefused Hsame Hall Hretries run1 run2.
  assert (Cache.get (now w) (email_sent_key u) (cache w) = None) as Hget.
  { unfold Cache.get. by rewrite Hmarker. }
  assert (run1 = (task_retry (Some 10), with_outbox (outbox w ++ take n mails) w))
    as Hrun1.
  { subst run1. unfold send_appointment_email_task.
    rewrite Hget, Hrow. simpl. unfold send_appointment_emails. fold mails.
    rewrite <- (take_drop_middle mails n m Hm) at 1.
    rewrite send_each_refused by done.
    unfold self_retry. by rewrite bool_decide_true. }
  assert (run2.1 = task_returns (JStr "sent")
          ∧ outbox run2.2 = (outbox w ++ take n mails) ++ mails) as [Hr Ho].
  { subst run2. rewrite Hrun1. unfold send_appointment_email_task. simpl.
    unfold Cache.get. rewrite Hmarker. simpl. rewrite Hrow.
    unfold send_appointment_emails. rewrite Hsame.
    by rewrite send_each_delivered. }
  rewrite Hrun1. split_and!; [done|done|]. by rewrite Ho, <- app_assoc.
Qed.

Lemma retry_repeats_delivered_mails_witness :
  let mails := appointment_emails admin_mail_refused pending_row in
  let run1 := send_appointment_email_task admin_mail_refused "A1" 0 one_row_world in
  let run2 :=
    send_appointment_email_task sample_env "A1" 1 (with_now (0 + 10) run1.2) in
  run1.1 = task_retry (Some 10)
  ∧ run2.1 = task_returns (JStr "sent")
  ∧ outbox run2.2 = [] ++ take 1 mails ++ mails.
Proof.
  eapply (retry_repeats_delivered_mails admin_mail_refused sample_env "A1"
            pending_row one_row_world 0 10 1).
  - reflexivity.
  - reflexivity.
  - reflexivity.
  - repeat constructor.
  - reflexivity.
  - reflexivity.
  - repeat constructor.
  - lia.
Defined.

(** X9.  The welcome job sends its mail at most once in 24 hours.  With
    no marker in the cache and a mail server that takes the mail, a run
    sends the one welcome mail to the address it was given, stores the
    marker [welcome_email_sent:<user id>] for 24 hours and answers
    "sent"; a run for the same user less than 24 hours later answers
    "skipped" and sends nothing, whatever name and address it is given. *)
Theorem welcome_email_once env user_id username address is_social
    username' address' is_social' retries retries' w d :
  Cache.truthy (Cache.get (now w) (welcome_sent_key user_id) (cache w)) = false →
  delivers env (welcome_email address) = true →
  0 ≤ d < 86400 →
  let run1 :=
    send_welcome_email_task env user_id username address is_social retries w in
  let later := with_now (now w + d) run1.2 in
  run1.1 = task_returns (JStr "sent")
  ∧ outbox run1.2 = outbox w ++ [welcome_email address]
  ∧ send_welcome_email_task env user_id username' address' is_social'
      retries' later
    = (task_returns (JStr "skipped"), later).
Proof.
  intros Hfresh Hmail Hd run1.
  assert (run1 = (task_returns (JStr "sent"),
                  with_cache
                    (Cache.set (now w) (welcome_sent_key user_id)
                       (Cache.VBool true) 86400 (cache w))
                    (with_outbox (outbox w ++ [welcome_email address]) w)))
    as Hrun1.
  { subst run1. unfold send_welcome_email_task, send_html_email.
    by rewrite Hfresh, Hmail. }
  rewrite Hrun1. simpl. split_and!; [done|done|].
  unfold send_welcome_email_task. simpl.
  rewrite get_set_live by lia. done.
Qed.

Lemma welcome_email_once_witness :
  let run1 :=
    send_welcome_email_task sample_env 7 "ann" "ann@example.test" false 0
      empty_world in
  let later := with_now (0 + 3600) run1.2 in
  run1.1 = task_returns (JStr "sent")
  ∧ outbox run1.2 = [] ++ [welcome_email "ann@example.test"]
  ∧ send_welcome_email_task sample_env 7 "ann" "ann@example.test" false 0 later
    = (task_returns (JStr "skipped"), later).
Proof.
  apply (welcome_email_once sample_env 7 "ann" "ann@example.test" false
           "ann" "ann@example.test" false 0 0 empty_world 3600).
  - reflexivity.
  - reflexivity.
  - lia.
Defined.

Lemma delete_absent (c : gmap string Cache.entry) k key :
  c !! key = None → Cache.delete k c !! key = None.
Proof. intros H. unfold Cache.delete. apply lookup_delete_None. by right. Qed.

Lemma cancel_appointment_absent request w w1 key :
  cancel_appointment request w = (response_cancelled, w1) →
  cache w !! key = None → cache w1 !! key = None.
Proof.
  intros Hrun Hkey.
  apply cancel_appointment_success in Hrun
    as (appt & _ & _ & _ & _ & _ & _ & _ & _ & ->).
  unfold invalidate_user_cache, invalidate_appointment_cache. simpl.
  by repeat apply delete_absent.
Qed.

(** X10.  From the cancellation to the mail.  After the view has
    cancelled an appointment, its job is on the broker; run with a mail
    server that takes the mails and no marker in the cache, the job
    sends the cancellation mails of the cancelled row (to the patient,
    and to the doctor when the row has one with an address), stores the
    marker [appointment_cancel_email_sent:<ulid>] and answers "sent"; a
    second delivery of the job less than 24 hours later answers
    "skipped" and sends nothing. *)
Theorem cancellation_mail_once env get_service_display request w w1 appt label
    retries retries' d :
  cancel_appointment request w = (response_cancelled, w1) →
  db w !! cr_appointment_id request = Some appt →
  cache w !! cancel_email_sent_key (cr_appointment_id request) = None →
  let row := with_status cancelled appt in
  get_service_display row = Some label →
  Forall (λ m, delivers env m = true) (cancellation_emails label row) →
  0 ≤ d < 86400 →
  let run1 :=
    send_appointment_cancel_email_task env get_service_display
      (cr_appointment_id request) retries w1 in
  let later := with_now (now w + d) run1.2 in
  send_appointment_cancel_email (cr_appointment_id request) ∈ broker w1
  ∧ run1.1 = task_returns (JStr "sent")
  ∧ outbox run1.2 = outbox w ++ cancellation_emails label row
  ∧ send_appointment_cancel_email_task env get_service_display
      (cr_appointment_id request) retries' later
    = (task_returns (JStr "skipped"), later).
Proof.
  intros Hrun Hrow Hmarker row Hlabel Hmail Hd run1 later.
  pose proof (cancel_appointment_absent _ _ _ _ Hrun Hmarker) as Hmarker1.
  apply cancel_appointment_success in Hrun
    as (appt' & Hrow' & _ & _ & Hdb & Hbroker & Hout & _ & Hnow & _).
  assert (appt' = appt) as -> by congruence.
  assert (run1 = (task_returns (JStr "sent"),
                  with_cache
                    (Cache.set (now w1)
                       (cancel_email_sent_key (cr_appointment_id request))
                       (Cache.VBool true) 86400 (cache w1))
                    (with_outbox (outbox w1 ++ cancellation_emails label row) w1)))
    as Hrun1.
  { subst run1. unfold send_appointment_cancel_email_task.
    unfold Cache.get at 1. rewrite Hmarker1. simpl.
    rewrite Hdb, lookup_insert_eq.
    unfold send_appointment_cancellation_email. fold row. rewrite Hlabel.
    by rewrite send_each_delivered. }
  subst later. rewrite Hrun1. simpl. split_and!.
  - rewrite Hbroker. set_solver.
  - done.
  - by rewrite Hout.
  - unfold send_appointment_cancel_email_task. simpl.
    rewrite Hnow, get_set_live by lia. done.
Qed.

Lemma cancellation_mail_once_witness :
  let request := mkCancelRequest 7 "A1" in
  let w1 := (cancel_appointment request one_row_world).2 in
  let row := with_status cancelled pending_row in
  let run1 :=
    send_appointment_cancel_email_task sample_env (λ a, Some (service a))
      "A1" 0 w1 in
  let later := with_now (0 + 60) run1.2 in
  send_appointment_cancel_email "A1" ∈ broker w1
  ∧ run1.1 = task_returns (JStr "sent")
  ∧ outbox run1.2 = [] ++ cancellation_emails "cleaning" row
  ∧ send_appointment_cancel_email_task sample_env (λ a, Some (service a))
      "A1" 1 later
    = (task_returns (JStr "skipped"), later).
Proof.
  intros request w1.
  apply (cancellation_mail_once sample_env (λ a, Some (service a)) request
           one_row_world w1 pending_row "cleaning" 0 1 60).
  - by vm_compute.
  - reflexivity.
  - reflexivity.
  - reflexivity.
  - repeat constructor.
  - lia.
Defined.

(** ** The staff actions *)

(** X11.  A staff edit that sets an appointment back to pending tells
    the staff that a notification was queued, and the job it queues
    sends no mail: the status-change mails know no text for "pending".
    The job answers "sent" all the same. *)
Theorem pending_notification_sends_nothing env enqueue_error u obj original w
    retries :
  db w !! u = Some original →
  status original ≠ pending →
  status obj = pending →
  enqueue_error
    (send_appointment_status_update_email_job u (status original) pending) = None →
  let edit := save_model enqueue_error true u obj w in
  edit.1 = Some [(SUCCESS,
                  "Status updated and notification email queued for "
                  +:+ email obj)]
  ∧ db edit.2 !! u = Some obj
  ∧ broker edit.2
    = broker w
      ++ [send_appointment_status_update_email_job u (status original) pending]
  ∧ send_appointment_status_update_email_task env u (status original) pending
      retries edit.2
    = (task_returns (JStr "sent"), edit.2).
Proof.
  intros Hrow Hold Hnew Hbroker edit.
  assert (edit
          = (Some [(SUCCESS,
                    "Status updated and notification email queued for "
                    +:+ email obj)],
             with_broker
               (broker w
                ++ [send_appointment_status_update_email_job u (status original)
                      pending])
               (save u obj w))) as ->.
  { subst edit. unfold save_model. rewrite Hrow, Hnew.
    rewrite bool_decide_true by done. by rewrite Hbroker. }
  simpl. split_and!; [done|apply lookup_insert_eq|done|].
  unfold send_appointment_status_update_email_task. simpl.
  rewrite lookup_insert_eq.
  unfold send_appointment_status_update_email, status_update_emails.
  rewrite bool_decide_false by done. simpl. destruct w; done.
Qed.

Lemma pending_notification_sends_nothing_witness :
  let w := mkWorld {[ "A1" := rescheduled_row ]} ∅ [] [] [] 0 in
  let obj := with_status pending rescheduled_row in
  let edit := save_model (λ _, None) true "A1" obj w in
  edit.1 = Some [(SUCCESS,
                  "Status updated and notification email queued for "
                  +:+ email obj)]
  ∧ db edit.2 !! "A1" = Some obj
  ∧ broker edit.2
    = [] ++ [send_appointment_status_update_email_job "A1" rescheduled pending]
  ∧ send_appointment_status_update_email_task sample_env "A1" rescheduled pending
      0 edit.2
    = (task_returns (JStr "sent"), edit.2).
Proof.
  intros w obj.
  apply (pending_notification_sends_nothing sample_env (λ _, None) "A1" obj
           rescheduled_row w 0).
  - reflexivity.
  - discriminate.
  - reflexivity.
  - reflexivity.
Defined.

Lemma mark_as_step_jobs target w row :
  let w' :=
    (let '(u, appointment) := row in
     let old_status := status appointment in
     if bool_decide (old_status ≠ target) then
       let w := save u (with_status target appointment) w in
       with_broker
         (broker w
          ++ [send_appointment_status_update_email_job u old_status target]) w
     else w) in
  ∃ js, broker w' = broker w ++ js ∧ Forall status_changed js.
Proof.
  destruct row as [u a]. simpl. case_bool_decide as Hs; simpl.
  - eexists. split; [done|]. by repeat constructor.
  - exists []. by rewrite app_nil_r.
Qed.

(** X12.  Every notification job that the staff console queues, by the
    edit form or by one of the bulk actions, names two different
    statuses: the early return for equal statuses in
    [send_appointment_status_update_email] is never taken on behalf of
    the console.  Nothing but such jobs is added to the broker. *)
Theorem admin_jobs_name_a_change :
  (∀ enqueue_error change u obj w,
     ∃ js, broker (save_model enqueue_error change u obj w).2 = broker w ++ js
           ∧ Forall status_changed js)
  ∧ (∀ target queryset w,
       ∃ js, broker (mark_as target queryset w) = broker w ++ js
             ∧ Forall status_changed js).
Proof.
  split.
  - intros enqueue_error change u obj w. unfold save_model.
    assert (∃ js, broker w = broker w ++ js ∧ Forall status_changed js) as Hnone.
    { exists []. by rewrite app_nil_r. }
    destruct change; [|done].
    destruct (db w !! u) as [original|]; [|done].
    case_bool_decide as Hs; [|done].
    destruct (enqueue_error _); [done|]. simpl.
    eexists. split; [done|]. by repeat constructor.
  - intros target queryset w. unfold mark_as.
    generalize (omap (λ u, (u,.) <$> db w !! u) queryset). intros rows.
    revert w. induction rows as [|row rows IH]; intros w.
    + exists []. by rewrite app_nil_r.
    + cbn [foldl].
      destruct (mark_as_step_jobs target w row) as (js1 & Hjs1 & Hall1).
      cbv zeta in Hjs1.
      match goal with
      | |- context [foldl ?f ?w1 rows] =>
          destruct (IH w1) as (js2 & Hjs2 & Hall2)
      end.
      exists (js1 ++ js2). rewrite Hjs2, Hjs1, <- app_assoc.
      split; [done|]. by apply Forall_app.
Qed.

Lemma with_status_same s a : status a = s → with_status s a = a.
Proof. intros <-. by destruct a. Qed.

Lemma elem_of_rows_of queryset (d : gmap string Appointment) u a :
  (u, a) ∈ rows_of queryset d ↔ u ∈ queryset ∧ d !! u = Some a.
Proof.
  unfold rows_of. rewrite list_elem_of_omap. split.
  - intros (u' & Hin & Hrow). destruct (d !! u') as [a'|] eqn:Hu'; [|done].
    simpl in Hrow. by simplify_eq.
  - intros [Hin Hrow]. exists u. split; [done|]. by rewrite Hrow.
Qed.

(** The loop of a bulk action, for rows that all bear the status (or the
    status to set) that the table holds for them. *)
Lemma mark_as_rows target (rows : list (string * Appointment)) w :
  (∀ u a, (u, a) ∈ rows →
     db w !! u = Some a ∨ db w !! u = Some (with_status target a)) →
  (∀ u a a', (u, a) ∈ rows → (u, a') ∈ rows → a = a') →
  ∀ u,
    db (foldl (λ w row,
                 let '(u, appointment) := row in
                 let old_status := status appointment in
                 if bool_decide (old_status ≠ target) then
                   let w := save u (with_status target appointment) w in
                   with_broker
                     (broker w ++
                      [send_appointment_status_update_email_job u old_status target])
                     w
                 else w) w rows) !! u
    = if decide (u ∈ rows.*1) then with_status target <$> db w !! u
      else db w !! u.
Proof.
  revert w. induction rows as [|[u0 a0] rows IH]; intros w Hread Hfun u.
  { cbn [foldl fmap list_fmap].
    destruct (decide _) as [Hin|]; [by apply elem_of_nil in Hin|done]. }
  cbn [foldl].
  set (w1 := if bool_decide (status a0 ≠ target) then _ else w).
  assert (db w !! u0 = Some a0 ∨ db w !! u0 = Some (with_status target a0))
    as Hu0 by (apply Hread; left).
  assert (db w1 !! u0 = Some (with_status target a0)) as Hw1.
  { subst w1. case_bool_decide as Hs; simpl; [apply lookup_insert_eq|].
    rewrite (with_status_same _ _ Hs).
    rewrite (with_status_same _ _ Hs) in Hu0. by destruct Hu0. }
  assert (∀ u', u' ≠ u0 → db w1 !! u' = db w !! u') as Hothers.
  { intros u' Hne. subst w1. case_bool_decide; simpl; [|done].
    by rewrite lookup_insert_ne. }
  change (foldl _ _ rows) with
    (foldl (λ w row,
              let '(u, appointment) := row in
              let old_status := status appointment in
              if bool_decide (old_status ≠ target) then
                let w := save u (with_status target appointment) w in
                with_broker
                  (broker w ++
                   [send_appointment_status_update_email_job u old_status target])
                  w
              else w) w1 rows).
  rewrite IH.
  - destruct (decide (u = u0)) as [->|Hne].
    + rewrite (decide_True (P := u0 ∈ ((u0, a0) :: rows).*1)) by (simpl; left).
      rewrite Hw1. destruct Hu0 as [-> | ->]; by case_decide.
    + rewrite (Hothers u Hne). simpl.
      destruct (decide (u ∈ rows.*1)) as [Hin|Hnin].
      * rewrite decide_True; [done|]. by right.
      * rewrite decide_False; [done|]. by intros [?|?]%elem_of_cons.
  - intros u' a' Hin.
    destruct (decide (u' = u0)) as [->|Hne].
    + assert (a' = a0) as -> by (eapply Hfun; [by right|by left]). by right.
    + rewrite (Hothers u' Hne). apply Hread. by right.
  - intros u' a' a'' H1 H2. eapply Hfun; by right.
Qed.

Lemma mark_as_settled target (rows : list (string * Appointment)) w :
  (∀ u a, (u, a) ∈ rows → status a = target) →
  foldl (λ w row,
           let '(u, appointment) := row in
           let old_status := status appointment in
           if bool_decide (old_status ≠ target) then
             let w := save u (with_status target appointment) w in
             with_broker
               (broker w ++
                [send_appointment_status_update_email_job u old_status target])
               w
           else w) w rows
  = w.
Proof.
  induction rows as [|[u0 a0] rows IH]; intros Hall; [done|].
  cbn [foldl]. rewrite bool_decide_false.
  - apply IH. intros u a Hin. eapply Hall. by right.
  - intros Hne. apply Hne. eapply Hall. by left.
Qed.

(** X13.  What a bulk action of the staff console leaves in the table:
    every appointment of the queryset bears the status of the action and
    is otherwise as it was, and every other appointment is untouched; no
    row appears or disappears.  Run a second time on the same queryset,
    the action changes nothing and queues nothing. *)
Theorem mark_as_sets_status target queryset w :
  let w' := mark_as target queryset w in
  (∀ u, db w' !! u
        = if decide (u ∈ queryset) then with_status target <$> db w !! u
          else db w !! u)
  ∧ mark_as target queryset w' = w'.
Proof.
  intros w'.
  assert (∀ u, db w' !! u
               = if decide (u ∈ queryset) then with_status target <$> db w !! u
                 else db w !! u) as Hdb.
  { intros u. subst w'. unfold mark_as. fold (rows_of queryset (db w)).
    rewrite mark_as_rows.
    - destruct (decide (u ∈ queryset)) as [Hin|Hnin].
      + destruct (db w !! u) as [a|] eqn:Hrow.
        * rewrite decide_True; [done|]. apply list_elem_of_fmap.
          exists (u, a). split; [done|]. by apply elem_of_rows_of.
        * by case_decide.
      + rewrite decide_False; [done|].
        intros ([u' a] & -> & Hin)%list_elem_of_fmap.
        apply elem_of_rows_of in Hin as [? _]. done.
    - intros u' a [_ Hrow]%elem_of_rows_of. by left.
    - intros u' a a' [_ H1]%elem_of_rows_of [_ H2]%elem_of_rows_of. congruence. }
  split; [done|].
  unfold mark_as at 1. fold (rows_of queryset (db w')).
  apply mark_as_settled.
  intros u a [Hin Hrow]%elem_of_rows_of.
  rewrite Hdb, decide_True in Hrow by done.
  destruct (db w !! u) as [a0|]; simplify_eq/=. done.
Qed.

Lemma resend_loop (rows : list (string * Appointment)) n w :
  foldl (λ '(queued_count, w) row,
           let job := send_appointment_email row.1 in
           match (λ _ : Job, @None string) job with
           | None => (queued_count + 1, with_broker (broker w ++ [job]) w)
           | Some _ => (queued_count, w)
           end)
        (n, w) rows
  = (n + Z.of_nat (length rows),
     with_broker (broker w ++ (send_appointment_email <$> rows.*1)) w).
Proof.
  revert n w. induction rows as [|row rows IH]; intros n w.
  - simpl. rewrite app_nil_r, Z.add_0_r. by destruct w.
  - cbn [foldl]. cbv beta. rewrite IH. simpl. f_equal; [lia|].
    by rewrite <- app_assoc.
Qed.

(** X14.  "Resend confirmation email" does not resend within 24 hours
    of a confirmation that went out.  The action queues one confirmation
    job for each appointment of the queryset and reports their number;
    it leaves the cache alone, so for an appointment whose marker
    [appointment_email_sent:<ulid>] is still live the job it has queued
    answers "skipped" and sends no mail. *)
Theorem resend_is_skipped_within_a_day env queryset w u retries :
  u ∈ queryset →
  is_Some (db w !! u) →
  Cache.get (now w) (email_sent_key u) (cache w) = Some (Cache.VBool true) →
  let out := resend_confirmation_email (λ _, None) queryset w in
  out.1 = pretty (Z.of_nat (length (rows_of queryset (db w))))
          +:+ " confirmation email(s) queued for sending."
  ∧ broker out.2
    = broker w ++ (send_appointment_email <$> (rows_of queryset (db w)).*1)
  ∧ send_appointment_email u ∈ broker out.2
  ∧ send_appointment_email_task env u retries out.2
    = (task_returns (JStr "skipped"), out.2).
Proof.
  intros Hin [a Hrow] Hmarker out.
  assert (out
          = (pretty (0 + Z.of_nat (length (rows_of queryset (db w))))
             +:+ " confirmation email(s) queued for sending.",
             with_broker
               (broker w
                ++ (send_appointment_email <$> (rows_of queryset (db w)).*1)) w))
    as ->.
  { subst out. unfold resend_confirmation_email.
    fold (rows_of queryset (db w)). by rewrite resend_loop. }
  simpl. split_and!; [done|done| |].
  - apply elem_of_app. right. apply list_elem_of_fmap. exists u. split; [done|].
    apply list_elem_of_fmap. exists (u, a). split; [done|].
    by apply elem_of_rows_of.
  - unfold send_appointment_email_task. simpl. by rewrite Hmarker.
Qed.

Lemma resend_is_skipped_within_a_day_witness :
  let sent := (send_appointment_email_task sample_env "A1" 0 one_row_world).2 in
  let out := resend_confirmation_email (λ _, None) ["A1"] sent in
  out.1 = pretty (Z.of_nat (length (rows_of ["A1"] (db sent))))
          +:+ " confirmation email(s) queued for sending."
  ∧ broker out.2
    = broker sent ++ (send_appointment_email <$> (rows_of ["A1"] (db sent)).*1)
  ∧ send_appointment_email "A1" ∈ broker out.2
  ∧ send_appointment_email_task sample_env "A1" 0 out.2
    = (task_returns (JStr "skipped"), out.2).
Proof.
  intros sent.
  apply (resend_is_skipped_within_a_day sample_env ["A1"] sent "A1" 0).
  - apply list_elem_of_here.
  - by eexists.
  - by vm_compute.
Defined.

(** ** Rate limiting *)

Lemma counter_counted key window k w gap :
  counted key window k w → 0 ≤ gap < window →
  counter (Cache.get (now w + gap) key (cache w)) = Some k.
Proof.
  intros [[-> Hnone]|[Hk Hentry]] Hgap; unfold Cache.get.
  - by rewrite Hnone.
  - rewrite Hentry. unfold Cache.live. simpl.
    rewrite bool_decide_true by lia. done.
Qed.

Lemma counter_expired key window k w gap :
  counted key window k w → window ≤ gap →
  counter (Cache.get (now w + gap) key (cache w)) = Some 0.
Proof.
  intros [[-> Hnone]|[Hk Hentry]] Hgap; unfold Cache.get.
  - by rewrite Hnone.
  - rewrite Hentry. unfold Cache.live. simpl.
    rewrite bool_decide_false by lia. done.
Qed.

Lemma counted_set key window k w c :
  0 ≤ k →
  counted key window (k + 1)
    (with_cache (Cache.set (now w) key (Cache.VInt (k + 1)) window c) w).
Proof.
  intros Hk. right. split; [lia|]. simpl. unfold Cache.set.
  apply lookup_insert_eq.
Qed.

Section decorator.
Context (key_prefix : string) (limit window : Z).
Context (view_func : HttpRequest → World → Reply * World).
Context (request : HttpRequest).

Let key := ratelimit_key key_prefix request.
Let wrapped := rate_limit key_prefix limit window view_func.

Lemma rate_limit_refuses w k :
  counter (Cache.get (now w) key (cache w)) = Some k → limit ≤ k →
  wrapped request w = (too_many request window, w).
Proof.
  intros Hk Hlimit. unfold wrapped, rate_limit. fold key. rewrite Hk.
  rewrite bool_decide_true by done. unfold too_many. by case_bool_decide.
Qed.

Lemma rate_limit_admits w k :
  counter (Cache.get (now w) key (cache w)) = Some k → k < limit →
  wrapped request w
  = (let '(reply, w') := view_func request w in
     if is_failure (response reply)
     then (reply,
           with_cache
             (Cache.set (now w') key (Cache.VInt (k + 1)) window (cache w')) w')
     else (reply, w')).
Proof.
  intros Hk Hlimit. unfold wrapped, rate_limit. fold key. rewrite Hk.
  by rewrite bool_decide_false by lia.
Qed.

Lemma rate_limit_counts w k gap :
  (∀ request w, is_failure (response (view_func request w).1) = true) →
  counted key window k w → 0 ≤ k < limit → 0 ≤ gap < window →
  counted key window (k + 1) (wrapped request (after gap w)).2.
Proof.
  intros Hfails Hcounted Hk Hgap.
  rewrite (rate_limit_admits (after gap w) k);
    [|exact (counter_counted key window k w gap Hcounted Hgap)|lia].
  specialize (Hfails request (after gap w)).
  destruct (view_func request (after gap w)) as [reply w'].
  simpl in Hfails. rewrite Hfails. apply counted_set. lia.
Qed.

Lemma rate_limit_counts_all gaps w k :
  (∀ request w, is_failure (response (view_func request w).1) = true) →
  counted key window k w → 0 ≤ k →
  k + Z.of_nat (length gaps) ≤ limit →
  Forall (λ gap, 0 ≤ gap < window) gaps →
  counted key window (k + Z.of_nat (length gaps))
    (calls (wrapped request) gaps w).
Proof.
  intros Hfails. revert w k.
  induction gaps as [|gap gaps IH]; intros w k Hcounted Hk Hlen Hgaps.
  - simpl. by rewrite Z.add_0_r.
  - inversion Hgaps as [|?? Hgap Hgaps']; subst. simpl in Hlen.
    unfold calls. cbn [foldl]. fold (calls (wrapped request) gaps).
    replace (k + Z.of_nat (length (gap :: gaps)))
      with ((k + 1) + Z.of_nat (length gaps)) by (simpl; lia).
    apply IH; [|lia|lia|done].
    apply rate_limit_counts; try done. lia.
Qed.

(** X15.  The decorator shuts out after [limit] failures.  Let every
    answer of the wrapped view be a failure (a JSON body whose status is
    "error", or a status code of 400 or more).  Starting without a
    counter, after [limit] calls, each less than [window] seconds after
    the one before, the counter stands at [limit]; a further call within
    [window] seconds of the last is answered by the decorator (429 for
    an AJAX request, a redirect to the login page otherwise), the view
    is not run and nothing changes, so that the shut-out is not
    prolonged by the calls it turns away; [window] seconds after the
    last failure the view is run again. *)
Theorem rate_limit_shuts_out gaps gap late w :
  (∀ request w, is_failure (response (view_func request w).1) = true) →
  cache w !! ratelimit_key key_prefix request = None →
  Forall (λ gap, 0 ≤ gap < window) gaps →
  Z.of_nat (length gaps) = limit →
  0 < limit →
  0 ≤ gap < window →
  window ≤ late →
  let w' := calls (rate_limit key_prefix limit window view_func request) gaps w in
  rate_limit key_prefix limit window view_func request (after gap w')
  = (too_many request window, after gap w')
  ∧ (rate_limit key_prefix limit window view_func request (after late w')).1
    = (view_func request (after late w')).1.
Proof.
  intros Hfails Hnone Hgaps Hlen Hlimit Hgap Hlate w'.
  assert (counted key window limit w') as Hcounted.
  { rewrite <- Hlen, <- (Z.add_0_l (Z.of_nat (length gaps))).
    apply rate_limit_counts_all; [done|by left|lia|lia|done]. }
  split.
  - apply (rate_limit_refuses _ limit); [|lia].
    exact (counter_counted key window limit w' gap Hcounted Hgap).
  - fold wrapped. rewrite (rate_limit_admits (after late w') 0); [|..|done].
    + destruct (view_func request (after late w')) as [reply w''].
      by destruct (is_failure (response reply)).
    + exact (counter_expired key window limit w' late Hcounted Hlate).
Qed.

End decorator.

Lemma rate_limit_shuts_out_witness :
  let request := anonymous "203.0.113.5" in
  let w' :=
    calls (rate_limit "login" 5 900 slots_without_parameters request)
      [0; 60; 60; 60; 60] empty_world in
  rate_limit "login" 5 900 slots_without_parameters request (after 100 w')
  = (too_many request 900, after 100 w')
  ∧ (rate_limit "login" 5 900 slots_without_parameters request (after 900 w')).1
    = (slots_without_parameters request (after 900 w')).1.
Proof.
  intros request.
  apply (rate_limit_shuts_out "login" 5 900 slots_without_parameters request
           [0; 60; 60; 60; 60] 100 900 empty_world).
  - intros rq w. reflexivity.
  - reflexivity.
  - repeat constructor; lia.
  - reflexivity.
  - lia.
  - lia.
  - lia.
Defined.

(** X16.  The decorator counts by the shape of the answer, not by what
    the view found.  A view that answers every request with a rendered
    page or a redirect (as a form view does that shows its form again
    after a failed attempt) is never counted: however often it is
    called, no counter is written and each call is passed to the view,
    whatever [limit] is. *)
Theorem rate_limit_never_counts_pages key_prefix limit window view_func request
    gaps w :
  keeps_counter (ratelimit_key key_prefix request) view_func →
  (∀ request w,
     (∃ template, response (view_func request w).1 = Page (render template))
     ∨ (∃ to, response (view_func request w).1 = redirect to)) →
  cache w !! ratelimit_key key_prefix request = None →
  0 < limit →
  let w' := calls (rate_limit key_prefix limit window view_func request) gaps w in
  cache w' !! ratelimit_key key_prefix request = None
  ∧ rate_limit key_prefix limit window view_func request w'
    = view_func request w'.
Proof.
  intros Hkeeps Hpages Hnone Hlimit.
  assert (∀ w, cache w !! ratelimit_key key_prefix request = None →
               rate_limit key_prefix limit window view_func request w
               = view_func request w) as Hpass.
  { intros w0 Hw0. unfold rate_limit, Cache.get. rewrite Hw0. simpl.
    rewrite bool_decide_false by lia.
    specialize (Hpages request w0).
    destruct (view_func request w0) as [reply w1]. simpl in Hpages.
    by destruct Hpages as [[t ->]|[to ->]]. }
  revert w Hnone. induction gaps as [|gap gaps IH]; intros w Hnone w'.
  - split; [done|]. by apply Hpass.
  - subst w'. unfold calls. cbn [foldl].
    apply IH. rewrite Hpass by done.
    by rewrite (Hkeeps request (after gap w)).
Qed.

Lemma rate_limit_never_counts_pages_witness :
  let request := anonymous "203.0.113.5" in
  let w' :=
    calls (rate_limit "login" 5 900 renders_again request)
      [0; 1; 1; 1; 1; 1; 1; 1] empty_world in
  cache w' !! ratelimit_key "login" request = None
  ∧ rate_limit "login" 5 900 renders_again request w' = renders_again request w'.
Proof.
  intros request.
  apply (rate_limit_never_counts_pages "login" 5 900 renders_again request
           [0; 1; 1; 1; 1; 1; 1; 1] empty_world).
  - intros rq w. reflexivity.
  - intros rq w. left. by eexists.
  - reflexivity.
  - lia.
Defined.

(** ** The middleware *)

Lemma process_request_limited request w :
  limited request →
  process_request request w
  = match counter (Cache.get (now w) (rate_limit_key request (path request))
                     (cache w)) with
    | None => (Some (Raised "TypeError"), w)
    | Some requests =>
        if bool_decide (100 ≤ requests)
        then (Some response_rate_limit_exceeded, w)
        else (None,
              with_cache
                (Cache.set (now w) (rate_limit_key request (path request))
                   (Cache.VInt (requests + 1)) 60 (cache w)) w)
    end.
Proof.
  intros [Hapi Hstaff]. unfold process_request. rewrite Hapi. simpl.
  destruct Hstaff as [-> | ->]; [done|]. by rewrite andb_false_r.
Qed.

Lemma process_request_counts request w k gap :
  limited request →
  counted (rate_limit_key request (path request)) 60 k w →
  0 ≤ k < 100 → 0 ≤ gap < 60 →
  process_request request (after gap w)
  = (None,
     with_cache
       (Cache.set (now w + gap) (rate_limit_key request (path request))
          (Cache.VInt (k + 1)) 60 (cache w)) (after gap w)).
Proof.
  intros Hlimited Hcounted Hk Hgap.
  rewrite process_request_limited by done.
  change (now (after gap w)) with (now w + gap).
  change (cache (after gap w)) with (cache w).
  rewrite (counter_counted _ 60 k) by done.
  by rewrite bool_decide_false by lia.
Qed.

Lemma process_request_counts_all request gaps w k :
  limited request →
  counted (rate_limit_key request (path request)) 60 k w →
  0 ≤ k → k + Z.of_nat (length gaps) ≤ 100 →
  Forall (λ gap, 0 ≤ gap < 60) gaps →
  counted (rate_limit_key request (path request)) 60 (k + Z.of_nat (length gaps))
    (calls (process_request request) gaps w)
  ∧ ∀ key, key ≠ rate_limit_key request (path request) →
      cache (calls (process_request request) gaps w) !! key = cache w !! key.
Proof.
  intros Hlimited. revert w k.
  induction gaps as [|gap gaps IH]; intros w k Hcounted Hk Hlen Hgaps.
  - simpl. by rewrite Z.add_0_r.
  - inversion Hgaps as [|?? Hgap Hgaps']; subst. simpl in Hlen.
    unfold calls. cbn [foldl]. fold (calls (process_request request) gaps).
    rewrite (process_request_counts request w k gap) by (done || lia).
    cbn [snd].
    replace (k + Z.of_nat (length (gap :: gaps)))
      with ((k + 1) + Z.of_nat (length gaps)) by (simpl; lia).
    edestruct (IH (with_cache
                     (Cache.set (now w + gap)
                        (rate_limit_key request (path request))
                        (Cache.VInt (k + 1)) 60 (cache w)) (after gap w))
                 (k + 1)) as [Hc Hothers]; [|lia|lia|done|].
    + apply (counted_set _ 60 k (after gap w)). lia.
    + split; [done|]. intros key Hkey. rewrite Hothers by done.
      simpl. unfold Cache.set. by rewrite lookup_insert_ne.
Qed.

(** X17.  The middleware counts every request it lets through, and each
    one renews the minute.  For a request to the API that does not come
    from staff and starts without a counter: after 100 requests, each
    less than 60 seconds after the one before (however long the hundred
    take together), a further request within 60 seconds of the last is
    answered 429 and changes nothing, so that requests turned away do
    not prolong the shut-out; 60 seconds after the last request that was
    let through, the next one passes. *)
Theorem api_requests_shut_out request gaps gap late w :
  limited request →
  cache w !! rate_limit_key request (path request) = None →
  length gaps = 100%nat →
  Forall (λ gap, 0 ≤ gap < 60) gaps →
  0 ≤ gap < 60 →
  60 ≤ late →
  let w' := calls (process_request request) gaps w in
  process_request request (after gap w')
  = (Some (JsonResponse
             [("status", JStr "error");
              ("message", JStr "Rate limit exceeded. Please try again later.")]
             429), after gap w')
  ∧ (process_request request (after late w')).1 = None.
Proof.
  intros Hlimited Hnone Hlen Hgaps Hgap Hlate w'.
  assert (counted (rate_limit_key request (path request)) 60 100 w') as Hcounted.
  { pose proof (process_request_counts_all request gaps w 0 Hlimited) as H.
    rewrite Hlen in H. apply H; [by left|lia|lia|done]. }
  split.
  - rewrite process_request_limited by done.
    change (now (after gap w')) with (now w' + gap).
    change (cache (after gap w')) with (cache w').
    by rewrite (counter_counted _ 60 100) by done.
  - rewrite process_request_limited by done.
    change (now (after late w')) with (now w' + late).
    change (cache (after late w')) with (cache w').
    by rewrite (counter_expired _ 60 100) by done.
Qed.

Lemma api_requests_shut_out_witness :
  let request := api_request "203.0.113.5" None in
  let w' := calls (process_request request) (replicate 100 59) empty_world in
  process_request request (after 30 w')
  = (Some (JsonResponse
             [("status", JStr "error");
              ("message", JStr "Rate limit exceeded. Please try again later.")]
             429), after 30 w')
  ∧ (process_request request (after 60 w')).1 = None.
Proof.
  intros request.
  apply (api_requests_shut_out request (replicate 100 59) 30 60 empty_world).
  - split; [reflexivity|by left].
  - reflexivity.
  - reflexivity.
  - apply Forall_forall. intros gap [-> _]%elem_of_replicate. lia.
  - lia.
  - lia.
Defined.

(** The key of the counter tells the address and the path apart from
    the rest. *)
Lemma rate_limit_key_cancel a b suffix :
  "rate_limit:" +:+ a +:+ ":" +:+ suffix = "rate_limit:" +:+ b +:+ ":" +:+ suffix →
  a = b.
Proof.
  intros H. simpl in H. simplify_eq.
  assert (∀ s t u : string, s +:+ u = t +:+ u → s = t) as Hcancel.
  { intros s t u Hst.
    apply (f_equal String.list_ascii_of_string) in Hst.
    assert (∀ x y, String.list_ascii_of_string (x +:+ y)
                   = String.list_ascii_of_string x ++ String.list_ascii_of_string y)
      as Happ.
    { intros x y. induction x as [|c x IHx]; simpl; [done|]. by rewrite IHx. }
    rewrite !Happ in Hst. apply app_inv_tail in Hst.
    rewrite <- (String.string_of_list_ascii_of_string s),
            <- (String.string_of_list_ascii_of_string t). by rewrite Hst. }
  by apply (Hcancel a b (":" +:+ suffix)).
Qed.

Lemma get_client_ip_forwarded header request :
  header ≠ "" →
  get_client_ip (with_forwarded header request) = Some (before_comma header).
Proof.
  intros Hne. unfold get_client_ip. simpl.
  destruct (String.eqb_spec header "") as [->|_]; done.
Qed.

(** X18.  The middleware counts under the address that the client names
    itself.  [get_client_ip] takes the text before the first comma of
    the header X-Forwarded-For whenever the header is there and not
    empty, and the socket address only otherwise.  So a client that has
    been shut out after 100 requests is let through again, at the same
    moment and from the same socket address, when it sends the header
    with another first entry. *)
Theorem forwarded_header_evades_the_count request header gaps gap w :
  limited request →
  header ≠ "" →
  before_comma header ≠ str_opt (get_client_ip request) →
  cache w !! rate_limit_key request (path request) = None →
  cache w !! rate_limit_key (with_forwarded header request) (path request) = None →
  length gaps = 100%nat →
  Forall (λ gap, 0 ≤ gap < 60) gaps →
  0 ≤ gap < 60 →
  let w' := calls (process_request request) gaps w in
  get_client_ip (with_forwarded header request) = Some (before_comma header)
  ∧ (process_request request (after gap w')).1
    = Some response_rate_limit_exceeded
  ∧ (process_request (with_forwarded header request) (after gap w')).1 = None.
Proof.
  intros Hlimited Hheader Hother Hnone Hnone' Hlen Hgaps Hgap w'.
  pose proof (process_request_counts_all request gaps w 0 Hlimited) as H.
  rewrite Hlen in H. destruct H as [Hcounted Hothers]; [by left|lia|lia|done|].
  fold w' in Hcounted, Hothers.
  split_and!.
  - by apply get_client_ip_forwarded.
  - rewrite process_request_limited by done.
    change (now (after gap w')) with (now w' + gap).
    change (cache (after gap w')) with (cache w').
    by rewrite (counter_counted _ 60 100) by done.
  - assert (limited (with_forwarded header request)) as Hlimited'.
    { destruct Hlimited. by split. }
    rewrite process_request_limited by done.
    change (path (with_forwarded header request)) with (path request).
    change (now (after gap w')) with (now w' + gap).
    change (cache (after gap w')) with (cache w').
    unfold Cache.get. rewrite Hothers, Hnone'; [done|].
    unfold rate_limit_key. rewrite get_client_ip_forwarded by done.
    intros Heq. apply rate_limit_key_cancel in Heq. done.
Qed.

Lemma forwarded_header_evades_the_count_witness :
  let request := api_request "203.0.113.5" None in
  let w' := calls (process_request request) (replicate 100 59) empty_world in
  get_client_ip (with_forwarded "198.51.100.7, 203.0.113.5" request)
  = Some (before_comma "198.51.100.7, 203.0.113.5")
  ∧ (process_request request (after 30 w')).1
    = Some response_rate_limit_exceeded
  ∧ (process_request (with_forwarded "198.51.100.7, 203.0.113.5" request)
       (after 30 w')).1 = None.
Proof.
  intros request.
  apply (forwarded_header_evades_the_count request "198.51.100.7, 203.0.113.5"
           (replicate 100 59) 30 empty_world).
  - split; [reflexivity|by left].
  - discriminate.
  - discriminate.
  - reflexivity.
  - reflexivity.
  - reflexivity.
  - apply Forall_forall. intros gap [-> _]%elem_of_replicate. lia.
  - lia.
Defined.

Lemma increments_counted request key_suffix timeout gaps w k :
  counted (rate_limit_key request key_suffix) timeout k w →
  0 ≤ k →
  Forall (λ gap, 0 ≤ gap < timeout) gaps →
  ∃ w', foldl (λ ow gap,
                 ow ≫= λ w,
                   increment_rate_limit request key_suffix timeout (after gap w))
              (Some w) gaps = Some w'
        ∧ counted (rate_limit_key request key_suffix) timeout
            (k + Z.of_nat (length gaps)) w'.
Proof.
  revert w k. induction gaps as [|gap gaps IH]; intros w k Hcounted Hk Hgaps.
  - exists w. simpl. by rewrite Z.add_0_r.
  - inversion Hgaps as [|?? Hgap Hgaps']; subst.
    cbn [foldl]. cbn [mbind option_bind].
    unfold increment_rate_limit at 2.
    change (now (after gap w)) with (now w + gap).
    change (cache (after gap w)) with (cache w).
    rewrite (counter_counted _ timeout k) by done.
    replace (k + Z.of_nat (length (gap :: gaps)))
      with ((k + 1) + Z.of_nat (length gaps)) by (simpl; lia).
    apply IH; [|lia|done].
    by apply (counted_set _ timeout k (after gap w)).
Qed.

(** X19.  The three helpers of the middleware module agree on one
    counter.  Starting without a counter, after [increment_rate_limit]
    has been called [n] times, each call less than [timeout] seconds
    after the one before, [check_rate_limit] within [timeout] seconds
    reports the client as limited exactly when [n] has reached
    [max_attempts], and otherwise that [max_attempts - n] attempts
    remain; after [clear_rate_limit] it reports all [max_attempts]
    attempts as remaining. *)
Theorem rate_limit_helpers_agree request key_suffix max_attempts timeout gaps
    gap w :
  cache w !! rate_limit_key request key_suffix = None →
  Forall (λ gap, 0 ≤ gap < timeout) gaps →
  0 ≤ gap < timeout →
  0 < max_attempts →
  let n := Z.of_nat (length gaps) in
  ∃ w',
    increments request key_suffix timeout gaps w = Some w'
    ∧ check_rate_limit request key_suffix max_attempts (after gap w')
      = Some (if bool_decide (max_attempts ≤ n) then (true, 0)
              else (false, max_attempts - n))
    ∧ check_rate_limit request key_suffix max_attempts
        (clear_rate_limit request key_suffix (after gap w'))
      = Some (false, max_attempts).
Proof.
  intros Hnone Hgaps Hgap Hmax n.
  destruct (increments_counted request key_suffix timeout gaps w 0)
    as (w' & Hrun & Hcounted); [by left|lia|done|].
  rewrite Z.add_0_l in Hcounted. fold n in Hcounted.
  exists w'. split_and!; [done|..].
  - unfold check_rate_limit.
    change (now (after gap w')) with (now w' + gap).
    change (cache (after gap w')) with (cache w').
    rewrite (counter_counted _ timeout n) by done. by case_bool_decide.
  - unfold check_rate_limit, clear_rate_limit. simpl.
    rewrite get_delete_eq. simpl.
    rewrite bool_decide_false by lia. by rewrite Z.sub_0_r.
Qed.

Lemma rate_limit_helpers_agree_witness :
  let request := api_request "203.0.113.5" None in
  ∃ w',
    increments request "contact" 1800 [0; 10; 10] empty_world = Some w'
    ∧ check_rate_limit request "contact" 3 (after 5 w')
      = Some (if bool_decide (3 ≤ Z.of_nat (length [0; 10; 10])) then (true, 0)
              else (false, 3 - Z.of_nat (length [0; 10; 10])))
    ∧ check_rate_limit request "contact" 3
        (clear_rate_limit request "contact" (after 5 w'))
      = Some (false, 3).
Proof.
  intros request.
  apply (rate_limit_helpers_agree request "contact" 3 1800 [0; 10; 10] 5
           empty_world).
  - reflexivity.
  - repeat constructor; lia.
  - lia.
  - lia.
Defined.

(** ** Display columns of the staff console *)

Lemma pretty_N_char_digit x : digit (pretty_N_char x) = true.
Proof. unfold pretty_N_char. by repeat case_match. Qed.

Lemma pretty_N_go_digits x s : digits s = true → digits (pretty_N_go x s) = true.
Proof.
  revert s. induction (N.lt_wf_0 x) as [x _ IH]; intros s Hs.
  assert (x = 0 ∨ 0 < x)%N as [->|Hpos] by lia.
  - by rewrite pretty_N_go_0.
  - rewrite pretty_N_go_step by done. apply IH.
    + by apply N.div_lt.
    + simpl. by rewrite pretty_N_char_digit.
Qed.

Lemma pretty_Z_digits z : 0 ≤ z → digits (pretty z) = true.
Proof.
  intros Hz. destruct z as [|p|p]; [done| |lia].
  unfold pretty, pretty_Z, pretty, pretty_positive, pretty, pretty_N.
  rewrite decide_False by done. by apply pretty_N_go_digits.
Qed.

(** Two texts that begin with digits and go on with a character that is
    no digit agree on the digits, on the character and on the rest. *)
Lemma digits_split s1 s2 c1 c2 r1 r2 :
  digits s1 = true → digits s2 = true →
  digit c1 = false → digit c2 = false →
  s1 +:+ String c1 r1 = s2 +:+ String c2 r2 →
  s1 = s2 ∧ c1 = c2 ∧ r1 = r2.
Proof.
  revert s2. induction s1 as [|d1 s1 IH]; intros [|d2 s2] H1 H2 Hc1 Hc2 Heq;
    simpl in *.
  - by simplify_eq.
  - simplify_eq. apply andb_prop in H2 as [? _]. congruence.
  - simplify_eq. apply andb_prop in H1 as [? _]. congruence.
  - injection Heq as -> Heq.
    apply andb_prop in H1 as [_ H1]. apply andb_prop in H2 as [_ H2].
    destruct (IH s2 H1 H2 Hc1 Hc2 Heq) as (-> & -> & ->). done.
Qed.

Lemma duration_display_inj m1 m2 :
  0 ≤ m1 → 0 ≤ m2 →
  duration_display m1 = duration_display m2 → m1 = m2.
Proof.
  intros Hm1 Hm2. unfold duration_display.
  pose proof (Z.div_mod m1 60 ltac:(lia)) as Hd1.
  pose proof (Z.div_mod m2 60 ltac:(lia)) as Hd2.
  pose proof (Z.mod_pos_bound m1 60 ltac:(lia)) as Hb1.
  pose proof (Z.mod_pos_bound m2 60 ltac:(lia)) as Hb2.
  pose proof (Z.div_pos m1 60 Hm1 ltac:(lia)) as Hh1.
  pose proof (Z.div_pos m2 60 Hm2 ltac:(lia)) as Hh2.
  pose proof (pretty_Z_digits (m1 `div` 60) Hh1) as Dh1.
  pose proof (pretty_Z_digits (m2 `div` 60) Hh2) as Dh2.
  pose proof (pretty_Z_digits (m1 `mod` 60) ltac:(lia)) as Dm1.
  pose proof (pretty_Z_digits (m2 `mod` 60) ltac:(lia)) as Dm2.
  repeat case_bool_decide; simpl; intros Heq.
  all: apply digits_split in Heq as (Hh & Hc & Hrest); try done.
  all: try (injection Hrest as Hrest;
            apply digits_split in Hrest as (Hm & _ & _); try done;
            apply (inj pretty) in Hm).
  all: apply (inj pretty) in Hh.
  all: lia.
Qed.

(** X20.  The duration column tells durations apart: two different
    durations of 0 minutes or more are never displayed alike.  (Hours
    are shown when there is at least one, minutes when there are some
    or when there is no hour.) *)
Theorem duration_display_tells_apart m1 m2 :
  0 ≤ m1 → 0 ≤ m2 → m1 ≠ m2 →
  duration_display m1 ≠ duration_display m2.
Proof.
  intros Hm1 Hm2 Hne Heq. by apply Hne, duration_display_inj.
Qed.

Lemma duration_display_tells_apart_witness :
  0 ≤ 90 ∧ 0 ≤ 150 ∧ 90 ≠ 150 ∧ duration_display 90 ≠ duration_display 150.
Proof.
  split_and!; [lia|lia|lia|].
  apply (duration_display_tells_apart 90 150); lia.
Defined.

(** ** Username suggestions *)

(** X21.  The suggestion is the first free one.  With [base] the slug
    of the name asked for ("user" when the slug is empty), the function
    answers [base] followed by the least number from 1 to 99 for which
    no user bears the name; that name is free.  Only when all 99 names
    are taken does it answer [base] followed by the number drawn at
    random, and that name it does not look up. *)
Theorem username_suggestion_first_free slugify taken randint base_username :
  let base := if String.eqb (slugify base_username) "" then "user"
              else slugify base_username in
  let suggestion :=
    generate_username_suggestion slugify taken randint base_username in
  (∃ i, 1 ≤ i ≤ 99
        ∧ suggestion = base +:+ pretty i
        ∧ taken suggestion = false
        ∧ ∀ j, 1 ≤ j < i → taken (base +:+ pretty j) = true)
  ∨ ((∀ j, 1 ≤ j ≤ 99 → taken (base +:+ pretty j) = true)
     ∧ suggestion = base +:+ pretty randint).
Proof.
  intros base suggestion. subst suggestion.
  unfold generate_username_suggestion. fold base.
  destruct (list_find _ _) as [[n s]|] eqn:Hfind.
  - left. apply list_find_Some in Hfind as (Hn & Hfree & Hleast).
    rewrite list_lookup_fmap in Hn.
    destruct (seqZ 1 99 !! n) as [i|] eqn:Hi; [|done].
    apply lookup_seqZ in Hi as [-> Hlt]. simpl in Hn. injection Hn as <-.
    exists (1 + Z.of_nat n). split_and!; [lia|lia|done|done|].
    intros j Hj.
    specialize (Hleast (Z.to_nat (j - 1)) (base +:+ pretty j)).
    destruct (taken (base +:+ pretty j)) eqn:Hj'; [done|].
    destruct Hleast; [|lia|done].
    rewrite list_lookup_fmap.
    assert (seqZ 1 99 !! Z.to_nat (j - 1) = Some j) as ->; [|done].
    apply lookup_seqZ. lia.
  - right. split; [|done].
    apply list_find_None in Hfind. intros j Hj.
    rewrite Forall_forall in Hfind.
    specialize (Hfind (base +:+ pretty j)).
    destruct (taken (base +:+ pretty j)); [done|].
    destruct Hfind; [|done].
    apply list_elem_of_fmap. exists j. split; [done|].
    apply elem_of_seqZ. lia.
Qed.

(** ** The availability view and its cache *)

Lemma not_booked_no_conflict t did date_ (d : gmap string Appointment) :
  bool_decide (t ∉ booked_times did date_ d)
  = negb (conflict_exists (did, date_, t) d).
Proof.
  unfold conflict_exists.
  destruct (bool_decide (map_Exists _ d)) eqn:Hex; simpl.
  - apply bool_decide_eq_true in Hex as (u & a & Hrow & Hocc).
    apply bool_decide_eq_false. intros Hnot. apply Hnot.
    apply elem_of_booked_times. eauto.
  - apply bool_decide_eq_false in Hex. apply bool_decide_eq_true.
    intros (u & a & Hrow & Hocc)%elem_of_booked_times.
    apply Hex. by exists u, a.
Qed.

Lemma slots_of_booked_times (TIME_SLOTS : list (string * string)) did date_
    (d : gmap string Appointment) :
  (λ td, slot_entry td.1 td.2 (bool_decide (td.1 ∉ booked_times did date_ d)))
  <$> TIME_SLOTS
  = slots_of_table TIME_SLOTS did date_ d.
Proof.
  unfold slots_of_table. apply list_fmap_ext. intros i td _.
  by rewrite not_booked_no_conflict.
Qed.

(** X22.  The availability view answers from the table once in 300
    seconds.  A query that finds no cached slot set lists every time
    slot, in the order of [TIME_SLOTS], as available exactly when the
    conflict query of the booking view finds no pending or confirmed
    appointment for the doctor, the day and the time; it caches the set
    of booked times.  For the next 300 seconds a query gets the same
    answer whatever the table holds by then (unless the cached set is
    removed); from 300 seconds on the answer is read from the table
    again. *)
Theorem availability_cached_300_seconds TIME_SLOTS did date_ w table soon late :
  date_ ≠ "" →
  Cache.get (now w) ("slots:" +:+ pretty did +:+ ":" +:+ date_) (cache w) = None →
  0 ≤ soon < 300 →
  300 ≤ late →
  let query := mkSlotsRequest (Some did) date_ in
  let first := check_slots_ajax TIME_SLOTS query w in
  first.1 = slots_answer (slots_of_table TIME_SLOTS did date_ (db w))
  ∧ (check_slots_ajax TIME_SLOTS query (with_db table (after soon first.2))).1
    = first.1
  ∧ (check_slots_ajax TIME_SLOTS query (with_db table (after late first.2))).1
    = slots_answer (slots_of_table TIME_SLOTS did date_ table).
Proof.
  intros Hdate Hmiss Hsoon Hlate query first.
  subst first query. rewrite check_slots_ajax_fills by done.
  cbn [fst snd]. rewrite slots_of_booked_times. split_and!; [done|..].
  - rewrite (check_slots_ajax_hit _ _ _ _ (booked_times did date_ (db w)));
      [by rewrite slots_of_booked_times|done|].
    simpl. apply get_set_live. lia.
  - rewrite check_slots_ajax_fills; [by rewrite slots_of_booked_times|done|].
    simpl. apply get_set_expired. lia.
Qed.

Lemma availability_cached_300_seconds_witness :
  let query := mkSlotsRequest (Some 1%N) "2025-06-01" in
  let first := check_slots_ajax sample_slots query empty_world in
  first.1 = slots_answer (slots_of_table sample_slots 1 "2025-06-01" ∅)
  ∧ (check_slots_ajax sample_slots query
       (with_db (db one_row_world) (after 299 first.2))).1
    = first.1
  ∧ (check_slots_ajax sample_slots query
       (with_db (db one_row_world) (after 300 first.2))).1
    = slots_answer
        (slots_of_table sample_slots 1 "2025-06-01" (db one_row_world)).
Proof.
  apply (availability_cached_300_seconds sample_slots 1 "2025-06-01" empty_world
           (db one_row_world) 299 300).
  - discriminate.
  - reflexivity.
  - lia.
  - lia.
Defined.

(** ** From the booking to the mail and the calendar *)

(** X23.  A booking carried through.  A well-formed request for a free
    slot that meets no fault is answered with success and leaves its two
    jobs on the broker, the mail job first.  Run in that order with a
    mail server that takes the mails and a calendar that takes the
    event, the mail job sends the confirmation mails of the new row and
    the calendar job makes one call, for an event that starts on the day
    and at the time of the form and lasts 30 minutes, and stores the id
    of the event on the row. *)
Theorem booking_to_mail_and_event env request data w event_id html_link :
  rq_ajax_post request = true →
  rq_form request = form_valid data →
  rq_fault request = None →
  Cache.get (now w) (lock_key_of data) (cache w) = None →
  free (slot_of data) (db w) →
  db w !! rq_ulid request = None →
  cache w !! email_sent_key (rq_ulid request) = None →
  let row := new_appointment request data in
  let event := calendar_event_of row (d_email (cd_doctor data)) in
  Forall (λ m, delivers env m = true) (appointment_emails env row) →
  d_email (cd_doctor data) ≠ "" →
  strptime_ok env (with_seconds (cd_time data)) = true →
  events_insert env event = Some (event_id, html_link) →
  let booked := appointment request w in
  let mailed := send_appointment_email_task env (rq_ulid request) 0 booked.2 in
  let evented := create_calendar_event_task env (rq_ulid request) 0 mailed.2 in
  booked.1 = response_booked (rq_ulid request)
  ∧ broker booked.2
    = broker w ++ [send_appointment_email (rq_ulid request);
                   create_calendar_event (rq_ulid request)]
  ∧ mailed.1 = task_returns (JStr "sent")
  ∧ evented.1
    = task_returns
        (JObj [("status", JStr "success"); ("event_id", JStr event_id);
               ("event_link", link_json html_link)])
  ∧ outbox evented.2 = outbox w ++ appointment_emails env row
  ∧ calendar evented.2 = calendar w ++ [event]
  ∧ start_date event = cd_date data
  ∧ start_time event = with_seconds (cd_time data)
  ∧ minutes event = 30
  ∧ db evented.2 !! rq_ulid request = Some (with_calendar_event_id event_id row).
Proof.
  intros Hajax Hform Hfault Hlock Hfree Hfresh Hmarker row event Hmail Hdoctor
    Htime Hinsert booked mailed evented.
  assert (has_doctor_email row = Some (d_email (cd_doctor data))) as Hhas.
  { unfold has_doctor_email. simpl.
    destruct (String.eqb_spec (d_email (cd_doctor data)) ""); done. }
  subst booked mailed evented.
  rewrite (appointment_books request data w) by done.
  cbn [fst snd]. fold row.
  set (w1 := mkWorld _ _ _ _ _ _).
  assert (Cache.get (now w1) (email_sent_key (rq_ulid request)) (cache w1) = None)
    as Hget.
  { unfold Cache.get. simpl.
    rewrite delete_absent; [done|]. apply delete_absent.
    unfold invalidate_appointment_cache. repeat apply delete_absent.
    unfold Cache.set. by rewrite lookup_insert_ne. }
  assert (db w1 !! rq_ulid request = Some row) as Hrow1.
  { simpl. apply lookup_insert_eq. }
  set (w2 := with_cache
               (Cache.set (now w1) (email_sent_key (rq_ulid request))
                  (Cache.VBool true) 86400 (cache w1))
               (with_outbox (outbox w1 ++ appointment_emails env row) w1)).
  assert (send_appointment_email_task env (rq_ulid request) 0 w1
          = (task_returns (JStr "sent"), w2)) as ->.
  { unfold send_appointment_email_task.
    rewrite Hget, Hrow1. unfold send_appointment_emails.
    by rewrite send_each_delivered. }
  cbn [fst snd].
  assert (db w2 !! rq_ulid request = Some row) as Hrow2 by done.
  unfold create_calendar_event_task. rewrite Hrow2.
  assert (has_event_id row = false) as -> by done.
  assert (bool_decide (status row ∈ [confirmed; pending]) = true) as ->.
  { apply bool_decide_eq_true. set_solver. }
  cbn [negb]. rewrite Hhas.
  assert (time row = cd_time data) as -> by done.
  rewrite Htime. cbn [negb]. fold event. rewrite Hinsert.
  cbn [fst snd]. split_and!; try done.
  simpl. rewrite lookup_alter_eq, lookup_insert_eq. done.
Qed.

Lemma booking_to_mail_and_event_witness :
  let row := new_appointment request_a data_a in
  let event := calendar_event_of row "d1@clinic.test" in
  let booked := appointment request_a empty_world in
  let mailed := send_appointment_email_task sample_env "01APPTA" 0 booked.2 in
  let evented := create_calendar_event_task sample_env "01APPTA" 0 mailed.2 in
  booked.1 = response_booked "01APPTA"
  ∧ broker booked.2
    = [] ++ [send_appointment_email "01APPTA"; create_calendar_event "01APPTA"]
  ∧ mailed.1 = task_returns (JStr "sent")
  ∧ evented.1
    = task_returns
        (JObj [("status", JStr "success"); ("event_id", JStr "evt1");
               ("event_link", link_json None)])
  ∧ outbox evented.2 = [] ++ appointment_emails sample_env row
  ∧ calendar evented.2 = [] ++ [event]
  ∧ start_date event = "2025-06-01"
  ∧ start_time event = with_seconds "10:00"
  ∧ minutes event = 30
  ∧ db evented.2 !! "01APPTA" = Some (with_calendar_event_id "evt1" row).
Proof.
  apply (booking_to_mail_and_event sample_env request_a data_a empty_world
           "evt1" None).
  - reflexivity.
  - reflexivity.
  - reflexivity.
  - reflexivity.
  - apply free_empty.
  - reflexivity.
  - reflexivity.
  - repeat constructor.
  - discriminate.
  - reflexivity.
  - reflexivity.
Defined.
